(** * asyncoro: coroutine scheduler and framed socket I/O

    A shallow embedding of [asyncoro.py] (dispy): the blocking and the
    asynchronous [recvall], the length-prefixed message framing, the
    [AsynCoro] scheduler with its ready and suspended sets and its sleep
    heap, [CoroCondition], and the attribute sharing of a re-wrapped
    [AsynCoroSocket].

    Conventions.
    - A Python 2 [str] is a [list byte].
    - A Python exception is an outcome [Raise]; a loop that the model
      cannot bound structurally takes fuel and reports [OutOfFuel].
    - The clock [_time()] counts microseconds in an integer, so the
      scheduler's slack of 0.001 s is [1000].  A timeout given to the
      scheduler and a deadline of its sleep heap is a float that may
      also be an infinity or [nan] ([pyfloat]); a finite one is the
      integer of its microseconds, without rounding.
    - The sleep heap is the array of [heapq], with [heappush] and
      [heappop] as that module has them.
    - The scheduler's lock delimits atomic sections; each function of
      the scheduler below is one such section. *)

From Stdlib Require Import ZArith Lia.
From Stdlib Require Import Strings.Byte Strings.String.
From stdpp Require Import gmap list strings sorting.

Local Open Scope Z_scope.

(** ** Python values, exceptions and call outcomes *)

Abbreviation bytes := (list byte).

Inductive exc_kind :=
| GeneratorExit
| StopIteration
| socket_error
| socket_timeout
| struct_error
| AssertionError
| ValueError
| RuntimeError
| UnboundLocalError
| AttributeError
| UserError (tag : nat).

Global Instance exc_kind_eq_dec : EqDecision exc_kind.
Proof. solve_decision. Defined.

(** [PInt] is an [int]; it also stands for a finite float and for a bool
    (the int it equals); a number used as a duration counts
    microseconds.  [PInf], [PNegInf] and [PNaN] are the floats that are
    not finite: [float('inf')], [float('-inf')] and [float('nan')];
    [PLong z] is a Python 2 [long], which is no instance of [int].
    [PExc e msg] is an exception instance, [PGenerator g] a generator
    object, [PObject r] a reference to the object at [r], [PMethod o f]
    the method [f] bound to the object at [o], [PSingleton c] the one
    instance of the class [c]. *)
Inductive pyval :=
| PNone
| PInt (z : Z)
| PStr (s : bytes)
| PGenerator (g : nat)
| PExc (e : exc_kind) (msg : string)
| PObject (ref : nat)
| PMethod (self : nat) (name : string)
| PSingleton (class : string)
| PInf
| PNegInf
| PNaN
| PLong (z : Z).

Global Instance byte_eq_dec : EqDecision byte := Byte.byte_eq_dec.

Global Instance pyval_eq_dec : EqDecision pyval.
Proof. solve_decision. Defined.

Inductive outcome (A : Type) :=
| Return (a : A)
| Raise (e : exc_kind) (msg : string)
| OutOfFuel.
Arguments Return {A} a.
Arguments Raise {A} e msg.
Arguments OutOfFuel {A}.

Definition len (s : bytes) : Z := Z.of_nat (length s).

(** ** The operating-system socket under a wrapper ([self._rsock])

    [rx] is what the peer still has to deliver, cut into the segments in
    which the kernel hands it over; the peer has closed after the last
    one, and an empty segment stands for a close as well.  [tx] is what
    the kernel has accepted from us so far, and [accepts] bounds the
    number of bytes each of the next [send] calls takes. *)

Record rsock := {
  rx : list bytes;
  tx : bytes;
  accepts : list nat
}.

(** A computation on the socket that may raise. *)
Definition io (A : Type) : Type := rsock -> outcome A * rsock.

Definition ret {A} (a : A) : io A := fun sk => (Return a, sk).
Definition throw {A} (e : exc_kind) (msg : string) : io A :=
  fun sk => (Raise e msg, sk).
Definition out_of_fuel {A} : io A := fun sk => (OutOfFuel, sk).
Definition bind {A B} (m : io A) (k : A -> io B) : io B :=
  fun sk =>
    match m sk with
    | (Return a, sk') => k a sk'
    | (Raise e msg, sk') => (Raise e msg, sk')
    | (OutOfFuel, sk') => (OutOfFuel, sk')
    end.
Definition lift {A} (o : outcome A) : io A := fun sk => (o, sk).

Global Instance io_ret : MRet io := @ret.
Global Instance io_bind : MBind io := fun A B k m => bind m k.

(** [self._rsock.recv(bufsize)]: at most [bufsize] bytes of the next
    segment; the empty string once the peer has closed. *)
Definition recv (bufsize : Z) : io bytes := fun sk =>
  if bufsize <? 0 then (Raise ValueError "negative buffersize in recv", sk)
  else
    match rx sk with
    | [] => (Return [], sk)
    | [] :: _ => (Return [], sk)
    | seg :: rest =>
        if len seg <=? bufsize
        then (Return seg, {| rx := rest; tx := tx sk; accepts := accepts sk |})
        else (Return (take (Z.to_nat bufsize) seg),
              {| rx := drop (Z.to_nat bufsize) seg :: rest;
                 tx := tx sk; accepts := accepts sk |})
    end.

(** [self._rsock.send(data)]: the number of bytes the kernel took. *)
Definition send (data : bytes) : io Z := fun sk =>
  match accepts sk with
  | [] => (Return (len data),
           {| rx := rx sk; tx := tx sk ++ data; accepts := [] |})
  | k :: w =>
      let n := Nat.min k (length data) in
      (Return (Z.of_nat n),
       {| rx := rx sk; tx := tx sk ++ take n data; accepts := w |})
  end.

(** ** [struct.pack('>L', n)], [struct.unpack('>L', s)], [struct.calcsize('>L')] *)

Definition byte_of_Z (z : Z) : byte :=
  match Byte.of_N (Z.to_N z) with
  | Some b => b
  | None => x00
  end.

Definition Z_of_byte (b : byte) : Z := Z.of_N (Byte.to_N b).

Definition struct_pack_L (n : Z) : outcome bytes :=
  if (0 <=? n) && (n <? 2 ^ 32)
  then Return [ byte_of_Z (n / 2 ^ 24);
                byte_of_Z ((n / 2 ^ 16) mod 256);
                byte_of_Z ((n / 2 ^ 8) mod 256);
                byte_of_Z (n mod 256) ]
  else Raise struct_error "integer out of range for 'L' format code".

Definition struct_unpack_L (data : bytes) : outcome Z :=
  match data with
  | [b3; b2; b1; b0] =>
      Return (Z_of_byte b3 * 2 ^ 24 + Z_of_byte b2 * 2 ^ 16
              + Z_of_byte b1 * 2 ^ 8 + Z_of_byte b0)
  | _ => Raise struct_error "unpack requires a string argument of length 4"
  end.

Definition struct_calcsize_L : Z := 4.

(** ** Blocking transfers of [_AsynCoroSocket] *)

(** [sync_recvall]: the [while bufsize:] loop, [_result] being the list
    of chunks appended so far. *)
Fixpoint sync_recvall_loop (fuel : nat) (bufsize : Z) (_result : list bytes)
  : io (list bytes) :=
  if bufsize =? 0 then ret _result
  else
    match fuel with
    | O => out_of_fuel
    | S fuel' =>
        buf ← recv bufsize;
        match buf with
        | [] => throw socket_error "recv error"
        | _ => sync_recvall_loop fuel' (bufsize - len buf) (_result ++ [buf])
        end
    end.

Definition sync_recvall (fuel : nat) (bufsize : Z) : io bytes :=
  chunks ← sync_recvall_loop fuel bufsize [];
  ret (concat chunks).

(** [sync_sendall]: [_result] is the [buffer] over what is still unsent. *)
Fixpoint sync_sendall_loop (fuel : nat) (_result : bytes) : io Z :=
  if len _result >? 0 then
    match fuel with
    | O => out_of_fuel
    | S fuel' =>
        sent ← send _result;
        if sent >? 0
        then sync_sendall_loop fuel' (drop (Z.to_nat sent) _result)
        else sync_sendall_loop fuel' _result
    end
  else ret 0.

Definition sync_sendall (fuel : nat) (data : bytes) : io Z :=
  sync_sendall_loop fuel data.

Definition sync_send_msg (fuel : nat) (data : bytes) : io Z :=
  header ← lift (struct_pack_L (len data));
  sync_sendall fuel (header ++ data).

(** [sync_recv_msg]; the result [None] is Python's [None]. *)
Definition sync_recv_msg (fuel : nat) : io (option bytes) :=
  let n := struct_calcsize_L in
  data ← sync_recvall fuel n;
  if len data <? n then ret None
  else
    n ← lift (struct_unpack_L data);
    if n >? 0 then
      data ← sync_recvall fuel n;
      if len data <? n then ret None else ret (Some data)
    else throw AssertionError "".

(** ** Coroutines ([Coro]) and the scheduler ([AsynCoro])

    A coroutine object is the record stored in [_coros] under its id; an
    object that the scheduler has deleted has no record, which is what
    [Coro]'s methods test with [if self._asyncoro].  The
    [threading.Event]s [_complete], used only by [value()] and [join()],
    are left out. *)

Inductive coro_state := Scheduled | Running | Suspended.

(** A float where it is a point in time: a finite number of
    microseconds, an infinity, or not a number.  An integer is read as
    the finite time it counts. *)
Inductive pyfloat := Finite (t : Z) | PlusInf | MinusInf | NaN.

Coercion Finite : Z >-> pyfloat.

Global Instance pyfloat_eq_dec : EqDecision pyfloat.
Proof. solve_decision. Defined.

(** [a + b], [a == b], [a < b] and [a <= b] on floats: every comparison
    with [nan] is false. *)
Definition float_add (a b : pyfloat) : pyfloat :=
  match a, b with
  | NaN, _ | _, NaN => NaN
  | Finite x, Finite y => Finite (x + y)
  | PlusInf, MinusInf | MinusInf, PlusInf => NaN
  | PlusInf, _ | _, PlusInf => PlusInf
  | MinusInf, _ | _, MinusInf => MinusInf
  end.

Definition float_eqb (a b : pyfloat) : bool :=
  match a, b with
  | Finite x, Finite y => x =? y
  | PlusInf, PlusInf | MinusInf, MinusInf => true
  | _, _ => false
  end.

Definition float_ltb (a b : pyfloat) : bool :=
  match a, b with
  | NaN, _ | _, NaN => false
  | Finite x, Finite y => x <? y
  | MinusInf, MinusInf | PlusInf, _ | _, MinusInf => false
  | MinusInf, _ | _, PlusInf => true
  end.

Definition float_leb (a b : pyfloat) : bool :=
  float_ltb a b || float_eqb a b.

Global Instance coro_state_eq_dec : EqDecision coro_state.
Proof. solve_decision. Defined.

Record Coro := {
  _id : Z;
  _generator : nat;
  _state : coro_state;
  _value : pyval;
  _exception : option (exc_kind * pyval);
  _callers : list (nat * pyval);
  _timeout : option pyfloat
}.

Record AsynCoro := {
  _coros : gmap Z Coro;
  _cur_coro : option Z;
  _scheduled : gset Z;
  _suspended : gset Z;
  _timeouts : list (pyfloat * Z);
  _coro_id : Z;
  _cmd_wsock : bytes
}.

(** [AsynCoro.__init__]; ids start at 1. *)
Definition AsynCoro_init : AsynCoro :=
  {| _coros := ∅; _cur_coro := None; _scheduled := ∅; _suspended := ∅;
     _timeouts := []; _coro_id := 1; _cmd_wsock := [] |}.

(** *** [heapq]

    The sleep heap is a list used as the array of a binary heap, through
    [heappush], [heappop] and a look at its first entry.  The entries are
    the tuples [(deadline, id)], compared as Python compares tuples: by
    the first components unless these are equal.  [_siftdown] and
    [_siftup] are those of [heapq]; their loops move along one branch of
    the heap, so the position they start from, respectively the length
    of the heap, bounds their turns. *)

Definition entry_lt (a b : pyfloat * Z) : bool :=
  if float_eqb a.1 b.1 then a.2 <? b.2 else float_ltb a.1 b.1.

(** [(pos - 1) >> 1] *)
Definition parent (pos : nat) : nat := Nat.div2 (pos - 1).

Fixpoint _siftdown (fuel : nat) (heap : list (pyfloat * Z))
         (newitem : pyfloat * Z) (startpos pos : nat) : list (pyfloat * Z) :=
  match fuel with
  | O => <[pos := newitem]> heap
  | S fuel' =>
      if decide (startpos < pos)%nat then
        match heap !! parent pos with
        | Some p =>
            if entry_lt newitem p
            then _siftdown fuel' (<[pos := p]> heap) newitem startpos
                           (parent pos)
            else <[pos := newitem]> heap
        | None => <[pos := newitem]> heap
        end
      else <[pos := newitem]> heap
  end.

(** [heap.append(item); _siftdown(heap, 0, len(heap) - 1)] *)
Definition heappush (heap : list (pyfloat * Z)) (item : pyfloat * Z)
  : list (pyfloat * Z) :=
  _siftdown (length heap) (heap ++ [item]) item 0 (length heap).

(** The [while childpos < endpos] of [_siftup]: the smaller child moves
    up until the hole is at a leaf. *)
Fixpoint _siftup_loop (fuel : nat) (heap : list (pyfloat * Z)) (pos : nat)
  : list (pyfloat * Z) * nat :=
  match fuel with
  | O => (heap, pos)
  | S fuel' =>
      let childpos := (2 * pos + 1)%nat in
      if decide (childpos < length heap)%nat then
        let rightpos := (childpos + 1)%nat in
        let childpos :=
          match heap !! childpos, heap !! rightpos with
          | Some l, Some r => if entry_lt l r then childpos else rightpos
          | _, _ => childpos
          end in
        match heap !! childpos with
        | Some c => _siftup_loop fuel' (<[pos := c]> heap) childpos
        | None => (heap, pos)
        end
      else (heap, pos)
  end.

Definition _siftup (heap : list (pyfloat * Z)) (pos : nat)
  : list (pyfloat * Z) :=
  match heap !! pos with
  | None => heap
  | Some newitem =>
      let '(heap, leaf) := _siftup_loop (length heap) heap pos in
      _siftdown leaf (<[leaf := newitem]> heap) newitem pos leaf
  end.

(** [lastelt = heap.pop()]; with entries left, [heap[0]] is returned and
    replaced by [lastelt], which [_siftup] then sinks. *)
Definition heappop (heap : list (pyfloat * Z))
  : option ((pyfloat * Z) * list (pyfloat * Z)) :=
  match reverse heap with
  | [] => None
  | lastelt :: rest =>
      match reverse rest with
      | [] => Some (lastelt, [])
      | returnitem :: heap' => Some (returnitem, _siftup (lastelt :: heap') 0)
      end
  end.

(** *** Field updates *)

Definition set_coro (cid : Z) (c : Coro) (s : AsynCoro) : AsynCoro :=
  {| _coros := <[cid := c]> (_coros s); _cur_coro := _cur_coro s;
     _scheduled := _scheduled s; _suspended := _suspended s;
     _timeouts := _timeouts s; _coro_id := _coro_id s;
     _cmd_wsock := _cmd_wsock s |}.

Definition set_sets (sched susp : gset Z) (s : AsynCoro) : AsynCoro :=
  {| _coros := _coros s; _cur_coro := _cur_coro s;
     _scheduled := sched; _suspended := susp;
     _timeouts := _timeouts s; _coro_id := _coro_id s;
     _cmd_wsock := _cmd_wsock s |}.

Definition set_timeouts (heap : list (pyfloat * Z)) (s : AsynCoro) : AsynCoro :=
  {| _coros := _coros s; _cur_coro := _cur_coro s;
     _scheduled := _scheduled s; _suspended := _suspended s;
     _timeouts := heap; _coro_id := _coro_id s;
     _cmd_wsock := _cmd_wsock s |}.

Definition set_cur_coro (c : option Z) (s : AsynCoro) : AsynCoro :=
  {| _coros := _coros s; _cur_coro := c;
     _scheduled := _scheduled s; _suspended := _suspended s;
     _timeouts := _timeouts s; _coro_id := _coro_id s;
     _cmd_wsock := _cmd_wsock s |}.

(** [if len(self._scheduled) == 1: self._cmd_wsock.send(b)] *)
Definition interrupt_notifier (b : byte) (s : AsynCoro) : AsynCoro :=
  if decide (size (_scheduled s) = 1%nat)
  then {| _coros := _coros s; _cur_coro := _cur_coro s;
          _scheduled := _scheduled s; _suspended := _suspended s;
          _timeouts := _timeouts s; _coro_id := _coro_id s;
          _cmd_wsock := _cmd_wsock s ++ [b] |}
  else s.

(** The ready set gains [cid], the suspended set loses it:
    [self._suspended.discard(cid); self._scheduled.add(cid)]. *)
Definition make_ready (cid : Z) (s : AsynCoro) : AsynCoro :=
  set_sets (_scheduled s ∪ {[cid]}) (_suspended s ∖ {[cid]}) s.

(** *** [Coro.__init__] and [_add] *)

Definition _add (generator : nat) (s : AsynCoro) : Z * AsynCoro :=
  let id := _coro_id s in
  let coro := {| _id := id; _generator := generator; _state := Scheduled;
                 _value := PNone; _exception := None; _callers := [];
                 _timeout := None |} in
  (id,
   interrupt_notifier "a"
     {| _coros := <[id := coro]> (_coros s); _cur_coro := _cur_coro s;
        _scheduled := _scheduled s ∪ {[id]}; _suspended := _suspended s;
        _timeouts := _timeouts s; _coro_id := id + 1;
        _cmd_wsock := _cmd_wsock s |}).

(** *** [_suspend]; [now] is what [_time()] returns. *)

(** [not isinstance(timeout, (float, int)) or timeout <= 0], for a
    [timeout] that is not [None] *)
Definition invalid_timeout (timeout : pyval) : bool :=
  match timeout with
  | PNone => false
  | PInt t => t <=? 0
  | PInf => false
  | PNegInf => true
  | PNaN => false
  | _ => true
  end.

(** The number a timeout is, [None] having none. *)
Definition seconds (timeout : pyval) : option pyfloat :=
  match timeout with
  | PInt t => Some (Finite t)
  | PInf => Some PlusInf
  | PNegInf => Some MinusInf
  | PNaN => Some NaN
  | _ => None
  end.

Definition _suspend (now : Z) (cid : Z) (timeout : pyval) (s : AsynCoro)
  : Z * AsynCoro :=
  if invalid_timeout timeout then (-1, s)
  else
    match _coros s !! cid with
    | None => (-1, s)
    | Some coro =>
        if decide (_state coro = Running) then
          let s1 := set_sets (_scheduled s ∖ {[cid]}) (_suspended s ∪ {[cid]}) s in
          match seconds timeout with
          | None =>
              (0, set_coro cid
                    {| _id := _id coro; _generator := _generator coro;
                       _state := Suspended; _value := _value coro;
                       _exception := _exception coro;
                       _callers := _callers coro; _timeout := None |} s1)
          | Some t =>
              let timeout := float_add (Finite now) t in
              (0, set_coro cid
                    {| _id := _id coro; _generator := _generator coro;
                       _state := Suspended; _value := _value coro;
                       _exception := _exception coro;
                       _callers := _callers coro; _timeout := Some timeout |}
                    (set_timeouts (heappush (_timeouts s) (timeout, cid)) s1))
          end
        else (-1, s)
    end.

(** *** [_resume] *)

Definition _resume (cid : Z) (update : pyval) (s : AsynCoro) : Z * AsynCoro :=
  match _coros s !! cid with
  | None => (-1, s)
  | Some coro =>
      if decide (_state coro = Scheduled) then
        match _exception coro with
        | Some (kind, _) =>
            if decide (kind <> GeneratorExit) then
              (0, set_coro cid
                    {| _id := _id coro; _generator := _generator coro;
                       _state := _state coro; _value := update;
                       _exception := None;
                       _callers := _callers coro;
                       _timeout := _timeout coro |} s)
            else (-1, s)
        | None => (-1, s)
        end
      else
        (0, set_coro cid
              {| _id := _id coro; _generator := _generator coro;
                 _state := Scheduled; _value := update;
                 _exception := _exception coro;
                 _callers := _callers coro; _timeout := None |}
              (make_ready cid s))
  end.

(** *** [_throw]; [args] is the pair [(kind, payload)] that [Coro.throw]
    insists on. *)

Definition _throw (cid : Z) (args : exc_kind * pyval) (s : AsynCoro)
  : Z * AsynCoro :=
  match _coros s !! cid with
  | None => (-1, s)
  | Some coro =>
      if decide (_state coro = Scheduled \/ _state coro = Suspended) then
        let s1 := if decide (_state coro = Suspended)
                  then make_ready (_id coro) s else s in
        (0, interrupt_notifier "e"
              (set_coro cid
                 {| _id := _id coro; _generator := _generator coro;
                    _state := Scheduled; _value := _value coro;
                    _exception := Some args;
                    _callers := _callers coro; _timeout := None |} s1))
      else (-1, s)
  end.

(** *** [_terminate_coro] *)

Definition _terminate_coro (cid : Z) (s : AsynCoro) : Z * AsynCoro :=
  match _coros s !! cid with
  | None => (-1, s)
  | Some coro =>
      let s1 := if decide (_state coro = Suspended)
                then make_ready cid s else s in
      (0, interrupt_notifier "x"
            (set_coro cid
               {| _id := _id coro; _generator := _generator coro;
                  _state := Scheduled; _value := _value coro;
                  _exception := Some (GeneratorExit, PExc GeneratorExit "close");
                  _callers := _callers coro; _timeout := None |} s1))
  end.

(** *** The methods of [Coro], which forward to the scheduler unless the
    coroutine has been deleted *)

Definition Coro_suspend (now : Z) (cid : Z) (timeout : pyval) (s : AsynCoro)
  : Z * AsynCoro :=
  match _coros s !! cid with
  | Some _ => _suspend now cid timeout s
  | None => (-1, s)
  end.

Definition Coro_resume (cid : Z) (update : pyval) (s : AsynCoro)
  : Z * AsynCoro :=
  match _coros s !! cid with
  | Some _ => _resume cid update s
  | None => (-1, s)
  end.

Definition Coro_throw (cid : Z) (kind : exc_kind) (payload : pyval)
           (s : AsynCoro) : Z * AsynCoro :=
  match _coros s !! cid with
  | Some _ => _throw cid (kind, payload) s
  | None => (-1, s)
  end.

Definition Coro_terminate (cid : Z) (s : AsynCoro) : Z * AsynCoro :=
  match _coros s !! cid with
  | Some _ => _terminate_coro cid s
  | None => (-1, s)
  end.

(** *** The scheduling loop [_schedule]

    One turn of the loop is: the notifier's poll, whose tasks resume
    coroutines or throw into them; the wake-up of timed suspends; and one
    step of every coroutine found in [_scheduled].  What a generator does
    when it is stepped is not the scheduler's code: it is given from
    outside as the calls it makes on the scheduler while it runs and the
    way it answers. *)

(** [coro._timeout != timeout] is false: the coroutine has a deadline
    and it equals the entry's ([nan] equals nothing). *)
Definition deadline_is (deadline : option pyfloat) (timeout : pyfloat) : bool :=
  match deadline with
  | Some d => float_eqb d timeout
  | None => false
  end.

(** The wake-up of one popped heap entry (the body of the [while]). *)
Definition wake (timeout : pyfloat) (cid : Z) (s : AsynCoro) : AsynCoro :=
  match _coros s !! cid with
  | None => s
  | Some coro =>
      if deadline_is (_timeout coro) timeout then
        if decide (_state coro = Suspended) then
          set_coro cid
            {| _id := _id coro; _generator := _generator coro;
               _state := Scheduled; _value := PNone;
               _exception := _exception coro;
               _callers := _callers coro; _timeout := None |}
            (make_ready (_id coro) s)
        else s
      else s
  end.

(** [while self._timeouts and self._timeouts[0][0] <= now:
    timeout, cid = heappop(self._timeouts); ...]; every turn pops an
    entry, so the length of the heap bounds the turns.  The entry that
    [heappop] returns is the first one, whose deadline the test of the
    loop has just found at most [now], so [assert timeout <= now] holds
    and is left out. *)
Fixpoint wake_loop (fuel : nat) (now : Z) (heap : list (pyfloat * Z))
         (s : AsynCoro) : AsynCoro :=
  match fuel with
  | O => set_timeouts heap s
  | S fuel' =>
      match heap with
      | [] => set_timeouts [] s
      | (deadline, _) :: _ =>
          if float_leb deadline (Finite now) then
            match heappop heap with
            | Some ((timeout, cid), heap') =>
                wake_loop fuel' now heap' (wake timeout cid s)
            | None => set_timeouts heap s
            end
          else set_timeouts heap s
      end
  end.

Definition slack : Z := 1000.

(** [if self._timeouts: now = _time() + 0.001; while ...], [t] being
    what [_time()] returns. *)
Definition wake_timed_suspends (t : Z) (s : AsynCoro) : AsynCoro :=
  match _timeouts s with
  | [] => s
  | heap => wake_loop (length heap) (t + slack) heap s
  end.

(** A generator's answer to [send], [throw] or [close]. *)
Inductive gen_response :=
| Yields (v : pyval)
| Raises (kind : exc_kind) (payload : pyval).

(** A call on the scheduler made while a generator runs. *)
Inductive call :=
| CallCoro (generator : nat)
| CallSuspend (now : Z) (cid : Z) (timeout : pyval)
| CallResume (cid : Z) (update : pyval)
| CallThrow (cid : Z) (kind : exc_kind) (payload : pyval)
| CallTerminate (cid : Z).

Definition run_call (c : call) (s : AsynCoro) : AsynCoro :=
  match c with
  | CallCoro g => (_add g s).2
  | CallSuspend now cid timeout => (Coro_suspend now cid timeout s).2
  | CallResume cid update => (Coro_resume cid update s).2
  | CallThrow cid kind payload => (Coro_throw cid kind payload s).2
  | CallTerminate cid => (Coro_terminate cid s).2
  end.

Definition run_calls (cs : list call) (s : AsynCoro) : AsynCoro :=
  foldl (fun s c => run_call c s) s cs.

(** What happens around one step: [foreign] calls arrive from other
    threads before the step, [calls] are made by the generator, which
    then answers with [response]. *)
Record activity := {
  foreign : list call;
  calls : list call;
  response : gen_response
}.

(** The scheduler thread: the state it works on, its local variable
    [retval] (unbound until first assigned), and whether an exception
    has escaped from [_schedule]. *)
Record thread := {
  sched : AsynCoro;
  retval : option pyval;
  died : option exc_kind
}.

(** How the [try] block ends. *)
Inductive step_end :=
| Completed (new_retval : option pyval)
| Excepted (kind : exc_kind) (payload : pyval).

(** The [try] block: [close()] for a pending [GeneratorExit], [throw]
    for another pending exception, [send] otherwise.  [close()] returns
    when the generator finishes or lets [GeneratorExit] through, raises
    [RuntimeError] when the generator yields, and passes any other
    exception on; it assigns nothing to [retval]. *)
Definition try_block (pending : option (exc_kind * pyval)) (r : gen_response)
  : step_end :=
  match pending with
  | Some (GeneratorExit, _) =>
      match r with
      | Yields _ => Excepted RuntimeError (PExc RuntimeError "generator ignored GeneratorExit")
      | Raises StopIteration _ => Completed None
      | Raises GeneratorExit _ => Completed None
      | Raises kind payload => Excepted kind payload
      end
  | _ =>
      match r with
      | Yields v => Completed (Some v)
      | Raises kind payload => Excepted kind payload
      end
  end.

(** The head of the loop body: a coroutine not in state [Scheduled] is
    passed over; otherwise it becomes the running one and its pending
    exception is taken. *)
Definition begin_step (cid : Z) (s : AsynCoro)
  : option (option (exc_kind * pyval) * AsynCoro) :=
  match _coros s !! cid with
  | None => None
  | Some coro =>
      if decide (_state coro = Scheduled) then
        Some (_exception coro,
              set_cur_coro (Some cid)
                (set_coro cid
                   {| _id := _id coro; _generator := _generator coro;
                      _state := Running; _value := _value coro;
                      _exception := None;
                      _callers := _callers coro;
                      _timeout := _timeout coro |} s))
      else None
  end.

(** The [except:] clause.  [self._coros.pop(coro._id, None) == coro]
    compares objects: it holds when the entry popped is the one the
    coroutine was found under. *)
Definition step_raised (cid : Z) (kind : exc_kind) (payload : pyval)
           (s : AsynCoro) : AsynCoro :=
  let s := set_cur_coro None s in
  match _coros s !! cid with
  | None => s
  | Some coro =>
      let exception :=
        if decide (kind = StopIteration) then None else Some (kind, payload) in
      let value :=
        if decide (kind = StopIteration) then _value coro else PNone in
      match reverse (_callers coro) with
      | caller :: callers =>
          set_coro cid
            {| _id := _id coro; _generator := caller.1;
               _state := Scheduled;
               _value := match exception with
                         | Some _ => caller.2
                         | None => value
                         end;
               _exception := exception;
               _callers := reverse callers;
               _timeout := _timeout coro |} s
      | [] =>
          let s := {| _coros := delete (_id coro) (_coros s);
                      _cur_coro := _cur_coro s;
                      _scheduled := _scheduled s; _suspended := _suspended s;
                      _timeouts := _timeouts s; _coro_id := _coro_id s;
                      _cmd_wsock := _cmd_wsock s |} in
          if decide (_id coro = cid) then
            if decide (_state coro = Suspended)
            then set_sets (_scheduled s) (_suspended s ∖ {[_id coro]}) s
            else set_sets (_scheduled s ∖ {[_id coro]}) (_suspended s) s
          else s
      end
  end.

(** The [else:] clause; reading an unbound [retval] raises
    [UnboundLocalError] out of [_schedule]. *)
Definition step_returned (cid : Z) (retval : option pyval) (s : AsynCoro)
  : AsynCoro * option exc_kind :=
  let s := set_cur_coro None s in
  match _coros s !! cid with
  | None =>
      (s, match retval with None => Some UnboundLocalError | _ => None end)
  | Some coro =>
      let coro1 :=
        if decide (_state coro = Running)
        then {| _id := _id coro; _generator := _generator coro;
                _state := Scheduled;
                _value := match retval with
                          | Some v => v
                          | None => _value coro
                          end;
                _exception := _exception coro;
                _callers := _callers coro; _timeout := _timeout coro |}
        else coro in
      match retval with
      | None => (set_coro cid coro1 s, Some UnboundLocalError)
      | Some (PGenerator g) =>
          (set_coro cid
             {| _id := _id coro1; _generator := g;
                _state := _state coro1; _value := PNone;
                _exception := _exception coro1;
                _callers := _callers coro1 ++ [(_generator coro1, _value coro1)];
                _timeout := _timeout coro1 |} s,
           None)
      | Some _ => (set_coro cid coro1 s, None)
      end
  end.

(** One pass of [for coro in scheduled:]. *)
Definition run_coro (act : activity) (cid : Z) (th : thread) : thread :=
  match died th with
  | Some _ => th
  | None =>
      let s := run_calls (foreign act) (sched th) in
      match begin_step cid s with
      | None => {| sched := s; retval := retval th; died := None |}
      | Some (pending, s) =>
          let s := run_calls (calls act) s in
          match try_block pending (response act) with
          | Excepted kind payload =>
              {| sched := step_raised cid kind payload s;
                 retval := retval th; died := None |}
          | Completed new_retval =>
              let retval := match new_retval with
                            | Some v => Some v
                            | None => retval th
                            end in
              let '(s, crash) := step_returned cid retval s in
              {| sched := s; retval := retval; died := crash |}
          end
      end
  end.

(** One turn of [while not self._terminate:]: [polled] are the calls made
    by the tasks that the notifier runs, [t] is the clock when the heap
    is looked at, [acts] tells what happens at each coroutine's step. *)
Definition schedule_turn (polled : list call) (t : Z) (acts : Z -> activity)
           (th : thread) : thread :=
  match died th with
  | Some _ => th
  | None =>
      let s := wake_timed_suspends t (run_calls polled (sched th)) in
      foldl (fun th cid => run_coro (acts cid) cid th)
            {| sched := s; retval := retval th; died := None |}
            (elements (_scheduled s))
  end.

(** ** [CoroCondition]

    A coroutine object is named by its id; [cur_coro()] may be [None],
    and so may an entry of the wait list.  A failing [assert] formats its
    message from [owner.name] and [self._owner.name], which raises
    [AttributeError] instead when one of the two is [None]. *)

Record CoroCondition := {
  _waitlist : list (option Z);
  _owner : option Z;
  _notify : bool
}.

Definition CoroCondition_init : CoroCondition :=
  {| _waitlist := []; _owner := None; _notify := false |}.

Definition assert_failure (a b : option Z) : exc_kind :=
  match a, b with
  | Some _, Some _ => AssertionError
  | _, _ => AttributeError
  end.

Definition CoroCondition_notify (cv : CoroCondition) (s : AsynCoro)
  : outcome unit * CoroCondition * AsynCoro :=
  let owner := _cur_coro s in
  if decide (_owner cv = owner /\ owner <> None) then
    match _waitlist cv with
    | [] =>
        (Return (), {| _waitlist := []; _owner := _owner cv; _notify := true |}, s)
    | wake :: waitlist =>
        let cv := {| _waitlist := waitlist; _owner := _owner cv;
                     _notify := true |} in
        match wake with
        | Some w => (Return (), cv, (Coro_resume w PNone s).2)
        | None => (Raise AttributeError "resume", cv, s)
        end
    end
  else (Raise (assert_failure owner (_owner cv)) "invalid condition variable notify", cv, s).

Definition CoroCondition_wait (cv : CoroCondition) (s : AsynCoro)
  : outcome bool * CoroCondition * AsynCoro :=
  let coro := _cur_coro s in
  if decide (_owner cv <> None /\ _owner cv <> coro) then
    (Raise (assert_failure coro (_owner cv)) "invalid condition variable wait", cv, s)
  else if _notify cv then
    (Return false,
     {| _waitlist := _waitlist cv; _owner := coro; _notify := false |}, s)
  else
    let cv := {| _waitlist := _waitlist cv ++ [coro]; _owner := None;
                 _notify := _notify cv |} in
    match coro with
    | Some c =>
        (* [coro.suspend()]: no timeout, so the clock is not read *)
        (Return true, cv, (Coro_suspend 0 c PNone s).2)
    | None => (Raise AttributeError "suspend", cv, s)
    end.

(** ** The asynchronous [recvall]

    The wrapper in asynchronous mode.  [_task] is the continuation the
    notifier calls when the socket is readable, here
    [functools.partial(_recvall, self, pending)]; [_interest] is the event
    mask last handed to [self._notifier.modify]. *)

Inductive task := Task_recvall (pending : Z).

Record AsynCoroSocket := {
  _rsock : rsock;
  _certfile : bool;
  _result : option (list bytes);
  _task : option task;
  _coro : option Z;
  _interest : Z
}.

Definition _Readable : Z := 1.

(** A task is over: [self._notifier.modify(self, 0)],
    [self._task = self._result = None], [coro, self._coro = self._coro, None]. *)
Definition finished (rs : rsock) (sock : AsynCoroSocket) : AsynCoroSocket :=
  {| _rsock := rs; _certfile := _certfile sock; _result := None;
     _task := None; _coro := None; _interest := 0 |}.

(** [coro.resume(buf)] and [coro.throw(kind, payload)] on what was
    [self._coro]; on [None] the attribute error is swallowed by the
    notifier's [poll]. *)
Definition resume_coro (coro : option Z) (v : pyval) (s : AsynCoro) : AsynCoro :=
  match coro with
  | Some c => (Coro_resume c v s).2
  | None => s
  end.

Definition throw_coro (coro : option Z) (kind : exc_kind) (payload : pyval)
           (s : AsynCoro) : AsynCoro :=
  match coro with
  | Some c => (Coro_throw c kind payload s).2
  | None => s
  end.

(** The inner function [_recvall(self, pending)]. *)
Definition _recvall (pending : Z) (sock : AsynCoroSocket) (s : AsynCoro)
  : AsynCoroSocket * AsynCoro :=
  match recv pending (_rsock sock) with
  | (Return [], rs) =>
      (finished rs sock,
       throw_coro (_coro sock) socket_error (PExc socket_error "recv error") s)
  | (Return buf, rs) =>
      match _result sock with
      | None =>
          (* [None.append] raises out of the task; [poll] logs it *)
          ({| _rsock := rs; _certfile := _certfile sock; _result := None;
              _task := _task sock; _coro := _coro sock;
              _interest := _interest sock |}, s)
      | Some chunks =>
          let chunks := chunks ++ [buf] in
          let pending := pending - len buf in
          if pending =? 0 then
            (finished rs sock,
             resume_coro (_coro sock) (PStr (concat chunks)) s)
          else
            ({| _rsock := rs; _certfile := _certfile sock;
                _result := Some chunks;
                _task := Some (Task_recvall pending);
                _coro := _coro sock; _interest := _interest sock |}, s)
      end
  | (Raise kind msg, rs) =>
      (finished rs sock, throw_coro (_coro sock) kind (PExc kind msg) s)
  | (OutOfFuel, rs) => (sock, s)
  end.

(** [async_recvall(bufsize)], called by the running coroutine.  It
    returns the bytes at once when the first read of an SSL socket
    already has them all, and [None] after arming the task. *)
Definition async_recvall (bufsize : Z) (sock : AsynCoroSocket) (s : AsynCoro)
  : outcome (option bytes) * AsynCoroSocket * AsynCoro :=
  let arm (rs : rsock) (chunks : list bytes) (bufsize : Z) :=
    match _cur_coro s with
    | Some c =>
        (Return None,
         {| _rsock := rs; _certfile := _certfile sock;
            _result := Some chunks;
            _task := Some (Task_recvall bufsize);
            _coro := Some c; _interest := _Readable |},
         (Coro_suspend 0 c PNone s).2)
    | None =>
        (Raise AttributeError "suspend",
         {| _rsock := rs; _certfile := _certfile sock;
            _result := Some chunks;
            _task := Some (Task_recvall bufsize);
            _coro := None; _interest := _interest sock |}, s)
    end in
  if _certfile sock then
    match recv bufsize (_rsock sock) with
    | (Return buf, rs) =>
        if len buf =? bufsize then
          (Return (Some buf),
           {| _rsock := rs; _certfile := _certfile sock; _result := None;
              _task := None; _coro := _coro sock;
              _interest := _interest sock |}, s)
        else arm rs [buf] (bufsize - len buf)
    | (Raise kind msg, rs) =>
        (Raise kind msg,
         {| _rsock := rs; _certfile := _certfile sock; _result := Some [];
            _task := _task sock; _coro := _coro sock;
            _interest := _interest sock |}, s)
    | (OutOfFuel, rs) => (OutOfFuel, sock, s)
    end
  else arm (_rsock sock) [] bufsize.

(** The notifier finds the socket readable: [if fd._task is None: ...
    else: fd._task()]. *)
Definition readable (sock : AsynCoroSocket) (s : AsynCoro)
  : AsynCoroSocket * AsynCoro :=
  match _task sock with
  | None => (sock, s)
  | Some (Task_recvall pending) => _recvall pending sock s
  end.

(** Readable events keep coming for as long as a task is armed. *)
Fixpoint poll_readable (events : nat) (sock : AsynCoroSocket) (s : AsynCoro)
  : AsynCoroSocket * AsynCoro :=
  match events with
  | O => (sock, s)
  | S events' =>
      match _task sock with
      | None => (sock, s)
      | Some _ => let '(sock, s) := readable sock s in poll_readable events' sock s
      end
  end.

(** ** Wrapping a socket: [_AsynCoroSocket.__init__]

    Objects live in a store.  An object has a class and a reference to
    its attribute dictionary [__dict__]; dictionaries are stored apart,
    so that two objects can hold the same one.  [registered] lists the
    objects handed to [self._notifier.register]. *)

Inductive pyclass := socket_class | AsynCoroSocket_class.

Global Instance pyclass_eq_dec : EqDecision pyclass.
Proof. solve_decision. Defined.

Record pyobject := {
  class_of : pyclass;
  dict_ref : nat
}.

Record store := {
  objects : gmap nat pyobject;
  dicts : gmap nat (gmap string pyval);
  registered : list nat
}.

(** [obj.__dict__] *)
Definition attributes (st : store) (obj : nat) : gmap string pyval :=
  match objects st !! obj with
  | Some o => default ∅ (dicts st !! dict_ref o)
  | None => ∅
  end.

(** [getattr(obj, name)]; a wrapper's [__getattr__] falls back on its
    [_rsock]. *)
Definition getattr (st : store) (obj : nat) (name : string) : option pyval :=
  match attributes st obj !! name with
  | Some v => Some v
  | None =>
      match class_of <$> objects st !! obj, attributes st obj !! "_rsock" with
      | Some AsynCoroSocket_class, Some (PObject r) => attributes st r !! name
      | _, _ => None
      end
  end.

(** [setattr(obj, name, v)] *)
Definition setattr (obj : nat) (name : string) (v : pyval) (st : store) : store :=
  match objects st !! obj with
  | Some o =>
      {| objects := objects st;
         dicts := <[dict_ref o := <[name := v]> (attributes st obj)]> (dicts st);
         registered := registered st |}
  | None => st
  end.

Definition truthy (v : pyval) : bool :=
  match v with
  | PNone => false
  | PInt z | PLong z => negb (z =? 0)
  | PStr s => match s with [] => false | _ => true end
  | _ => true
  end.

(** [self._rsock = ssl.wrap_socket(self._rsock, ...)]: a new socket
    object over the same descriptor. *)
Definition ssl_wrap_socket (self : nat) (st : store) : store :=
  match attributes st self !! "_rsock" with
  | Some (PObject r) =>
      let r' := fresh (dom (objects st)) in
      let d := fresh (dom (dicts st)) in
      setattr self "_rsock" (PObject r')
        {| objects := <[r' := {| class_of := socket_class; dict_ref := d |}]>
                        (objects st);
           dicts := <[d := attributes st r]> (dicts st);
           registered := registered st |}
  | _ => st
  end.

(** [setblocking], as [__init__] reaches it: [_blocking] is still [None],
    no notifier is set, and the socket is a stream socket. *)
Definition setblocking (self : nat) (blocking : bool) (st : store) : store :=
  let st := setattr self "_blocking" (PInt (if blocking then 1 else 0)) st in
  if blocking then
    let st := if truthy (default PNone (attributes st self !! "_certfile"))
              then ssl_wrap_socket self st else st in
    let rsock := default PNone (attributes st self !! "_rsock") in
    let forward (st : store) (name : string) :=
      match rsock with
      | PObject r => setattr self name (PMethod r name) st
      | _ => st
      end in
    let st := foldl forward st
                ["recv"; "send"; "recvfrom"; "sendto"; "accept"; "connect"] in
    let st := setattr self "recvall" (PMethod self "sync_recvall") st in
    let st := setattr self "sendall" (PMethod self "sync_sendall") st in
    let st := setattr self "recv_msg" (PMethod self "sync_recv_msg") st in
    let st := setattr self "send_msg" (PMethod self "sync_send_msg") st in
    let st := setattr self "_asyncoro" PNone st in
    setattr self "_notifier" PNone st
  else
    let st := setattr self "recv" (PMethod self "async_recv") st in
    let st := setattr self "send" (PMethod self "async_send") st in
    let st := setattr self "recvfrom" (PMethod self "async_recvfrom") st in
    let st := setattr self "sendto" (PMethod self "async_sendto") st in
    let st := setattr self "accept" (PMethod self "async_accept") st in
    let st := setattr self "connect" (PMethod self "async_connect") st in
    let st := setattr self "recvall" (PMethod self "async_recvall") st in
    let st := setattr self "sendall" (PMethod self "async_sendall") st in
    let st := setattr self "recv_msg" (PMethod self "async_recv_msg") st in
    let st := setattr self "send_msg" (PMethod self "async_send_msg") st in
    let st := setattr self "_asyncoro" (PSingleton "AsynCoro") st in
    let st := setattr self "_notifier" (PSingleton "_AsyncNotifier") st in
    (* [self._register()]: [self._notifier.register(self)] *)
    {| objects := objects st; dicts := dicts st;
       registered := registered st ++ [self] |}.

(** [__init__(self, sock, blocking, keyfile, certfile)], with the class
    attribute [_default_timeout] at its initial [None]. *)
Definition __init__ (self sock : nat) (blocking : bool)
           (keyfile certfile : pyval) (st : store) : store :=
  match objects st !! self, objects st !! sock with
  | Some o, Some so =>
      if decide (class_of so = AsynCoroSocket_class) then
        (* [self.__dict__ = sock.__dict__] *)
        {| objects := <[self := {| class_of := class_of o;
                                   dict_ref := dict_ref so |}]> (objects st);
           dicts := dicts st;
           registered := registered st |}
      else
        let st := setattr self "_rsock" (PObject sock) st in
        let st := setattr self "_keyfile" keyfile st in
        let st := setattr self "_certfile" certfile st in
        let st := setattr self "_ssl_version" (PInt 2) st in
        let st := setattr self "_result" PNone st in
        let st := setattr self "_fileno"
                    (default PNone (attributes st sock !! "fileno")) st in
        let st := setattr self "_timeout" (PInt 0) st in
        let st := setattr self "_timeout_id" PNone st in
        let st := setattr self "_coro" PNone st in
        let st := setattr self "_task" PNone st in
        let st := setattr self "_asyncoro" PNone st in
        let st := setattr self "_notifier" PNone st in
        let st := setattr self "recvall" PNone st in
        let st := setattr self "sendall" PNone st in
        let st := setattr self "recv_msg" PNone st in
        let st := setattr self "send_msg" PNone st in
        let st := setattr self "_blocking" PNone st in
        setblocking self blocking st
  | _, _ => st
  end.

(** [AsynCoroSocket(sock, blocking, keyfile, certfile)]: a fresh object
    with a fresh, empty [__dict__], then [__init__]. *)
Definition AsynCoroSocket_new (sock : nat) (blocking : bool)
           (keyfile certfile : pyval) (st : store) : nat * store :=
  let self := fresh (dom (objects st)) in
  let d := fresh (dom (dicts st)) in
  (self,
   __init__ self sock blocking keyfile certfile
     {| objects := <[self := {| class_of := AsynCoroSocket_class;
                                dict_ref := d |}]> (objects st);
        dicts := <[d := ∅]> (dicts st);
        registered := registered st |}).

(** ** Properties of scheduler states *)

(** The ready set and the suspended set are disjoint, and every id of
    the coroutine table is in one of them. *)
Definition sets_partition (s : AsynCoro) : Prop :=
  _scheduled s ## _suspended s
  /\ forall cid, is_Some (_coros s !! cid) ->
                 cid ∈ _scheduled s \/ cid ∈ _suspended s.

(** Every coroutine is stored under its own id. *)
Definition ids_ok (s : AsynCoro) : Prop :=
  forall cid coro, _coros s !! cid = Some coro -> _id coro = cid.

(** The ids in the two sets have been handed out already. *)
Definition ids_bounded (s : AsynCoro) : Prop :=
  forall cid, cid ∈ _scheduled s ∪ _suspended s -> cid < _coro_id s.

Definition well_formed (s : AsynCoro) : Prop :=
  sets_partition s /\ ids_ok s /\ ids_bounded s.

(** An entry is due at [now]; every comparison of [nan] being false, an
    entry with deadline [nan] is never due. *)
Definition expired (now : Z) (e : pyfloat * Z) : Prop :=
  float_leb e.1 (Finite now) = true.

Global Instance expired_dec (now : Z) (e : pyfloat * Z) : Decision (expired now e).
Proof. unfold expired. apply _. Defined.

(** The invariant of [heapq], [heap[(k - 1) >> 1] <= heap[k]] for every
    [k > 0], read as: no entry is smaller than its parent. *)
Definition heap_inv (heap : list (pyfloat * Z)) : Prop :=
  forall i c p,
    (0 < i)%nat -> heap !! i = Some c -> heap !! parent i = Some p ->
    entry_lt c p = false.

(** No deadline of the heap is [nan]. *)
Definition nan_free (heap : list (pyfloat * Z)) : Prop :=
  Forall (fun e => e.1 <> NaN) heap.

Definition heap_ok (heap : list (pyfloat * Z)) : Prop :=
  heap_inv heap /\ nan_free heap.

(** The heap while [_siftdown] or [_siftup] moves a hole at [pos]: the
    invariant holds between the entries away from the hole, and the
    children of the hole are not smaller than its parent. *)
Definition hole_inv (heap : list (pyfloat * Z)) (pos : nat) : Prop :=
  (forall i c p,
      (0 < i)%nat -> i <> pos -> parent i <> pos ->
      heap !! i = Some c -> heap !! parent i = Some p ->
      entry_lt c p = false)
  /\ (forall i c g,
         (0 < pos)%nat -> (0 < i)%nat -> parent i = pos ->
         heap !! i = Some c -> heap !! parent pos = Some g ->
         entry_lt c g = false).

(** No child of the hole is smaller than [newitem]. *)
Definition fits (heap : list (pyfloat * Z)) (pos : nat)
           (newitem : pyfloat * Z) : Prop :=
  forall i c,
    (0 < i)%nat -> parent i = pos -> heap !! i = Some c ->
    entry_lt c newitem = false.

(** The entries in the order in which [heappop] hands them out. *)
Definition pop_order (l : list (pyfloat * Z)) : Prop :=
  StronglySorted (fun a b => entry_lt b a = false) l.

(** ** Example states *)

Definition resume_example : AsynCoro :=
  {| _coros := {[ 1 := {| _id := 1; _generator := 0%nat; _state := Scheduled;
                          _value := PNone;
                          _exception := Some (socket_timeout,
                                              PExc socket_timeout "timed out");
                          _callers := []; _timeout := None |} ]};
     _cur_coro := None; _scheduled := {[ 1 ]}; _suspended := ∅;
     _timeouts := []; _coro_id := 2; _cmd_wsock := [] |}.

Definition running_example : AsynCoro :=
  {| _coros := {[ 1 := {| _id := 1; _generator := 0%nat; _state := Running;
                          _value := PNone; _exception := None;
                          _callers := []; _timeout := None |} ]};
     _cur_coro := Some 1; _scheduled := {[ 1 ]}; _suspended := ∅;
     _timeouts := []; _coro_id := 2; _cmd_wsock := [] |}.

Definition suspended_example : AsynCoro :=
  {| _coros := {[ 1 := {| _id := 1; _generator := 0%nat; _state := Suspended;
                          _value := PNone; _exception := None;
                          _callers := []; _timeout := Some (Finite 5000) |} ]};
     _cur_coro := None; _scheduled := ∅; _suspended := {[ 1 ]};
     _timeouts := [(Finite 5000, 1)]; _coro_id := 2; _cmd_wsock := [] |}.

(** Two coroutines, 1 and 2, have been created; in its step coroutine 1
    calls [suspend(float('nan'))], then in its step coroutine 2 calls
    [suspend(0.3)], the clock at 100 microseconds. *)
Definition nan_example : thread :=
  run_coro {| foreign := []; calls := [CallSuspend 100 2 (PInt 300000)];
              response := Yields PNone |} 2
    (run_coro {| foreign := []; calls := [CallSuspend 100 1 PNaN];
                 response := Yields PNone |} 1
       {| sched := (_add 0 (_add 0 AsynCoro_init).2).2; retval := None;
          died := None |}).

(** A store with one operating-system socket (descriptor 7) at 0. *)
Definition socket_store : store :=
  {| objects := {[ 0%nat := {| class_of := socket_class; dict_ref := 0%nat |} ]};
     dicts := {[ 0%nat := {[ "fileno" := PInt 7 ]} ]};
     registered := [] |}.

(** The same store after [AsynCoroSocket(sock)] on that socket. *)
Definition wrapped_store : store :=
  (AsynCoroSocket_new 0 false PNone PNone socket_store).2.

(** ** Further blocking transfers *)

(** [for data in msgs: sock.sendall(data)] *)
Fixpoint sendall_each (fuel : nat) (msgs : list bytes) : io Z :=
  match msgs with
  | [] => ret 0
  | data :: msgs' => _ ← sync_sendall fuel data; sendall_each fuel msgs'
  end.

(** ** Further properties of scheduler states *)

(** Between two steps no coroutine is running. *)
Definition quiescent (s : AsynCoro) : Prop :=
  _cur_coro s = None
  /\ forall cid coro, _coros s !! cid = Some coro -> _state coro <> Running.

(** A running coroutine is the scheduler's current one. *)
Definition running_is_current (s : AsynCoro) : Prop :=
  forall cid coro,
    _coros s !! cid = Some coro -> _state coro = Running ->
    _cur_coro s = Some cid.

(** A coroutine that the scheduler will not step again: it sits in
    state [Scheduled] with generator [g], but outside the ready set. *)
Definition stranded (cid : Z) (g : nat) (s : AsynCoro) : Prop :=
  cid ∉ _scheduled s
  /\ exists coro, _coros s !! cid = Some coro
                  /\ _state coro = Scheduled /\ _generator coro = g.

(** An operation that starts nothing: it leaves the current coroutine
    alone, and whatever is running after it was running before. *)
Definition starts_nothing (f : AsynCoro -> AsynCoro) : Prop :=
  forall s,
    _cur_coro (f s) = _cur_coro s
    /\ forall cid coro',
         _coros (f s) !! cid = Some coro' -> _state coro' = Running ->
         exists coro, _coros s !! cid = Some coro /\ _state coro = Running.

(** While a step is under way, only the stepped coroutine can be
    running, and it is the current one. *)
Definition stepping (cid : Z) (s : AsynCoro) : Prop :=
  _cur_coro s = Some cid
  /\ forall c coro, _coros s !! c = Some coro -> _state coro = Running -> c = cid.

(** ** [CoroLock], and [acquire] and [release] of [CoroCondition] *)

Module Lock.

Record CoroLock := { _owner : option Z }.

(** [CoroLock.__init__] *)
Definition init : CoroLock := {| _owner := None |}.

Definition acquire (self : CoroLock) (s : AsynCoro) : outcome unit * CoroLock :=
  let owner := _cur_coro s in
  match _owner self with
  | None => (Return (), {| _owner := owner |})
  | Some _ => (Raise (assert_failure owner (_owner self)) "lock owned", self)
  end.

Definition release (self : CoroLock) (s : AsynCoro) : outcome unit * CoroLock :=
  let owner := _cur_coro s in
  if decide (_owner self = owner /\ owner <> None)
  then (Return (), {| _owner := None |})
  else (Raise (assert_failure owner (_owner self)) "invalid lock release", self).

End Lock.

Definition CoroCondition_acquire (cv : CoroCondition) (s : AsynCoro)
  : outcome unit * CoroCondition :=
  let owner := _cur_coro s in
  match _owner cv with
  | None =>
      (Return (), {| _waitlist := _waitlist cv; _owner := owner;
                     _notify := _notify cv |})
  | Some _ =>
      (Raise (assert_failure owner (_owner cv)) "condition variable owned", cv)
  end.

Definition CoroCondition_release (cv : CoroCondition) (s : AsynCoro)
  : outcome unit * CoroCondition :=
  let owner := _cur_coro s in
  if decide (_owner cv = owner /\ owner <> None)
  then (Return (), {| _waitlist := _waitlist cv; _owner := None;
                      _notify := _notify cv |})
  else (Raise (assert_failure owner (_owner cv))
              "invalid condition variable release", cv).

(** The end of a step in which the generator yielded [None], and the
    beginning of the next coroutine's step. *)
Definition yield_None (cid : Z) (s : AsynCoro) : AsynCoro :=
  (step_returned cid (Some PNone) s).1.

Definition switch_to (cid : Z) (s : AsynCoro) : AsynCoro :=
  match begin_step cid s with
  | Some (_, s') => s'
  | None => s
  end.

(** ** The other asynchronous transfers: [async_recv], [async_send],
    [async_sendall]

    The same wrapper as for [async_recvall], with the tasks of these
    three operations; [_result] is here the [buffer] over what
    [async_sendall] has still to send. *)

Module Aio.

Inductive task :=
| Task_recv (bufsize : Z)
| Task_send (data : bytes)
| Task_sendall.

Record AsynCoroSocket := {
  _rsock : rsock;
  _certfile : bool;
  _result : option bytes;
  _task : option task;
  _coro : option Z;
  _interest : Z
}.

(** [EPOLLOUT] *)
Definition _Writable : Z := 4.

(** [self._notifier.modify(self, 0)], [self._task = self._result = None],
    [coro, self._coro = self._coro, None] *)
Definition finished (rs : rsock) (sock : AsynCoroSocket) : AsynCoroSocket :=
  {| _rsock := rs; _certfile := _certfile sock; _result := None;
     _task := None; _coro := None; _interest := 0 |}.

(** The tail of every asynchronous operation: [self._task = task],
    [self._coro = self._asyncoro.cur_coro()], [self._coro.suspend()],
    [self._notifier.modify(self, event)]. *)
Definition arm (t : task) (result : option bytes) (event : Z)
           (sock : AsynCoroSocket) (s : AsynCoro)
  : outcome (option bytes) * AsynCoroSocket * AsynCoro :=
  match _cur_coro s with
  | Some c =>
      (Return None,
       {| _rsock := _rsock sock; _certfile := _certfile sock;
          _result := result; _task := Some t; _coro := Some c;
          _interest := event |},
       (Coro_suspend 0 c PNone s).2)
  | None =>
      (Raise AttributeError "suspend",
       {| _rsock := _rsock sock; _certfile := _certfile sock;
          _result := result; _task := Some t; _coro := None;
          _interest := _interest sock |}, s)
  end.

(** The inner function [_recv(self, bufsize)] *)
Definition _recv (bufsize : Z) (sock : AsynCoroSocket) (s : AsynCoro)
  : AsynCoroSocket * AsynCoro :=
  match recv bufsize (_rsock sock) with
  | (Return buf, rs) =>
      (finished rs sock, resume_coro (_coro sock) (PStr buf) s)
  | (Raise kind msg, rs) =>
      (finished rs sock, throw_coro (_coro sock) kind (PExc kind msg) s)
  | (OutOfFuel, rs) => (sock, s)
  end.

(** The inner function [_send(self, data)] *)
Definition _send (data : bytes) (sock : AsynCoroSocket) (s : AsynCoro)
  : AsynCoroSocket * AsynCoro :=
  match send data (_rsock sock) with
  | (Return sent, rs) =>
      (finished rs sock, resume_coro (_coro sock) (PInt sent) s)
  | (Raise kind msg, rs) =>
      (finished rs sock, throw_coro (_coro sock) kind (PExc kind msg) s)
  | (OutOfFuel, rs) => (sock, s)
  end.

(** The inner function [_sendall(self)]; sending [None] is a type error,
    which [UserError 0] stands for. *)
Definition _sendall (sock : AsynCoroSocket) (s : AsynCoro)
  : AsynCoroSocket * AsynCoro :=
  match _result sock with
  | None =>
      (finished (_rsock sock) sock,
       throw_coro (_coro sock) (UserError 0) (PExc (UserError 0) "send") s)
  | Some data =>
      match send data (_rsock sock) with
      | (Return sent, rs) =>
          if sent >? 0 then
            let rest := drop (Z.to_nat sent) data in
            if len rest =? 0
            then (finished rs sock, resume_coro (_coro sock) (PInt 0) s)
            else ({| _rsock := rs; _certfile := _certfile sock;
                     _result := Some rest; _task := _task sock;
                     _coro := _coro sock; _interest := _interest sock |}, s)
          else ({| _rsock := rs; _certfile := _certfile sock;
                   _result := _result sock; _task := _task sock;
                   _coro := _coro sock; _interest := _interest sock |}, s)
      | (Raise kind msg, rs) =>
          (finished rs sock, throw_coro (_coro sock) kind (PExc kind msg) s)
      | (OutOfFuel, rs) => (sock, s)
      end
  end.

(** [async_recv(bufsize)] *)
Definition async_recv (bufsize : Z) (sock : AsynCoroSocket) (s : AsynCoro)
  : outcome (option bytes) * AsynCoroSocket * AsynCoro :=
  if _certfile sock then
    match recv bufsize (_rsock sock) with
    | (Return [], rs) =>
        arm (Task_recv bufsize) (_result sock) _Readable
            {| _rsock := rs; _certfile := _certfile sock;
               _result := _result sock; _task := _task sock;
               _coro := _coro sock; _interest := _interest sock |} s
    | (Return buf, rs) =>
        (Return (Some buf),
         {| _rsock := rs; _certfile := _certfile sock;
            _result := _result sock; _task := _task sock;
            _coro := _coro sock; _interest := _interest sock |}, s)
    | (Raise kind msg, rs) => (Raise kind msg, sock, s)
    | (OutOfFuel, rs) => (OutOfFuel, sock, s)
    end
  else arm (Task_recv bufsize) (_result sock) _Readable sock s.

(** [async_send(data)] *)
Definition async_send (data : bytes) (sock : AsynCoroSocket) (s : AsynCoro)
  : outcome (option bytes) * AsynCoroSocket * AsynCoro :=
  arm (Task_send data) (_result sock) _Writable sock s.

(** [async_sendall(data)] *)
Definition async_sendall (data : bytes) (sock : AsynCoroSocket) (s : AsynCoro)
  : outcome (option bytes) * AsynCoroSocket * AsynCoro :=
  arm Task_sendall (Some data) _Writable sock s.

(** The notifier finds the socket ready: [fd._task()] if a task is set. *)
Definition ready (sock : AsynCoroSocket) (s : AsynCoro)
  : AsynCoroSocket * AsynCoro :=
  match _task sock with
  | None => (sock, s)
  | Some (Task_recv bufsize) => _recv bufsize sock s
  | Some (Task_send data) => _send data sock s
  | Some Task_sendall => _sendall sock s
  end.

(** Events keep coming for as long as a task is armed. *)
Fixpoint poll (events : nat) (sock : AsynCoroSocket) (s : AsynCoro)
  : AsynCoroSocket * AsynCoro :=
  match events with
  | O => (sock, s)
  | S events' =>
      match _task sock with
      | None => (sock, s)
      | Some _ => let '(sock, s) := ready sock s in poll events' sock s
      end
  end.

End Aio.
(** ** The notifier's socket timeouts ([_AsyncPoller])

    [_timeouts] holds the deadlines in ascending order and
    [_timeout_fds], index by index, the socket each one belongs to.  A
    socket object is named here by an integer (its identity); [sockets]
    holds what [_add_timeout], [_del_timeout] and [poll] read and write
    of each: [_timeout], [_timeout_id] and [_coro].  Times are in
    microseconds. *)

Module Notifier.

Record timer := {
  _timeout : option Z;
  _timeout_id : option Z;
  _coro : option Z
}.

Record AsyncPoller := {
  sockets : gmap Z timer;
  _timeouts : list Z;
  _timeout_fds : list Z
}.

(** [if x:] for [x] a number or [None] *)
Definition truthy (x : option Z) : bool :=
  match x with
  | Some x => negb (x =? 0)
  | None => false
  end.

(** [bisect.bisect_left(a, x)], by its result on a sorted list: the
    first index whose element is not below [x]. *)
Fixpoint bisect_left (a : list Z) (x : Z) : nat :=
  match a with
  | [] => O
  | y :: a' => if y <? x then S (bisect_left a' x) else O
  end.

(** [l.insert(i, x)] *)
Definition list_insert {A} (i : nat) (x : A) (l : list A) : list A :=
  take i l ++ x :: drop i l.

Definition set_timeout_id (fd : Z) (sk : timer) (id : option Z)
           (m : gmap Z timer) : gmap Z timer :=
  <[fd := {| _timeout := _timeout sk; _timeout_id := id;
             _coro := _coro sk |}]> m.

(** [_add_timeout(fd)], the clock reading [now] *)
Definition _add_timeout (fd : Z) (now : Z) (N : AsyncPoller) : AsyncPoller :=
  match sockets N !! fd with
  | None => N
  | Some sk =>
      if truthy (_timeout sk) then
        let timeout := now + default 0 (_timeout sk) in
        let i := bisect_left (_timeouts N) timeout in
        {| sockets := set_timeout_id fd sk (Some timeout) (sockets N);
           _timeouts := list_insert i timeout (_timeouts N);
           _timeout_fds := list_insert i fd (_timeout_fds N) |}
      else
        {| sockets := set_timeout_id fd sk None (sockets N);
           _timeouts := _timeouts N;
           _timeout_fds := _timeout_fds N |}
  end.

(** The [for i in xrange(i, len(self._timeouts))] of [_del_timeout]:
    [Some (Some i)] where the socket is found, [Some None] where the loop
    gives up or runs out, [None] for an [IndexError]. *)
Fixpoint del_scan (count : nat) (i : nat) (fd id : Z) (ts fs : list Z)
  : option (option nat) :=
  match count with
  | O => Some None
  | S count' =>
      match fs !! i with
      | None => None
      | Some f =>
          if decide (f = fd) then Some (Some i)
          else
            match ts !! i with
            | None => None
            | Some t =>
                if decide (id <> t) then Some None
                else del_scan count' (S i) fd id ts fs
            end
      end
  end.

(** [_del_timeout(fd)]; [None] for an [IndexError] *)
Definition _del_timeout (fd : Z) (N : AsyncPoller) : option AsyncPoller :=
  match sockets N !! fd with
  | None => Some N
  | Some sk =>
      if truthy (_timeout_id sk) then
        let id := default 0 (_timeout_id sk) in
        let i := bisect_left (_timeouts N) id in
        match del_scan (length (_timeouts N) - i) i fd id
                       (_timeouts N) (_timeout_fds N) with
        | None => None
        | Some None => Some N
        | Some (Some j) =>
            Some {| sockets := set_timeout_id fd sk None (sockets N);
                    _timeouts := delete j (_timeouts N);
                    _timeout_fds := delete j (_timeout_fds N) |}
        end
      else Some N
  end.

(** [fd._timed_out()] *)
Definition _timed_out (sk : timer) (s : AsynCoro) : AsynCoro :=
  throw_coro (_coro sk) socket_timeout (PExc socket_timeout "timed out") s.

(** The loop at the end of [poll]:
    [while self._timeouts and self._timeouts[0] <= now]; [None] for an
    [IndexError]. *)
Fixpoint expire (now : Z) (ts fs : list Z) (socks : gmap Z timer)
         (s : AsynCoro) : option (AsyncPoller * AsynCoro) :=
  match ts with
  | [] => Some ({| sockets := socks; _timeouts := []; _timeout_fds := fs |}, s)
  | t :: ts' =>
      if t <=? now then
        match fs with
        | [] => None
        | f :: fs' =>
            match socks !! f with
            | Some sk =>
                if decide (_timeout_id sk = Some t)
                then expire now ts' fs' (set_timeout_id f sk None socks)
                            (_timed_out sk s)
                else expire now ts' fs' socks s
            | None => expire now ts' fs' socks s
            end
        end
      else Some ({| sockets := socks; _timeouts := ts; _timeout_fds := fs |}, s)
  end.

(** The time [poll(timeout)] hands to the poller; [None] is [_Block]. *)
Definition poll_timeout (timeout : option Z) (now : Z) (N : AsyncPoller)
  : option Z :=
  if decide (timeout = Some 0) then Some 0
  else
    let own :=
      match _timeouts N with
      | t :: _ => if t - now <? 1000 then Some 0 else Some (t - now)
      | [] => None
      end in
    match timeout, own with
    | None, _ => own
    | Some _, None => timeout
    | Some t, Some o => Some (Z.min t o)
    end.

(** [poll(timeout)] when the poller reports no event: the poller returns
    at [now']. *)
Definition poll (timeout : option Z) (now now' : Z) (N : AsyncPoller)
           (s : AsynCoro) : option (AsyncPoller * AsynCoro) :=
  if decide (poll_timeout timeout now N = Some 0)
  then expire now' (_timeouts N) (_timeout_fds N) (sockets N) s
  else Some (N, s).

(** The two lists go index by index, the deadlines ascend, and a socket's
    [_timeout_id] is found in the lists at the socket. *)
Definition aligned (N : AsyncPoller) : Prop :=
  length (_timeouts N) = length (_timeout_fds N).

Definition live (N : AsyncPoller) : Prop :=
  forall fd sk id,
    sockets N !! fd = Some sk -> _timeout_id sk = Some id ->
    exists i, _timeouts N !! i = Some id /\ _timeout_fds N !! i = Some fd.

Definition timers_ok (N : AsyncPoller) : Prop :=
  aligned N /\ StronglySorted Z.le (_timeouts N) /\ live N.

(** What [poll]'s loop leaves of a [_timeout_id] at time [now]. *)
Definition unexpired (now : Z) (id : option Z) : option Z :=
  match id with
  | Some t => if t <=? now then None else Some t
  | None => None
  end.

(** Coroutine [c] is there and not running; [socket.timeout] is pending
    in the ready coroutine [c]. *)
Definition waiting (c : Z) (s : AsynCoro) : Prop :=
  exists coro, _coros s !! c = Some coro /\ _state coro <> Running.

Definition timed_out_in (c : Z) (s : AsynCoro) : Prop :=
  exists coro,
    _coros s !! c = Some coro
    /\ _state coro = Scheduled
    /\ _exception coro
       = Some (socket_timeout, PExc socket_timeout "timed out").

(** Where the element at [j] is found after an insertion at [i]. *)
Definition shifted (i j : nat) : nat := if decide (j < i)%nat then j else S j.

End Notifier.
(** ** [async_recv_msg] and [async_send_msg]

    Both are generators, run by the scheduler as the current generator
    of a coroutine.  A generator object is modelled by the place where it
    stands: not started, at one of its [yield]s, or finished; [send] and
    [throw] take it to the next [yield] or to its end.  [self.recvall]
    and [self.sendall] are the asynchronous operations. *)

Module Msg.

(** What the scheduler does to the generator: [send(coro._value)], or
    [throw] of the pending exception ([close()] throws [GeneratorExit]). *)
Inductive gen_input :=
| Send (v : pyval)
| Throw (kind : exc_kind) (payload : pyval).

(** The value a generator is resumed with must be a string where it
    takes its [len]; [UserError 0] stands for the [TypeError] otherwise,
    and for that of a [send] of a value to a generator not yet started. *)
Definition type_error : gen_response :=
  Raises (UserError 0) (PExc (UserError 0) "TypeError").

(** *** [async_recv_msg] *)

Inductive recv_pc :=
| RecvNotStarted
| RecvHeader                       (* data = yield self.recvall(n) *)
| RecvShortHeader (data : bytes)   (* yield None *)
| RecvPayload (n : Z)              (* data = yield self.recvall(n) *)
| RecvShortPayload (data : bytes)  (* yield None *)
| RecvData                         (* yield data *)
| RecvFinished.

(** [yield self.recvall(n)]: the call is made, and what it returns is
    yielded. *)
Definition yield_recvall (n : Z) (next : recv_pc) (sock : AsynCoroSocket)
           (s : AsynCoro)
  : gen_response * recv_pc * AsynCoroSocket * AsynCoro :=
  match async_recvall n sock s with
  | (Return None, sock, s) => (Yields PNone, next, sock, s)
  | (Return (Some buf), sock, s) => (Yields (PStr buf), next, sock, s)
  | (Raise kind msg, sock, s) =>
      (Raises kind (PExc kind msg), RecvFinished, sock, s)
  | (OutOfFuel, sock, s) =>
      (Raises RuntimeError (PExc RuntimeError "out of fuel"), RecvFinished,
       sock, s)
  end.

(** From [n = struct.unpack('>L', data)[0]] to the second [yield]. *)
Definition after_header (data : bytes) (sock : AsynCoroSocket) (s : AsynCoro)
  : gen_response * recv_pc * AsynCoroSocket * AsynCoro :=
  match struct_unpack_L data with
  | Return n =>
      if n >? 0 then yield_recvall n (RecvPayload n) sock s
      else (Raises AssertionError (PExc AssertionError ""), RecvFinished,
            sock, s)
  | Raise kind msg => (Raises kind (PExc kind msg), RecvFinished, sock, s)
  | OutOfFuel =>
      (Raises RuntimeError (PExc RuntimeError "out of fuel"), RecvFinished,
       sock, s)
  end.

Definition recv_resume (p : recv_pc) (input : gen_input)
           (sock : AsynCoroSocket) (s : AsynCoro)
  : gen_response * recv_pc * AsynCoroSocket * AsynCoro :=
  match input with
  | Throw kind payload => (Raises kind payload, RecvFinished, sock, s)
  | Send v =>
      match p with
      | RecvNotStarted =>
          match v with
          | PNone => yield_recvall struct_calcsize_L RecvHeader sock s
          | _ => (type_error, RecvNotStarted, sock, s)
          end
      | RecvHeader =>
          match v with
          | PStr data =>
              if len data <? struct_calcsize_L
              then (Yields PNone, RecvShortHeader data, sock, s)
              else after_header data sock s
          | _ => (type_error, RecvFinished, sock, s)
          end
      | RecvShortHeader data => after_header data sock s
      | RecvPayload n =>
          match v with
          | PStr data =>
              if len data <? n
              then (Yields PNone, RecvShortPayload data, sock, s)
              else (Yields (PStr data), RecvData, sock, s)
          | _ => (type_error, RecvFinished, sock, s)
          end
      | RecvShortPayload data => (Yields (PStr data), RecvData, sock, s)
      | RecvData => (Raises StopIteration PNone, RecvFinished, sock, s)
      | RecvFinished => (Raises StopIteration PNone, RecvFinished, sock, s)
      end
  end.

(** *** [async_send_msg] *)

Inductive send_pc :=
| SendNotStarted
| SendSent                         (* yield self.sendall(...) *)
| SendFinished.

Definition send_resume (data : bytes) (p : send_pc) (input : gen_input)
           (sock : Aio.AsynCoroSocket) (s : AsynCoro)
  : gen_response * send_pc * Aio.AsynCoroSocket * AsynCoro :=
  match input with
  | Throw kind payload => (Raises kind payload, SendFinished, sock, s)
  | Send v =>
      match p with
      | SendNotStarted =>
          match v with
          | PNone =>
              match struct_pack_L (len data) with
              | Return header =>
                  match Aio.async_sendall (header ++ data) sock s with
                  | (Return None, sock, s) => (Yields PNone, SendSent, sock, s)
                  | (Return (Some buf), sock, s) =>
                      (Yields (PStr buf), SendSent, sock, s)
                  | (Raise kind msg, sock, s) =>
                      (Raises kind (PExc kind msg), SendFinished, sock, s)
                  | (OutOfFuel, sock, s) =>
                      (Raises RuntimeError (PExc RuntimeError "out of fuel"),
                       SendFinished, sock, s)
                  end
              | Raise kind msg =>
                  (Raises kind (PExc kind msg), SendFinished, sock, s)
              | OutOfFuel =>
                  (Raises RuntimeError (PExc RuntimeError "out of fuel"),
                   SendFinished, sock, s)
              end
          | _ => (type_error, SendNotStarted, sock, s)
          end
      | SendSent => (Raises StopIteration PNone, SendFinished, sock, s)
      | SendFinished => (Raises StopIteration PNone, SendFinished, sock, s)
      end
  end.

(** *** One step of the coroutine [cid] whose current generator is one of
    these *)

(** What [_schedule] hands to the generator. *)
Definition input_of (pending : option (exc_kind * pyval)) (cid : Z)
           (s : AsynCoro) : gen_input :=
  match pending with
  | Some (kind, payload) => Throw kind payload
  | None =>
      Send (match _coros s !! cid with
            | Some coro => _value coro
            | None => PNone
            end)
  end.

(** The [except:] and [else:] clauses, on the generator's answer. *)
Definition end_step (cid : Z) (pending : option (exc_kind * pyval))
           (r : gen_response) (s : AsynCoro) (rv : option pyval) : thread :=
  match try_block pending r with
  | Excepted kind payload =>
      {| sched := step_raised cid kind payload s; retval := rv;
         died := None |}
  | Completed new_retval =>
      let retval := match new_retval with
                    | Some v => Some v
                    | None => rv
                    end in
      let '(s, crash) := step_returned cid retval s in
      {| sched := s; retval := retval; died := crash |}
  end.

Definition step_recv_msg (cid : Z)
           (st : recv_pc * AsynCoroSocket * thread)
  : recv_pc * AsynCoroSocket * thread :=
  let '(p, sock, th) := st in
  match died th with
  | Some _ => st
  | None =>
      match begin_step cid (sched th) with
      | None => st
      | Some (pending, s) =>
          let '(r, p, sock, s) :=
            recv_resume p (input_of pending cid s) sock s in
          (p, sock, end_step cid pending r s (retval th))
      end
  end.

Definition step_send_msg (data : bytes) (cid : Z)
           (st : send_pc * Aio.AsynCoroSocket * thread)
  : send_pc * Aio.AsynCoroSocket * thread :=
  let '(p, sock, th) := st in
  match died th with
  | Some _ => st
  | None =>
      match begin_step cid (sched th) with
      | None => st
      | Some (pending, s) =>
          let '(r, p, sock, s) :=
            send_resume data p (input_of pending cid s) sock s in
          (p, sock, end_step cid pending r s (retval th))
      end
  end.

(** The notifier's events for the socket, between two steps. *)
Definition with_sched (s : AsynCoro) (th : thread) : thread :=
  {| sched := s; retval := retval th; died := died th |}.

Definition events_recv (events : nat)
           (st : recv_pc * AsynCoroSocket * thread)
  : recv_pc * AsynCoroSocket * thread :=
  let '(p, sock, th) := st in
  let '(sock, s) := poll_readable events sock (sched th) in
  (p, sock, with_sched s th).

Definition events_send (events : nat)
           (st : send_pc * Aio.AsynCoroSocket * thread)
  : send_pc * Aio.AsynCoroSocket * thread :=
  let '(p, sock, th) := st in
  let '(sock, s) := Aio.poll events sock (sched th) in
  (p, sock, with_sched s th).

(** The coroutine [cid] is in state [st] inside generator [g], with
    [callers] as its stack of calling generators; [value] is what will be
    sent to the generator and [exception] what will be thrown. *)
Definition frame (cid : Z) (st : coro_state) (g : nat)
           (callers : list (nat * pyval)) (value : pyval)
           (exception : option (exc_kind * pyval)) (s : AsynCoro) : Prop :=
  exists coro,
    _coros s !! cid = Some coro
    /\ _state coro = st
    /\ _generator coro = g
    /\ _callers coro = callers
    /\ _value coro = value
    /\ _exception coro = exception.

End Msg.
(** ** [_SelectNotifier]: the poller over [select.select]

    Descriptors are integers; [rlist], [wlist] and [xlist] are what
    [select.select] returns.  The event masks are those that
    [_AsyncPoller.__init__] sets when this poller is chosen. *)

Module Select.

Definition _Readable : Z := 1.
Definition _Writable : Z := 2.
Definition _Error : Z := 4.

Record SelectNotifier := {
  rset : gset Z;
  wset : gset Z;
  xset : gset Z
}.

Definition init : SelectNotifier := {| rset := ∅; wset := ∅; xset := ∅ |}.

Definition register (fid event : Z) (N : SelectNotifier) : SelectNotifier :=
  if decide (event = 0) then N
  else if decide (event = _Readable)
  then {| rset := rset N ∪ {[fid]}; wset := wset N; xset := xset N |}
  else if decide (event = _Writable)
  then {| rset := rset N; wset := wset N ∪ {[fid]}; xset := xset N |}
  else if decide (Z.land event _Error = 0) then N
  else {| rset := rset N; wset := wset N; xset := xset N ∪ {[fid]} |}.

Definition unregister (fid : Z) (N : SelectNotifier) : SelectNotifier :=
  {| rset := rset N ∖ {[fid]}; wset := wset N ∖ {[fid]};
     xset := xset N ∖ {[fid]} |}.

Definition modify (fid event : Z) (N : SelectNotifier) : SelectNotifier :=
  register fid event (unregister fid N).

(** [for fid in l: events[fid] = event] *)
Definition mark (event : Z) (l : list Z) (events : gmap Z Z) : gmap Z Z :=
  foldl (fun events fid => <[fid := event]> events) events l.

(** [poll], on what [select.select] returned *)
Definition poll (rlist wlist xlist : list Z) : gmap Z Z :=
  mark _Error xlist (mark _Writable wlist (mark _Readable rlist ∅)).

Definition terminate (N : SelectNotifier) : SelectNotifier := init.

(** No descriptor is in two of the sets. *)
Definition exclusive (N : SelectNotifier) : Prop :=
  rset N ## wset N /\ rset N ## xset N /\ wset N ## xset N.

End Select.

(** ** Further example states *)

Definition ready_example : AsynCoro :=
  {| _coros := {[ 1 := {| _id := 1; _generator := 0%nat; _state := Scheduled;
                          _value := PNone; _exception := None;
                          _callers := []; _timeout := None |} ]};
     _cur_coro := None; _scheduled := {[ 1 ]}; _suspended := ∅;
     _timeouts := []; _coro_id := 2; _cmd_wsock := [] |}.

(** A ready coroutine inside a sub-generator call: generator 5 was
    called from generator 0. *)
Definition calling_example : AsynCoro :=
  {| _coros := {[ 1 := {| _id := 1; _generator := 5%nat; _state := Scheduled;
                          _value := PNone; _exception := None;
                          _callers := [(0%nat, PGenerator 5)];
                          _timeout := None |} ]};
     _cur_coro := None; _scheduled := {[ 1 ]}; _suspended := ∅;
     _timeouts := []; _coro_id := 2; _cmd_wsock := [] |}.

(** One socket (7), waited on by coroutine 1, with a timeout of 5 ms that
    was armed at 4 ms. *)
Definition timers_example : Notifier.AsyncPoller :=
  {| Notifier.sockets :=
       {[ 7 := {| Notifier._timeout := Some 5000;
                  Notifier._timeout_id := Some 9000;
                  Notifier._coro := Some 1 |} ]};
     Notifier._timeouts := [9000];
     Notifier._timeout_fds := [7] |}.

(** The same socket before its timeout is armed. *)
Definition idle_timers_example : Notifier.AsyncPoller :=
  {| Notifier.sockets :=
       {[ 7 := {| Notifier._timeout := Some 5000;
                  Notifier._timeout_id := None;
                  Notifier._coro := Some 1 |} ]};
     Notifier._timeouts := [];
     Notifier._timeout_fds := [] |}.

(** * Facts about the embedding *)

(** ** Framing: [struct], [recvall], [sendall], [send_msg], [recv_msg] *)

Lemma len_nonneg (s : bytes) : 0 <= len s.
Proof. unfold len. lia. Qed.

Lemma len_app (s t : bytes) : len (s ++ t) = len s + len t.
Proof. unfold len. rewrite length_app. lia. Qed.

Lemma len_nil_iff (s : bytes) : len s = 0 <-> s = [].
Proof. unfold len. destruct s; simpl; split; intros; (done || lia). Qed.

Lemma Z_of_byte_range (b : byte) : 0 <= Z_of_byte b < 256.
Proof. unfold Z_of_byte. pose proof (Byte.to_N_bounded b). lia. Qed.

Lemma Z_of_byte_of_Z (z : Z) : 0 <= z < 256 -> Z_of_byte (byte_of_Z z) = z.
Proof.
  intros Hz. unfold Z_of_byte, byte_of_Z.
  destruct (Byte.of_N (Z.to_N z)) as [b|] eqn:E.
  - apply Byte.to_of_N in E. rewrite E. lia.
  - pose proof (Byte.to_of_N_option_map (Z.to_N z)) as H.
    rewrite E in H. simpl in H.
    destruct (N.leb_spec (Z.to_N z) 255); [discriminate | lia].
Qed.

Lemma struct_unpack_pack (n : Z) :
  0 <= n < 2 ^ 32 ->
  exists hdr, struct_pack_L n = Return hdr /\ length hdr = 4%nat
              /\ struct_unpack_L hdr = Return n.
Proof.
  intros Hn. unfold struct_pack_L.
  assert ((0 <=? n) && (n <? 2 ^ 32) = true) as ->
    by (apply andb_true_iff; split; [apply Z.leb_le | apply Z.ltb_lt]; lia).
  eexists; split; [reflexivity|]. split; [reflexivity|].
  unfold struct_unpack_L.
  assert (0 <= n / 2 ^ 24 < 256)
    by (split; [apply Z.div_pos; lia | apply Z.div_lt_upper_bound; lia]).
  rewrite !Z_of_byte_of_Z by (try apply Z.mod_pos_bound; lia).
  f_equal.
  change (2 ^ 24) with (2 ^ 16 * 256); change (2 ^ 16) with (2 ^ 8 * 256);
    change (2 ^ 8) with 256.
  rewrite <- !Z.div_div by lia.
  pose proof (Z.div_mod n 256).
  pose proof (Z.div_mod (n / 256) 256).
  pose proof (Z.div_mod (n / 256 / 256) 256).
  lia.
Qed.

Definition nonempty (c : bytes) : Prop := c <> [].

(** The receive loop on a peer that delivers at least [n] more bytes. *)
Lemma sync_recvall_loop_enough (segs : list bytes) :
  forall (n : Z) (acc : list bytes) (fuel : nat) (t : bytes) (w : list nat),
    Forall nonempty segs ->
    0 <= n <= len (concat segs) ->
    (length segs < fuel)%nat ->
    exists chunks rest,
      sync_recvall_loop fuel n acc {| rx := segs; tx := t; accepts := w |}
      = (Return (acc ++ chunks), {| rx := rest; tx := t; accepts := w |})
      /\ Forall nonempty chunks
      /\ concat chunks = take (Z.to_nat n) (concat segs)
      /\ concat rest = drop (Z.to_nat n) (concat segs)
      /\ Forall nonempty rest
      /\ (length rest <= length segs)%nat.
Proof.
  induction segs as [|seg segs IH]; intros n acc fuel t w Hne Hn Hfuel.
  - simpl in Hn. cbn in Hn. assert (n = 0) as -> by (unfold len in Hn; simpl in Hn; lia).
    exists [], []. destruct fuel; simpl; rewrite app_nil_r; auto 10.
  - apply Forall_cons in Hne as [Hseg Hne].
    destruct (Z.eqb_spec n 0) as [->|Hn0].
    { exists [], (seg :: segs). destruct fuel; simpl; rewrite app_nil_r.
      all: repeat split; auto; constructor; auto. }
    destruct fuel as [|fuel]; [simpl in Hfuel; lia|].
    cbn [sync_recvall_loop]. destruct (Z.eqb_spec n 0) as [|_]; [done|].
    destruct seg as [|b seg]; [done|].
    unfold mbind, io_bind, bind, recv. cbn [rx tx accepts].
    destruct (Z.ltb_spec n 0) as [|_]; [lia|].
    rewrite concat_cons, len_app in Hn.
    destruct (Z.leb_spec (len (b :: seg)) n) as [Hle|Hgt].
    + destruct (IH (n - len (b :: seg)) (acc ++ [b :: seg]) fuel t w)
        as (chunks & rest & E & Hc & Hcat & Hrest & Hr & Hl);
        [done | lia | simpl in Hfuel; lia |].
      exists ((b :: seg) :: chunks), rest. rewrite E.
      rewrite <- app_assoc. split; [done|].
      split; [constructor; done|].
      assert (Z.to_nat n = (length (b :: seg) + Z.to_nat (n - len (b :: seg)))%nat)
        as -> by (unfold len in *; lia).
      rewrite !concat_cons, take_app_add, drop_app_add.
      rewrite Hcat. repeat split; auto. simpl. lia.
    + set (k := Z.to_nat n).
      assert (Hk : (0 < k < length (b :: seg))%nat) by (unfold len in *; lia).
      destruct (take k (b :: seg)) as [|c cs] eqn:Etake.
      { apply (f_equal length) in Etake. rewrite length_take in Etake.
        simpl in Etake, Hk. lia. }
      assert (Hlen : n - len (c :: cs) = 0).
      { rewrite <- Etake. unfold len. rewrite length_take. lia. }
      rewrite Hlen.
      exists [c :: cs], (drop k (b :: seg) :: segs).
      assert (Hcat : concat [c :: cs] = take k (concat ((b :: seg) :: segs))).
      { rewrite !concat_cons, take_app_le by lia.
        rewrite Etake. simpl. by rewrite app_nil_r. }
      assert (Hrest : concat (drop k (b :: seg) :: segs)
                      = drop k (concat ((b :: seg) :: segs))).
      { by rewrite !concat_cons, drop_app_le by lia. }
      assert (Hnz : nonempty (drop k (b :: seg))).
      { intros E0. apply (f_equal length) in E0. rewrite length_drop in E0.
        simpl in E0, Hk. lia. }
      assert (sync_recvall_loop fuel 0 (acc ++ [c :: cs])
                {| rx := drop k (b :: seg) :: segs; tx := t; accepts := w |}
              = (Return (acc ++ [c :: cs]),
                 {| rx := drop k (b :: seg) :: segs; tx := t; accepts := w |}))
        as -> by (destruct fuel; reflexivity).
      repeat split; auto. constructor; [done | constructor].
Qed.

(** The receive loop on a peer that closes before [n] bytes: the empty
    chunk makes it raise. *)
Lemma sync_recvall_loop_short (segs : list bytes) :
  forall (n : Z) (acc : list bytes) (fuel : nat) (t : bytes) (w : list nat),
    Forall nonempty segs ->
    len (concat segs) < n ->
    (length segs < fuel)%nat ->
    sync_recvall_loop fuel n acc {| rx := segs; tx := t; accepts := w |}
    = (Raise socket_error "recv error", {| rx := []; tx := t; accepts := w |}).
Proof.
  induction segs as [|seg segs IH]; intros n acc fuel t w Hne Hn Hfuel.
  - change (len (concat [])) with 0 in Hn.
    destruct fuel as [|fuel]; [simpl in Hfuel; lia|].
    cbn [sync_recvall_loop]. destruct (Z.eqb_spec n 0) as [|_]; [lia|].
    unfold mbind, io_bind, bind, recv. cbn [rx tx accepts].
    destruct (Z.ltb_spec n 0) as [|_]; [lia|]. done.
  - apply Forall_cons in Hne as [Hseg Hne].
    rewrite concat_cons, len_app in Hn.
    pose proof (len_nonneg (concat segs)). pose proof (len_nonneg seg).
    destruct fuel as [|fuel]; [simpl in Hfuel; lia|].
    cbn [sync_recvall_loop]. destruct (Z.eqb_spec n 0) as [|_]; [lia|].
    destruct seg as [|b seg]; [done|].
    unfold mbind, io_bind, bind, recv. cbn [rx tx accepts].
    destruct (Z.ltb_spec n 0) as [|_]; [lia|].
    destruct (Z.leb_spec (len (b :: seg)) n) as [_|]; [|lia].
    apply IH; [done | lia | simpl in Hfuel; lia].
Qed.

Lemma sync_recvall_enough (segs : list bytes) (n : Z) (fuel : nat)
      (t : bytes) (w : list nat) :
  Forall nonempty segs ->
  0 <= n <= len (concat segs) ->
  (length segs < fuel)%nat ->
  exists rest,
    sync_recvall fuel n {| rx := segs; tx := t; accepts := w |}
    = (Return (take (Z.to_nat n) (concat segs)),
       {| rx := rest; tx := t; accepts := w |})
    /\ concat rest = drop (Z.to_nat n) (concat segs)
    /\ Forall nonempty rest
    /\ (length rest <= length segs)%nat.
Proof.
  intros Hne Hn Hfuel.
  destruct (sync_recvall_loop_enough segs n [] fuel t w Hne Hn Hfuel)
    as (chunks & rest & E & _ & Hcat & Hrest & Hr & Hl).
  exists rest. unfold sync_recvall, mbind, io_bind, bind.
  rewrite E. simpl. unfold ret. rewrite Hcat. auto.
Qed.

Lemma sync_recvall_short (segs : list bytes) (n : Z) (fuel : nat)
      (t : bytes) (w : list nat) :
  Forall nonempty segs ->
  len (concat segs) < n ->
  (length segs < fuel)%nat ->
  sync_recvall fuel n {| rx := segs; tx := t; accepts := w |}
  = (Raise socket_error "recv error", {| rx := []; tx := t; accepts := w |}).
Proof.
  intros Hne Hn Hfuel. unfold sync_recvall, mbind, io_bind, bind.
  by rewrite sync_recvall_loop_short.
Qed.

(** [sync_sendall] pushes every byte, however the kernel cuts the writes. *)
Lemma sync_sendall_loop_all (w : list nat) :
  forall (data : bytes) (fuel : nat) (r : list bytes) (t : bytes),
    (length w < fuel)%nat ->
    exists w',
      sync_sendall_loop fuel data {| rx := r; tx := t; accepts := w |}
      = (Return 0, {| rx := r; tx := t ++ data; accepts := w' |}).
Proof.
  induction w as [|k w IH]; intros data fuel r t Hfuel.
  - destruct fuel as [|fuel]; [simpl in Hfuel; lia|].
    cbn [sync_sendall_loop].
    destruct (Z.gtb_spec (len data) 0) as [Hpos|Hz].
    + unfold mbind, io_bind, bind, send. cbn [rx tx accepts].
      destruct (Z.gtb_spec (len data) 0) as [_|]; [|lia].
      unfold len. rewrite Nat2Z.id, drop_all.
      exists []. by destruct fuel.
    + exists []. pose proof (len_nonneg data).
      assert (data = []) as -> by (apply len_nil_iff; lia).
      by rewrite app_nil_r.
  - destruct fuel as [|fuel]; [simpl in Hfuel; lia|].
    cbn [sync_sendall_loop].
    destruct (Z.gtb_spec (len data) 0) as [Hpos|Hz].
    + unfold mbind, io_bind, bind, send. cbn [rx tx accepts].
      destruct (Z.gtb_spec (Z.of_nat (k `min` length data)) 0) as [Hk|Hk].
      * destruct (IH (drop (Z.to_nat (Z.of_nat (k `min` length data))) data)
                     fuel r (t ++ take (k `min` length data) data))
          as [w' E]; [simpl in Hfuel; lia|].
        exists w'. rewrite E, Nat2Z.id, <- app_assoc, take_drop. done.
      * destruct (IH data fuel r (t ++ take (k `min` length data) data))
          as [w' E]; [simpl in Hfuel; lia|].
        exists w'. rewrite E.
        assert ((k `min` length data)%nat = 0%nat) as -> by lia.
        simpl. by rewrite app_nil_r.
    + exists (k :: w). pose proof (len_nonneg data).
      assert (data = []) as -> by (apply len_nil_iff; lia).
      by rewrite app_nil_r.
Qed.

(** C1. For every byte string [s] with [1 <= |s| <= 2^23]: [sync_send_msg]
    returns 0 having put on the wire exactly four header bytes, the
    big-endian unsigned encoding of [|s|], followed by [s], whatever the
    sizes of the kernel's writes; and [sync_recv_msg] reading that wire
    image, in whatever segments it arrives and whatever follows it,
    returns [s]. *)
Theorem framing_round_trip (s : bytes) :
  1 <= len s <= 2 ^ 23 ->
  exists b3 b2 b1 b0 : byte,
    Z_of_byte b3 * 2 ^ 24 + Z_of_byte b2 * 2 ^ 16
      + Z_of_byte b1 * 2 ^ 8 + Z_of_byte b0 = len s
    /\ (forall (fuel : nat) (r : list bytes) (t : bytes) (w : list nat),
          (length w < fuel)%nat ->
          exists w',
            sync_send_msg fuel s {| rx := r; tx := t; accepts := w |}
            = (Return 0,
               {| rx := r; tx := t ++ [b3; b2; b1; b0] ++ s; accepts := w' |}))
    /\ (forall (fuel : nat) (segs : list bytes) (more t : bytes) (w : list nat),
          Forall nonempty segs ->
          concat segs = [b3; b2; b1; b0] ++ s ++ more ->
          (length segs < fuel)%nat ->
          exists rest,
            sync_recv_msg fuel {| rx := segs; tx := t; accepts := w |}
            = (Return (Some s), {| rx := rest; tx := t; accepts := w |})
            /\ concat rest = more).
Proof.
  intros Hs.
  destruct (struct_unpack_pack (len s)) as (hdr & Hpack & Hlen & Hunpack);
    [lia|].
  destruct hdr as [|b3 [|b2 [|b1 [|b0 [|]]]]]; try discriminate.
  exists b3, b2, b1, b0.
  split; [unfold struct_unpack_L in Hunpack; congruence|].
  split.
  - intros fuel r t w Hfuel.
    unfold sync_send_msg, mbind, io_bind, bind, lift. rewrite Hpack.
    apply sync_sendall_loop_all, Hfuel.
  - intros fuel segs more t w Hne Hcat Hfuel.
    unfold sync_recv_msg, struct_calcsize_L.
    assert (Hlen4 : len (concat segs) = 4 + len s + len more).
    { rewrite Hcat, !len_app. unfold len. simpl. lia. }
    pose proof (len_nonneg more).
    destruct (sync_recvall_enough segs 4 fuel t w Hne) as (r1 & E1 & Hr1 & Hne1 & Hl1);
      [lia | done |].
    unfold mbind, io_bind, bind at 1. rewrite E1.
    rewrite Hcat in *. change (take (Z.to_nat 4) ([b3; b2; b1; b0] ++ s ++ more))
      with [b3; b2; b1; b0].
    change (drop (Z.to_nat 4) ([b3; b2; b1; b0] ++ s ++ more))
      with (s ++ more) in Hr1.
    change (len [b3; b2; b1; b0] <? 4) with false. cbv iota.
    unfold bind at 1, lift. rewrite Hunpack.
    destruct (Z.gtb_spec (len s) 0) as [_|]; [|lia].
    destruct (sync_recvall_enough r1 (len s) fuel t w Hne1) as (r2 & E2 & Hr2 & Hne2 & Hl2);
      [rewrite Hr1, len_app; lia | lia |].
    assert (Htake : take (Z.to_nat (len s)) (s ++ more) = s)
      by (unfold len; by rewrite Nat2Z.id, take_app_length).
    assert (Hdrop : drop (Z.to_nat (len s)) (s ++ more) = more)
      by (unfold len; by rewrite Nat2Z.id, drop_app_length).
    unfold bind. rewrite E2, Hr1, Htake.
    destruct (Z.ltb_spec (len s) (len s)) as [|_]; [lia|].
    exists r2. split; [done|]. by rewrite Hr2, Hr1.
Qed.

Lemma framing_round_trip_witness :
  exists b3 b2 b1 b0 : byte,
    Z_of_byte b3 * 2 ^ 24 + Z_of_byte b2 * 2 ^ 16
      + Z_of_byte b1 * 2 ^ 8 + Z_of_byte b0 = len [x68; x69]
    /\ (forall (fuel : nat) (r : list bytes) (t : bytes) (w : list nat),
          (length w < fuel)%nat ->
          exists w',
            sync_send_msg fuel [x68; x69] {| rx := r; tx := t; accepts := w |}
            = (Return 0,
               {| rx := r; tx := t ++ [b3; b2; b1; b0] ++ [x68; x69];
                  accepts := w' |}))
    /\ (forall (fuel : nat) (segs : list bytes) (more t : bytes) (w : list nat),
          Forall nonempty segs ->
          concat segs = [b3; b2; b1; b0] ++ [x68; x69] ++ more ->
          (length segs < fuel)%nat ->
          exists rest,
            sync_recv_msg fuel {| rx := segs; tx := t; accepts := w |}
            = (Return (Some [x68; x69]),
               {| rx := rest; tx := t; accepts := w |})
            /\ concat rest = more).
Proof. apply (framing_round_trip [x68; x69]). vm_compute. split; discriminate. Defined.

(** Whatever the peer does, a [sync_recvall] that returns has read
    exactly [n] bytes. *)
Lemma sync_recvall_loop_length (fuel : nat) :
  forall (n : Z) (acc chunks : list bytes) (sk sk' : rsock),
    sync_recvall_loop fuel n acc sk = (Return chunks, sk') ->
    len (concat chunks) = len (concat acc) + n.
Proof.
  induction fuel as [|fuel IH]; intros n acc chunks sk sk' E;
    cbn [sync_recvall_loop] in E; destruct (Z.eqb_spec n 0) as [->|Hn0].
  - inversion E; subst. lia.
  - discriminate.
  - inversion E; subst. lia.
  - unfold mbind, io_bind, bind, recv in E.
    destruct (Z.ltb_spec n 0) as [|Hn]; [discriminate|].
    destruct (rx sk) as [|[|b seg] rest]; try discriminate.
    destruct (Z.leb_spec (len (b :: seg)) n) as [Hle|Hgt].
    + apply IH in E. rewrite E, concat_app, len_app. simpl concat.
      rewrite app_nil_r. lia.
    + destruct (take (Z.to_nat n) (b :: seg)) as [|c cs] eqn:Etake;
        [discriminate|].
      apply IH in E. rewrite E, concat_app, len_app. simpl concat.
      rewrite app_nil_r. lia.
Qed.

Lemma sync_recvall_length (fuel : nat) (n : Z) (sk sk' : rsock) (data : bytes) :
  sync_recvall fuel n sk = (Return data, sk') -> len data = n.
Proof.
  unfold sync_recvall, mbind, io_bind, bind.
  destruct (sync_recvall_loop fuel n [] sk) as [[chunks| |] sk1] eqn:E;
    try discriminate.
  intros [= <- <-]. by apply sync_recvall_loop_length in E.
Qed.

(** So the two tests [len(data) < n] of [sync_recv_msg] never hold: it
    has no run that returns [None]. *)
Lemma sync_recv_msg_never_None (fuel : nat) (sk sk' : rsock) :
  sync_recv_msg fuel sk <> (Return None, sk').
Proof.
  unfold sync_recv_msg, mbind, io_bind, bind, lift.
  destruct (sync_recvall fuel struct_calcsize_L sk) as [[hdr| |] sk1] eqn:E1;
    try discriminate.
  apply sync_recvall_length in E1. rewrite E1, Z.ltb_irrefl.
  destruct (struct_unpack_L hdr) as [n| |]; try discriminate.
  destruct (n >? 0); [|discriminate].
  destruct (sync_recvall fuel n sk1) as [[body| |] sk2] eqn:E2;
    try discriminate.
  apply sync_recvall_length in E2. rewrite E2, Z.ltb_irrefl. discriminate.
Qed.

(** A peer that closes inside the header or inside the payload makes
    [sync_recv_msg] raise [socket.error]. *)
Lemma sync_recv_msg_short (fuel : nat) (segs : list bytes) (t : bytes)
      (w : list nat) :
  Forall nonempty segs ->
  (length segs < fuel)%nat ->
  (len (concat segs) < 4
   \/ exists hdr body n,
        concat segs = hdr ++ body /\ len hdr = 4
        /\ struct_unpack_L hdr = Return n /\ len body < n) ->
  sync_recv_msg fuel {| rx := segs; tx := t; accepts := w |}
  = (Raise socket_error "recv error", {| rx := []; tx := t; accepts := w |}).
Proof.
  intros Hne Hfuel [Hshort | (hdr & body & n & Hcat & Hhdr & Hun & Hbody)];
    unfold sync_recv_msg, struct_calcsize_L, mbind, io_bind.
  - unfold bind at 1. by rewrite sync_recvall_short.
  - pose proof (len_nonneg body).
    destruct (sync_recvall_enough segs 4 fuel t w Hne)
      as (r1 & E1 & Hr1 & Hne1 & Hl1); [rewrite Hcat, len_app; lia | done |].
    unfold bind at 1. rewrite E1, Hcat.
    assert (take (Z.to_nat 4) (hdr ++ body) = hdr) as ->
      by (apply take_app_length'; unfold len in Hhdr; lia).
    assert (drop (Z.to_nat 4) (hdr ++ body) = body) as Hd
      by (apply drop_app_length'; unfold len in Hhdr; lia).
    rewrite Hcat, Hd in Hr1.
    rewrite Hhdr, Z.ltb_irrefl. unfold bind at 1, lift. rewrite Hun.
    destruct (Z.gtb_spec n 0) as [_|]; [|lia].
    unfold bind. rewrite sync_recvall_short; [done | done | rewrite Hr1; lia | lia].
Qed.

(** C2 (fails on the code).  The sender puts a header announcing 100
    bytes on the wire and closes, or closes after two bytes of the
    header: in both runs [sync_recv_msg] raises [socket.error] where the
    specification wants [None] returned. *)
Theorem recv_msg_disconnect_raises :
  sync_recv_msg 2 {| rx := [[x00; x00; x00; x64]]; tx := []; accepts := [] |}
  = (Raise socket_error "recv error", {| rx := []; tx := []; accepts := [] |})
  /\ sync_recv_msg 2 {| rx := [[x00; x00]]; tx := []; accepts := [] |}
     = (Raise socket_error "recv error", {| rx := []; tx := []; accepts := [] |}).
Proof. split; reflexivity. Qed.

(** ** Floats and the sleep heap *)

Lemma float_eqb_eq (a b : pyfloat) : float_eqb a b = true -> a = b.
Proof.
  destruct a, b; simpl; try done. intros H%Z.eqb_eq. by subst.
Qed.

Lemma float_eqb_NaN (a : pyfloat) : float_eqb a NaN = false.
Proof. by destruct a. Qed.

Lemma float_eqb_Finite (x y : Z) :
  float_eqb (Finite x) (Finite y) = true <-> x = y.
Proof. simpl. apply Z.eqb_eq. Qed.

Lemma float_leb_Finite (x y : Z) :
  float_leb (Finite x) (Finite y) = true <-> x <= y.
Proof.
  unfold float_leb. simpl. rewrite orb_true_iff, Z.ltb_lt, Z.eqb_eq. lia.
Qed.

Lemma float_leb_NaN (b : pyfloat) : float_leb NaN b = false.
Proof. by destruct b. Qed.

Lemma parent_lt (pos : nat) : (0 < pos)%nat -> (parent pos < pos)%nat.
Proof.
  intros H. unfold parent. rewrite Nat.div2_div.
  pose proof (Nat.Div0.mul_div_le (pos - 1) 2). lia.
Qed.

Lemma _siftdown_length (fuel : nat) :
  forall heap newitem startpos pos,
    length (_siftdown fuel heap newitem startpos pos) = length heap.
Proof.
  induction fuel as [|fuel IH]; intros heap newitem startpos pos; simpl.
  - by rewrite length_insert.
  - destruct (decide (startpos < pos)%nat); [|by rewrite length_insert].
    destruct (heap !! parent pos) as [p|]; [|by rewrite length_insert].
    destruct (entry_lt newitem p); [|by rewrite length_insert].
    by rewrite IH, length_insert.
Qed.

(** The position is fuel enough for [_siftdown]: more of it changes
    nothing. *)
Lemma _siftdown_fuel (fuel : nat) :
  forall fuel' heap newitem pos,
    (pos <= fuel)%nat -> (pos <= fuel')%nat ->
    _siftdown fuel heap newitem 0 pos = _siftdown fuel' heap newitem 0 pos.
Proof.
  induction fuel as [|fuel IH]; intros fuel' heap newitem pos H1 H2.
  { assert (pos = 0%nat) as -> by lia. by destruct fuel'. }
  destruct fuel' as [|fuel'].
  { assert (pos = 0%nat) as -> by lia. done. }
  simpl. destruct (decide (0 < pos)%nat) as [Hpos|]; [|done].
  destruct (heap !! parent pos) as [p|]; [|done].
  destruct (entry_lt newitem p); [|done].
  pose proof (parent_lt pos Hpos). apply IH; lia.
Qed.

(** [_siftdown] moves entries, it neither drops nor adds one. *)
Lemma _siftdown_perm (fuel : nat) :
  forall heap newitem startpos pos,
    (pos < length heap)%nat ->
    _siftdown fuel heap newitem startpos pos ≡ₚ <[pos := newitem]> heap.
Proof.
  induction fuel as [|fuel IH]; intros heap newitem startpos pos Hpos; simpl;
    [done|].
  destruct (decide (startpos < pos)%nat) as [Hlt|]; [|done].
  destruct (heap !! parent pos) as [p|] eqn:Ep; [|done].
  destruct (entry_lt newitem p); [|done].
  pose proof (parent_lt pos ltac:(lia)) as Hpp.
  rewrite IH by (rewrite length_insert; lia).
  rewrite <- (list_insert_insert_eq heap pos p newitem).
  apply Permutation_insert_swap.
  - apply list_lookup_insert_eq. lia.
  - rewrite list_lookup_insert_ne by lia. done.
Qed.

Lemma heappush_perm (heap : list (pyfloat * Z)) (item : pyfloat * Z) :
  heappush heap item ≡ₚ item :: heap.
Proof.
  unfold heappush.
  rewrite _siftdown_perm by (rewrite length_app; simpl; lia).
  rewrite insert_app_r_alt by lia. rewrite Nat.sub_diag. simpl.
  symmetry. apply Permutation_cons_append.
Qed.

Lemma heappush_elem (heap : list (pyfloat * Z)) (e : pyfloat * Z) :
  e ∈ heappush heap e.
Proof. rewrite heappush_perm. by left. Qed.

Lemma heappush_length (heap : list (pyfloat * Z)) (e : pyfloat * Z) :
  length (heappush heap e) = S (length heap).
Proof. by rewrite heappush_perm. Qed.

Lemma _siftup_loop_spec (newitem : pyfloat * Z) (fuel : nat) :
  forall heap pos,
    (pos < length heap)%nat ->
    length (_siftup_loop fuel heap pos).1 = length heap
    /\ ((_siftup_loop fuel heap pos).2 < length heap)%nat
    /\ (pos <= (_siftup_loop fuel heap pos).2)%nat
    /\ <[(_siftup_loop fuel heap pos).2 := newitem]>
         (_siftup_loop fuel heap pos).1
       ≡ₚ <[pos := newitem]> heap.
Proof.
  induction fuel as [|fuel IH]; intros heap pos Hpos;
    cbn [_siftup_loop]; [cbn [fst snd]; repeat split; done || lia|].
  destruct (decide (2 * pos + 1 < length heap)%nat) as [Hc|];
    [|cbn [fst snd]; repeat split; done || lia].
  set (childpos :=
         match heap !! (2 * pos + 1)%nat, heap !! (2 * pos + 1 + 1)%nat with
         | Some l, Some r =>
             if entry_lt l r then (2 * pos + 1)%nat
             else (2 * pos + 1 + 1)%nat
         | _, _ => (2 * pos + 1)%nat
         end).
  assert (Hcp : (pos < childpos < length heap)%nat).
  { subst childpos.
    destruct (heap !! (2 * pos + 1)%nat) as [l|]; [|lia].
    destruct (heap !! (2 * pos + 1 + 1)%nat) as [r|] eqn:Er; [|lia].
    apply lookup_lt_Some in Er. destruct (entry_lt l r); lia. }
  destruct (heap !! childpos) as [c|] eqn:Ec;
    [|cbn [fst snd]; repeat split; done || lia].
  destruct (IH (<[pos := c]> heap) childpos) as (H1 & H2 & H3 & H4);
    [rewrite length_insert; lia|].
  rewrite length_insert in H1, H2.
  split; [done|]. split; [done|]. split; [lia|].
  rewrite H4.
  rewrite <- (list_insert_insert_eq heap pos c newitem).
  apply Permutation_insert_swap.
  - apply list_lookup_insert_eq. lia.
  - rewrite list_lookup_insert_ne by lia. done.
Qed.

(** The length of the heap is fuel enough for the loop of [_siftup]:
    it ends at a position without children. *)
Lemma _siftup_loop_leaf (fuel : nat) :
  forall heap pos,
    (pos < length heap)%nat -> (length heap <= fuel + pos)%nat ->
    (length heap <= 2 * (_siftup_loop fuel heap pos).2 + 1)%nat.
Proof.
  induction fuel as [|fuel IH]; intros heap pos Hpos Hfuel;
    cbn [_siftup_loop]; [lia|].
  destruct (decide (2 * pos + 1 < length heap)%nat) as [Hc|];
    [|cbn [snd]; lia].
  set (childpos :=
         match heap !! (2 * pos + 1)%nat, heap !! (2 * pos + 1 + 1)%nat with
         | Some l, Some r =>
             if entry_lt l r then (2 * pos + 1)%nat
             else (2 * pos + 1 + 1)%nat
         | _, _ => (2 * pos + 1)%nat
         end).
  assert (Hcp : (pos < childpos < length heap)%nat).
  { subst childpos.
    destruct (heap !! (2 * pos + 1)%nat) as [l|]; [|lia].
    destruct (heap !! (2 * pos + 1 + 1)%nat) as [r|] eqn:Er; [|lia].
    apply lookup_lt_Some in Er. destruct (entry_lt l r); lia. }
  destruct (lookup_lt_is_Some_2 heap childpos) as [c Ec]; [lia|].
  rewrite Ec.
  rewrite <- (length_insert heap pos c).
  apply IH; rewrite length_insert; lia.
Qed.

Lemma _siftup_perm (heap : list (pyfloat * Z)) (pos : nat) :
  _siftup heap pos ≡ₚ heap.
Proof.
  unfold _siftup. destruct (heap !! pos) as [newitem|] eqn:E; [|done].
  pose proof (lookup_lt_Some _ _ _ E) as Hpos.
  destruct (_siftup_loop_spec newitem (length heap) heap pos Hpos)
    as (H1 & H2 & H3 & H4).
  destruct (_siftup_loop (length heap) heap pos) as [heap' leaf].
  cbn [fst snd] in *.
  rewrite _siftdown_perm by (rewrite length_insert; lia).
  rewrite list_insert_insert_eq, H4. by rewrite list_insert_id.
Qed.

(** [heappop] returns the first entry of the array and keeps all the
    others. *)
Lemma heappop_cons (x : pyfloat * Z) (l : list (pyfloat * Z)) :
  exists heap', heappop (x :: l) = Some (x, heap') /\ heap' ≡ₚ l.
Proof.
  unfold heappop.
  destruct (reverse (x :: l)) as [|lastelt rest] eqn:E.
  { apply (f_equal length) in E. rewrite length_reverse in E. done. }
  apply (f_equal reverse) in E. rewrite reverse_involutive, reverse_cons in E.
  destruct (reverse rest) as [|r heap'] eqn:Er.
  - simpl in E. injection E as -> ->. by exists [].
  - simpl in E. injection E as -> ->. eexists. split; [reflexivity|].
    rewrite _siftup_perm. apply Permutation_cons_append.
Qed.

Lemma heappop_nil : heappop [] = None.
Proof. reflexivity. Qed.

(** *** The order of the entries *)

Local Ltac order_cases :=
  unfold entry_lt, float_leb, float_eqb, float_ltb in *; cbn [fst snd] in *;
  repeat match goal with
         | H : context [(?x =? ?y)] |- _ => destruct (Z.eqb_spec x y)
         | |- context [(?x =? ?y)] => destruct (Z.eqb_spec x y)
         | H : context [(?x <? ?y)] |- _ => destruct (Z.ltb_spec x y)
         | |- context [(?x <? ?y)] => destruct (Z.ltb_spec x y)
         end;
  simpl in *; try done; try lia.

Lemma entry_lt_irrefl (a : pyfloat * Z) : entry_lt a a = false.
Proof. destruct a as [[x| | |] c]; order_cases. Qed.

Lemma entry_lt_asym (a b : pyfloat * Z) :
  entry_lt a b = true -> entry_lt b a = false.
Proof. destruct a as [[x| | |] c], b as [[y| | |] d]; order_cases. Qed.

(** Without [nan] the order is transitive. *)
Lemma entry_le_trans (a b c : pyfloat * Z) :
  a.1 <> NaN -> b.1 <> NaN -> c.1 <> NaN ->
  entry_lt b a = false -> entry_lt c b = false -> entry_lt c a = false.
Proof.
  destruct a as [[x| | |] ca], b as [[y| | |] cb], c as [[z| | |] cc];
    intros Ha Hb Hc; try done; order_cases.
Qed.

Lemma entry_lt_le_trans (a b c : pyfloat * Z) :
  a.1 <> NaN -> b.1 <> NaN -> c.1 <> NaN ->
  entry_lt a b = true -> entry_lt c b = false -> entry_lt c a = false.
Proof.
  intros Ha Hb Hc Hab Hbc.
  apply (entry_le_trans a b c); auto using entry_lt_asym.
Qed.

(** An entry that is not smaller than one that is not due is not due. *)
Lemma not_due_above (now : Z) (r e : pyfloat * Z) :
  r.1 <> NaN -> e.1 <> NaN ->
  entry_lt e r = false ->
  float_leb r.1 (Finite now) = false -> float_leb e.1 (Finite now) = false.
Proof.
  destruct r as [[x| | |] cr], e as [[y| | |] ce]; intros Hr He; try done;
    order_cases.
Qed.

(** *** Positions *)

Lemma parent_child (i pos : nat) :
  (0 < i)%nat ->
  parent i = pos <-> i = (2 * pos + 1)%nat \/ i = (2 * pos + 2)%nat.
Proof.
  intros Hi. unfold parent. rewrite Nat.div2_div.
  pose proof (Nat.div_mod_eq (i - 1) 2).
  pose proof (Nat.mod_upper_bound (i - 1) 2). lia.
Qed.

(** *** The heap invariant *)

Lemma nan_free_lookup (heap : list (pyfloat * Z)) (i : nat) (e : pyfloat * Z) :
  nan_free heap -> heap !! i = Some e -> e.1 <> NaN.
Proof. intros H E. by apply (Forall_lookup_1 _ _ _ _ H E). Qed.

Lemma nan_free_insert (heap : list (pyfloat * Z)) (i : nat) (e : pyfloat * Z) :
  nan_free heap -> e.1 <> NaN -> nan_free (<[i := e]> heap).
Proof. intros H He. by apply Forall_insert. Qed.

(** The entry written into the hole does not matter. *)
Lemma hole_inv_insert (heap : list (pyfloat * Z)) (pos : nat)
      (x : pyfloat * Z) :
  hole_inv heap pos -> hole_inv (<[pos := x]> heap) pos.
Proof.
  intros [H1 H2]. split.
  - intros i c p Hi Hne Hpne Hc Hp.
    rewrite list_lookup_insert_ne in Hc, Hp by done. eauto.
  - intros i c g Hpos Hi Hpar Hc Hg.
    pose proof (parent_lt i Hi). pose proof (parent_lt pos Hpos).
    rewrite list_lookup_insert_ne in Hc, Hg by lia. eauto.
Qed.

Lemma fits_insert (heap : list (pyfloat * Z)) (pos : nat)
      (x newitem : pyfloat * Z) :
  fits heap pos newitem -> fits (<[pos := x]> heap) pos newitem.
Proof.
  intros H i c Hi Hpar Hc. pose proof (parent_lt i Hi).
  rewrite list_lookup_insert_ne in Hc by lia. eauto.
Qed.

(** Filling the hole with an entry that is not smaller than the parent
    of the hole and not greater than its children gives a heap. *)
Lemma hole_fill (heap : list (pyfloat * Z)) (pos : nat)
      (newitem : pyfloat * Z) :
  hole_inv heap pos -> fits heap pos newitem ->
  ((0 < pos)%nat -> forall p, heap !! parent pos = Some p ->
                              entry_lt newitem p = false) ->
  heap_inv (<[pos := newitem]> heap).
Proof.
  intros [H1 H2] Hfit Hpar i c p Hi Hc Hp.
  pose proof (parent_lt i Hi) as Hlt.
  destruct (decide (i = pos)) as [->|Hne].
  - rewrite list_lookup_insert_ne in Hp by lia.
    apply list_lookup_insert_Some in Hc as [(_ & <- & _) | [? _]]; [|done].
    eauto.
  - rewrite list_lookup_insert_ne in Hc by done.
    destruct (decide (parent i = pos)) as [Hpi|Hpi].
    + rewrite Hpi in Hp.
      apply list_lookup_insert_Some in Hp as [(_ & <- & _) | [? _]]; [|done].
      eauto.
    + rewrite list_lookup_insert_ne in Hp by done. eauto.
Qed.

Lemma _siftdown_inv (fuel : nat) :
  forall heap newitem pos,
    (pos <= fuel)%nat -> (pos < length heap)%nat ->
    nan_free heap -> newitem.1 <> NaN ->
    hole_inv heap pos -> fits heap pos newitem ->
    heap_inv (_siftdown fuel heap newitem 0 pos).
Proof.
  induction fuel as [|fuel IH]; intros heap newitem pos Hfuel Hlen Hnan Hnew
                                       Hhole Hfit; simpl.
  { apply hole_fill; [done | done | lia]. }
  destruct (decide (0 < pos)%nat) as [Hpos|]; [|apply hole_fill; [done..|lia]].
  pose proof (parent_lt pos Hpos) as Hpp.
  destruct (heap !! parent pos) as [p|] eqn:Ep;
    [|apply hole_fill; [done | done | intros _ p' ?; congruence]].
  destruct (entry_lt newitem p) eqn:Elt;
    [|apply hole_fill; [done | done | intros _ p' ?; congruence]].
  pose proof (nan_free_lookup _ _ _ Hnan Ep) as Hp.
  destruct Hhole as [H1 H2].
  apply IH; [lia | rewrite length_insert; lia | by apply nan_free_insert
             | done | |].
  - split.
    + intros i c q Hi Hne Hpne Hc Hq.
      pose proof (parent_lt i Hi) as Hlt.
      destruct (decide (i = pos)) as [->|Hnp]; [done|].
      rewrite list_lookup_insert_ne in Hc by done.
      destruct (decide (parent i = pos)) as [Hpi|Hpi].
      * rewrite Hpi in Hq.
        apply list_lookup_insert_Some in Hq as [(_ & <- & _) | [? _]];
          [|done].
        eauto.
      * rewrite list_lookup_insert_ne in Hq by done. eauto.
    + intros i c g Hppos Hi Hpar Hc Hg.
      pose proof (parent_lt (parent pos) Hppos) as Hlt.
      rewrite list_lookup_insert_ne in Hg by lia.
      assert (Hpg : entry_lt p g = false).
      { apply (H1 (parent pos)); [done | lia | lia | done | done]. }
      destruct (decide (i = pos)) as [->|Hnp].
      * apply list_lookup_insert_Some in Hc as [(_ & <- & _) | [? _]];
          [|done].
        done.
      * rewrite list_lookup_insert_ne in Hc by done.
        apply (entry_le_trans g p c);
          [by eapply nan_free_lookup | done | by eapply nan_free_lookup
           | done |].
        apply (H1 i); [done | done | lia | done | by rewrite Hpar].
  - intros i c Hi Hpar Hc.
    destruct (decide (i = pos)) as [->|Hnp].
    + apply list_lookup_insert_Some in Hc as [(_ & <- & _) | [? _]];
        [|done].
      by apply entry_lt_asym.
    + rewrite list_lookup_insert_ne in Hc by done.
      apply (entry_lt_le_trans newitem p c);
        [done | done | by eapply nan_free_lookup | done |].
      apply (H1 i); [done | done | lia | done | by rewrite Hpar].
Qed.

(** [heappush] keeps the invariant, when no deadline is [nan]. *)
Lemma heappush_inv (heap : list (pyfloat * Z)) (item : pyfloat * Z) :
  heap_ok heap -> item.1 <> NaN -> heap_ok (heappush heap item).
Proof.
  intros [Hinv Hnan] Hitem. split.
  - unfold heappush. apply _siftdown_inv;
      [done | rewrite length_app; simpl; lia
       | apply Forall_app; split; [done | by constructor] | done | |].
    + split.
      * intros i c p Hi Hne Hpne Hc Hp.
        pose proof (parent_lt i Hi).
        pose proof (lookup_lt_Some _ _ _ Hc) as Hlt.
        rewrite length_app in Hlt. simpl in Hlt.
        rewrite lookup_app_l in Hc, Hp by lia. eauto.
      * intros i c g _ Hi Hpar Hc _.
        pose proof (parent_lt i Hi).
        pose proof (lookup_lt_Some _ _ _ Hc) as Hlt.
        rewrite length_app in Hlt. simpl in Hlt. lia.
    + intros i c Hi Hpar Hc.
      pose proof (parent_lt i Hi).
      pose proof (lookup_lt_Some _ _ _ Hc) as Hlt.
      rewrite length_app in Hlt. simpl in Hlt. lia.
  - unfold nan_free. rewrite heappush_perm. by constructor.
Qed.

(** The loop of [_siftup] takes the hole down to a leaf; on the way the
    smaller child moves up, so the entries away from the hole stay in
    order. *)
Lemma _siftup_loop_inv (fuel : nat) :
  forall heap pos,
    (pos < length heap)%nat -> (length heap <= fuel + pos)%nat ->
    nan_free heap -> hole_inv heap pos ->
    let '(heap', leaf) := _siftup_loop fuel heap pos in
    hole_inv heap' leaf /\ nan_free heap'
    /\ (length heap' <= 2 * leaf + 1)%nat.
Proof.
  induction fuel as [|fuel IH]; intros heap pos Hpos Hfuel Hnan Hhole;
    cbn [_siftup_loop]; [lia|].
  destruct (decide (2 * pos + 1 < length heap)%nat) as [Hc|];
    [|split; [done|split; [done|lia]]].
  destruct (lookup_lt_is_Some_2 heap (2 * pos + 1)%nat Hc) as [l El].
  rewrite El.
  set (childpos :=
         match heap !! (2 * pos + 1 + 1)%nat with
         | Some r =>
             if entry_lt l r then (2 * pos + 1)%nat
             else (2 * pos + 1 + 1)%nat
         | None => (2 * pos + 1)%nat
         end).
  assert (Hcp : exists c,
             heap !! childpos = Some c
             /\ parent childpos = pos /\ (0 < childpos)%nat
             /\ forall i x, (0 < i)%nat -> parent i = pos -> i <> childpos ->
                            heap !! i = Some x -> entry_lt x c = false).
  { subst childpos.
    destruct (heap !! (2 * pos + 1 + 1)%nat) as [r|] eqn:Er.
    - destruct (entry_lt l r) eqn:Elr.
      + exists l. split; [done|].
        split; [apply parent_child; lia|]. split; [lia|].
        intros i x Hi Hpar Hne Hx. apply parent_child in Hpar; [|done].
        assert (i = (2 * pos + 1 + 1)%nat) as -> by lia.
        rewrite Er in Hx. injection Hx as <-. by apply entry_lt_asym.
      + exists r. split; [done|].
        split; [apply parent_child; lia|]. split; [lia|].
        intros i x Hi Hpar Hne Hx. apply parent_child in Hpar; [|done].
        assert (i = (2 * pos + 1)%nat) as -> by lia.
        rewrite El in Hx. by injection Hx as <-.
    - exists l. split; [done|].
      split; [apply parent_child; lia|]. split; [lia|].
      intros i x Hi Hpar Hne Hx. apply parent_child in Hpar; [|done].
      assert (i = (2 * pos + 1 + 1)%nat) as -> by lia.
      congruence. }
  destruct Hcp as (c & Ec & Hpc & Hc0 & Hsib). rewrite Ec.
  pose proof (parent_lt childpos Hc0) as Hlt.
  pose proof (lookup_lt_Some _ _ _ Ec) as Hclen.
  destruct Hhole as [H1 H2].
  apply IH; [rewrite length_insert; lia | rewrite length_insert; lia
             | apply nan_free_insert; [done | by eapply nan_free_lookup] |].
  split.
  - intros i x q Hi Hne Hpne Hx Hq.
    pose proof (parent_lt i Hi) as Hilt.
    destruct (decide (i = pos)) as [->|Hnp].
    + rewrite list_lookup_insert_ne in Hq by lia.
      apply list_lookup_insert_Some in Hx as [(_ & <- & _) | [? _]]; [|done].
      by apply (H2 childpos).
    + rewrite list_lookup_insert_ne in Hx by done.
      destruct (decide (parent i = pos)) as [Hpi|Hpi].
      * rewrite Hpi in Hq.
        apply list_lookup_insert_Some in Hq as [(_ & <- & _) | [? _]];
          [|done].
        by apply (Hsib i).
      * rewrite list_lookup_insert_ne in Hq by done. eauto.
  - intros i x g _ Hi Hpar Hx Hg.
    pose proof (parent_lt i Hi) as Hilt.
    rewrite Hpc in Hg.
    apply list_lookup_insert_Some in Hg as [(_ & <- & _) | [? _]]; [|done].
    rewrite list_lookup_insert_ne in Hx by lia.
    apply (H1 i); [done | lia | lia | done | by rewrite Hpar].
Qed.

(** The root replaced: a hole at position 0. *)
Lemma hole_inv_root (x y z : pyfloat * Z) (l : list (pyfloat * Z)) :
  heap_inv (x :: l ++ [y]) -> hole_inv (z :: l) 0.
Proof.
  intros Hinv. split; [|lia].
  intros i c p Hi _ Hpne Hc Hp.
  destruct i as [|i]; [lia|]. destruct (parent (S i)) as [|j] eqn:Ej; [done|].
  simpl in Hc, Hp. apply (Hinv (S i)); [done| |].
  - simpl. by apply lookup_app_l_Some.
  - rewrite Ej. simpl. by apply lookup_app_l_Some.
Qed.

Lemma heap_inv_nil : heap_inv [].
Proof. by intros i c p _ ?. Qed.

(** [heappop] keeps the invariant. *)
Lemma heappop_inv (heap heap' : list (pyfloat * Z)) (e : pyfloat * Z) :
  heap_ok heap -> heappop heap = Some (e, heap') -> heap_ok heap'.
Proof.
  intros [Hinv Hnan] Hpop.
  assert (Hnan' : nan_free heap').
  { destruct heap as [|x l]; [done|].
    destruct (heappop_cons x l) as (h & E & Hperm).
    rewrite Hpop in E. injection E as -> ->.
    unfold nan_free. rewrite Hperm. by eapply Forall_cons_1. }
  split; [|done]. revert Hpop. unfold heappop.
  destruct (reverse heap) as [|lastelt rest] eqn:E; [done|].
  apply (f_equal reverse) in E. rewrite reverse_involutive, reverse_cons in E.
  destruct (reverse rest) as [|r l] eqn:Er.
  { intros [= <- <-]. apply heap_inv_nil. }
  intros [= <- <-]. simpl in E. subst heap.
  assert (Hlast : lastelt.1 <> NaN).
  { eapply (nan_free_lookup _ (S (length l))); [exact Hnan|].
    simpl. by rewrite lookup_app_r, Nat.sub_diag. }
  assert (Hl : nan_free (lastelt :: l)).
  { apply Forall_cons. split; [done|].
    apply Forall_cons_1 in Hnan as [_ Hnan].
    by apply Forall_app in Hnan as [Hnan _]. }
  unfold _siftup. cbn [lookup list_lookup].
  pose proof (_siftup_loop_inv (length (lastelt :: l)) (lastelt :: l) 0
                ltac:(simpl; lia) ltac:(lia) Hl
                (hole_inv_root _ _ _ _ Hinv)) as Hloop.
  pose proof (_siftup_loop_spec lastelt (length (lastelt :: l))
                (lastelt :: l) 0 ltac:(simpl; lia)) as (H1 & H2 & H3 & _).
  destruct (_siftup_loop (length (lastelt :: l)) (lastelt :: l) 0)
    as [heap1 leaf].
  cbn [fst snd] in *. destruct Hloop as (Hhole & Hnan1 & Hleaf).
  apply _siftdown_inv;
    [lia | rewrite length_insert; lia | by apply nan_free_insert | done
     | by apply hole_inv_insert |].
  apply fits_insert. intros i c Hi Hpar Hc.
  apply parent_child in Hpar; [|done].
  apply lookup_lt_Some in Hc. lia.
Qed.

(** The first entry of a heap is its least one. *)
Lemma heap_root_min (heap : list (pyfloat * Z)) (r : pyfloat * Z) :
  heap_ok heap -> heap !! 0%nat = Some r ->
  forall i e, heap !! i = Some e -> entry_lt e r = false.
Proof.
  intros [Hinv Hnan] Hr i.
  induction (lt_wf i) as [i _ IH]. intros e He.
  destruct (decide (i = 0)%nat) as [->|Hne].
  { rewrite Hr in He. injection He as <-. apply entry_lt_irrefl. }
  pose proof (parent_lt i ltac:(lia)) as Hlt.
  destruct (lookup_lt_is_Some_2 heap (parent i)) as [p Ep].
  { apply lookup_lt_Some in He. lia. }
  apply (entry_le_trans r p e);
    [by eapply nan_free_lookup | by eapply nan_free_lookup
     | by eapply nan_free_lookup | by apply (IH (parent i)) |].
  apply (Hinv i); [lia | done | done].
Qed.

(** ** The scheduler's operations *)

(** C3. [resume] on a coroutine in state [Scheduled]: with a pending
    exception other than [GeneratorExit] it returns 0, clears the
    exception and stages [v] as the next value, touching nothing else;
    with no pending exception, or with a pending [GeneratorExit], it
    returns -1 and leaves the whole scheduler state as it was. *)
Theorem resume_scheduled (s : AsynCoro) (cid : Z) (v : pyval) (coro : Coro) :
  _coros s !! cid = Some coro ->
  _state coro = Scheduled ->
  (forall kind payload,
      _exception coro = Some (kind, payload) -> kind <> GeneratorExit ->
      exists s' coro',
        _resume cid v s = (0, s')
        /\ _coros s' !! cid = Some coro'
        /\ _exception coro' = None
        /\ _value coro' = v
        /\ _state coro' = Scheduled
        /\ _timeout coro' = _timeout coro
        /\ _generator coro' = _generator coro
        /\ _callers coro' = _callers coro
        /\ _scheduled s' = _scheduled s
        /\ _suspended s' = _suspended s
        /\ _timeouts s' = _timeouts s
        /\ (forall other, other <> cid -> _coros s' !! other = _coros s !! other))
  /\ ((_exception coro = None
       \/ exists payload, _exception coro = Some (GeneratorExit, payload)) ->
      _resume cid v s = (-1, s)).
Proof.
  intros Hlook Hst. split.
  - intros kind payload Hexc Hkind.
    unfold _resume. rewrite Hlook, Hexc.
    destruct (decide (_state coro = Scheduled)); [|done].
    destruct (decide (kind <> GeneratorExit)); [|done].
    eexists _, _. split; [reflexivity|]. simpl.
    rewrite lookup_insert_eq. repeat split; auto.
    intros other Hne. by rewrite lookup_insert_ne.
  - intros [Hnone | [payload Hexit]]; unfold _resume; rewrite Hlook.
    + rewrite Hnone. by destruct (decide (_state coro = Scheduled)).
    + rewrite Hexit. destruct (decide (_state coro = Scheduled)); [|done].
      by destruct (decide (GeneratorExit <> GeneratorExit)).
Qed.

Lemma resume_scheduled_witness :
  exists s' coro',
    _resume 1 (PStr [x6f; x6b]) resume_example = (0, s')
    /\ _coros s' !! 1 = Some coro'
    /\ _exception coro' = None
    /\ _value coro' = PStr [x6f; x6b].
Proof.
  destruct (resume_scheduled resume_example 1 (PStr [x6f; x6b])
              {| _id := 1; _generator := 0%nat; _state := Scheduled;
                 _value := PNone;
                 _exception := Some (socket_timeout,
                                     PExc socket_timeout "timed out");
                 _callers := []; _timeout := None |})
    as [H _]; [reflexivity | reflexivity |].
  destruct (H socket_timeout (PExc socket_timeout "timed out"))
    as (s' & coro' & E & Hl & He & Hv & _); [reflexivity | discriminate |].
  exists s', coro'. auto.
Defined.

(** C4, amended.  [suspend(id, timeout)] on a coroutine in state
    [Running] with [timeout] either [None] or a positive [int] or
    [float] (an infinite one included) returns 0, takes [id] out of the
    ready set and puts it into the suspended set in state [Suspended]; a
    positive [timeout] sets the deadline to [now + timeout] and pushes
    [(deadline, id)] on the heap, [None] leaves the deadline unset and
    the heap alone.  With any other [timeout] that is not [nan] (zero, a
    negative number, a [long], a value that is no number), or a
    coroutine that is missing or not [Running], it returns -1 and the
    scheduler state is unchanged. *)
Theorem suspend_spec (now : Z) (s : AsynCoro) (cid : Z) (timeout : pyval) :
  (forall coro,
      _coros s !! cid = Some coro -> _state coro = Running ->
      (timeout = PNone \/ (exists t, timeout = PInt t /\ 0 < t)
       \/ timeout = PInf) ->
      exists s' coro',
        _suspend now cid timeout s = (0, s')
        /\ _scheduled s' = _scheduled s ∖ {[cid]}
        /\ _suspended s' = _suspended s ∪ {[cid]}
        /\ _coros s' !! cid = Some coro'
        /\ _state coro' = Suspended
        /\ match timeout with
           | PInt t =>
               _timeout coro' = Some (Finite (now + t))
               /\ _timeouts s' = heappush (_timeouts s) (Finite (now + t), cid)
               /\ (Finite (now + t), cid) ∈ _timeouts s'
           | PInf =>
               _timeout coro' = Some PlusInf
               /\ _timeouts s' = heappush (_timeouts s) (PlusInf, cid)
               /\ (PlusInf, cid) ∈ _timeouts s'
           | _ => _timeout coro' = None /\ _timeouts s' = _timeouts s
           end)
  /\ (((~ (timeout = PNone \/ (exists t, timeout = PInt t /\ 0 < t)
          \/ timeout = PInf))
       /\ timeout <> PNaN)
      \/ _coros s !! cid = None
      \/ (exists coro, _coros s !! cid = Some coro /\ _state coro <> Running) ->
      _suspend now cid timeout s = (-1, s)).
Proof.
  split.
  - intros coro Hlook Hrun Hto. unfold _suspend. rewrite Hlook.
    destruct (decide (_state coro = Running)); [|done].
    destruct Hto as [-> | [(t & -> & Ht) | ->]]; simpl.
    + eexists _, _. split; [reflexivity|]. simpl. rewrite lookup_insert_eq.
      auto 10.
    + destruct (Z.leb_spec t 0) as [|_]; [lia|].
      eexists _, _. split; [reflexivity|]. simpl. rewrite lookup_insert_eq.
      repeat split; auto. apply heappush_elem.
    + eexists _, _. split; [reflexivity|]. simpl. rewrite lookup_insert_eq.
      repeat split; auto. apply heappush_elem.
  - intros [[Hbad Hnan] | [Hnone | (coro & Hlook & Hst)]]; unfold _suspend.
    + destruct timeout as [|t| | | | | | | | | |]; simpl; try done.
      * exfalso. apply Hbad. by left.
      * destruct (Z.leb_spec t 0) as [|Hpos]; [done|].
        exfalso. apply Hbad. right. left. by exists t.
      * exfalso. apply Hbad. by right; right.
    + rewrite Hnone. by destruct (invalid_timeout timeout).
    + rewrite Hlook. destruct (invalid_timeout timeout); [done|].
      by destruct (decide (_state coro = Running)).
Qed.

Lemma suspend_spec_witness :
  exists s' coro',
    _suspend 100 1 (PInt 50) running_example = (0, s')
    /\ _scheduled s' = _scheduled running_example ∖ {[1]}
    /\ _suspended s' = _suspended running_example ∪ {[1]}
    /\ _coros s' !! 1 = Some coro'
    /\ _state coro' = Suspended
    /\ _timeout coro' = Some (Finite 150)
    /\ (Finite 150, 1) ∈ _timeouts s'.
Proof.
  destruct (suspend_spec 100 running_example 1 (PInt 50)) as [H _].
  destruct (H {| _id := 1; _generator := 0%nat; _state := Running;
                 _value := PNone; _exception := None;
                 _callers := []; _timeout := None |})
    as (s' & coro' & E & H1 & H2 & H3 & H4 & H5 & _ & H6);
    [reflexivity | reflexivity
    | right; left; exists 50; split; [reflexivity | lia] |].
  exists s', coro'. auto 10.
Defined.

(** C4 as the claim states it fails on a positive [long]: the running
    coroutine 1 calls [suspend(50L)] and is turned away, the scheduler
    unchanged. *)
Lemma suspend_long_rejected :
  (exists coro, _coros running_example !! 1 = Some coro
                /\ _state coro = Running)
  /\ 0 < 50
  /\ _suspend 100 1 (PLong 50) running_example = (-1, running_example).
Proof.
  split; [|split; [lia | reflexivity]].
  eexists. split; [apply lookup_singleton_Some; split; reflexivity|].
  reflexivity.
Qed.

(** C5. [throw(id, kind, payload)] on a coroutine in state [Scheduled]
    or [Suspended] returns 0, stores [(kind, payload)] as its pending
    exception, clears its deadline and leaves it [Scheduled]; a
    [Suspended] one moves from the suspended set to the ready set, a
    [Scheduled] one stays where it is.  In any other state the call
    returns -1 and the scheduler state is unchanged. *)
Theorem throw_spec (s : AsynCoro) (cid : Z) (kind : exc_kind) (payload : pyval)
        (coro : Coro) :
  _coros s !! cid = Some coro ->
  _id coro = cid ->
  (_state coro = Scheduled \/ _state coro = Suspended ->
   exists s' coro',
     _throw cid (kind, payload) s = (0, s')
     /\ _coros s' !! cid = Some coro'
     /\ _exception coro' = Some (kind, payload)
     /\ _timeout coro' = None
     /\ _state coro' = Scheduled
     /\ _value coro' = _value coro
     /\ (_state coro = Suspended ->
         _suspended s' = _suspended s ∖ {[cid]}
         /\ _scheduled s' = _scheduled s ∪ {[cid]})
     /\ (_state coro = Scheduled ->
         _suspended s' = _suspended s /\ _scheduled s' = _scheduled s))
  /\ (~ (_state coro = Scheduled \/ _state coro = Suspended) ->
      _throw cid (kind, payload) s = (-1, s)).
Proof.
  intros Hlook Hid. split.
  - intros Hst. unfold _throw. rewrite Hlook, Hid.
    destruct (decide (_state coro = Scheduled \/ _state coro = Suspended));
      [|done].
    eexists _, _. split; [reflexivity|].
    assert (Hsets : forall s0 b, _scheduled (interrupt_notifier b s0) = _scheduled s0
                            /\ _suspended (interrupt_notifier b s0) = _suspended s0
                            /\ _coros (interrupt_notifier b s0) = _coros s0).
    { intros s0 b. unfold interrupt_notifier. by destruct (decide _). }
    destruct (Hsets (set_coro cid
           {| _id := cid; _generator := _generator coro; _state := Scheduled;
              _value := _value coro; _exception := Some (kind, payload);
              _callers := _callers coro; _timeout := None |}
           (if decide (_state coro = Suspended) then make_ready cid s else s)) "e"%byte)
      as (-> & -> & ->).
    simpl. rewrite lookup_insert_eq.
    repeat split; auto.
    all: destruct (decide (_state coro = Suspended)); try done; congruence.
  - intros Hst. unfold _throw. rewrite Hlook.
    by destruct (decide (_state coro = Scheduled \/ _state coro = Suspended)).
Qed.

Lemma throw_spec_witness :
  exists s' coro',
    _throw 1 (socket_timeout, PExc socket_timeout "timed out") suspended_example
    = (0, s')
    /\ _coros s' !! 1 = Some coro'
    /\ _exception coro' = Some (socket_timeout, PExc socket_timeout "timed out")
    /\ _timeout coro' = None
    /\ _state coro' = Scheduled
    /\ _suspended s' = _suspended suspended_example ∖ {[1]}
    /\ _scheduled s' = _scheduled suspended_example ∪ {[1]}.
Proof.
  destruct (throw_spec suspended_example 1 socket_timeout
              (PExc socket_timeout "timed out")
              {| _id := 1; _generator := 0%nat; _state := Suspended;
                 _value := PNone; _exception := None;
                 _callers := []; _timeout := Some (Finite 5000) |})
    as [H _]; [reflexivity | reflexivity |].
  destruct H as (s' & coro' & E & H1 & H2 & H3 & H4 & _ & H5 & _);
    [by right|].
  destruct H5 as [H5 H6]; [reflexivity|].
  exists s', coro'. auto 10.
Defined.

(** ** The sleep heap and the wake-up of timed suspends *)

Lemma set_timeouts_id (s : AsynCoro) : set_timeouts (_timeouts s) s = s.
Proof. by destruct s. Qed.

Lemma deadline_is_Some (d : option pyfloat) (timeout : pyfloat) :
  deadline_is d timeout = true -> d = Some timeout /\ timeout <> NaN.
Proof.
  destruct d as [d|]; [|done]. simpl. intros H.
  pose proof (float_eqb_eq _ _ H) as ->. split; [done|].
  intros ->. by rewrite float_eqb_NaN in H.
Qed.

Lemma deadline_is_Finite (t : Z) :
  deadline_is (Some (Finite t)) (Finite t) = true.
Proof. simpl. apply Z.eqb_refl. Qed.

(** [wake] does nothing for a stale entry and for a coroutine that is not
    suspended. *)
Lemma wake_stale (timeout : pyfloat) (cid : Z) (s : AsynCoro) :
  (_coros s !! cid = None
   \/ exists coro, _coros s !! cid = Some coro
                   /\ (deadline_is (_timeout coro) timeout = false
                       \/ _state coro <> Suspended)) ->
  wake timeout cid s = s.
Proof.
  intros [Hnone | (coro & Hlook & Hstale)]; unfold wake.
  - by rewrite Hnone.
  - rewrite Hlook. destruct (deadline_is (_timeout coro) timeout); [|done].
    destruct (decide (_state coro = Suspended)); [|done].
    by destruct Hstale.
Qed.

(** ... and readies a suspended coroutine whose deadline is the
    entry's. *)
Lemma wake_wakes (timeout : pyfloat) (cid : Z) (s : AsynCoro) (coro : Coro) :
  _coros s !! cid = Some coro -> _id coro = cid ->
  deadline_is (_timeout coro) timeout = true -> _state coro = Suspended ->
  wake timeout cid s
  = set_coro cid
      {| _id := _id coro; _generator := _generator coro;
         _state := Scheduled; _value := PNone;
         _exception := _exception coro;
         _callers := _callers coro; _timeout := None |}
      (make_ready cid s).
Proof.
  intros Hlook Hid Hto Hst. unfold wake. rewrite Hlook, Hto, Hid.
  by destruct (decide (_state coro = Suspended)).
Qed.

(** What every wake-up and every write of the heap keeps, the drain
    keeps. *)
Lemma wake_loop_ind (P : AsynCoro -> Prop) :
  (forall timeout cid s, P s -> P (wake timeout cid s)) ->
  (forall heap s, P s -> P (set_timeouts heap s)) ->
  forall fuel now heap s, P s -> P (wake_loop fuel now heap s).
Proof.
  intros Hwake Hset. induction fuel as [|fuel IH]; intros now heap s Hs;
    simpl; [by apply Hset|].
  destruct heap as [|[deadline c0] heap]; [by apply Hset|].
  destruct (float_leb deadline (Finite now)); [|by apply Hset].
  destruct (heappop ((deadline, c0) :: heap)) as [[[timeout cid] heap']|];
    [|by apply Hset].
  apply IH. by apply Hwake.
Qed.

Lemma wake_timed_suspends_ind (P : AsynCoro -> Prop) :
  (forall timeout cid s, P s -> P (wake timeout cid s)) ->
  (forall heap s, P s -> P (set_timeouts heap s)) ->
  forall t s, P s -> P (wake_timed_suspends t s).
Proof.
  intros Hwake Hset t s Hs. unfold wake_timed_suspends.
  destruct (_timeouts s); [done|]. by apply wake_loop_ind.
Qed.

(** The length of the heap is fuel enough: more of it changes nothing. *)
Lemma wake_loop_fuel (now : Z) (fuel : nat) :
  forall fuel' heap s,
    (length heap <= fuel)%nat -> (length heap <= fuel')%nat ->
    wake_loop fuel now heap s = wake_loop fuel' now heap s.
Proof.
  induction fuel as [|fuel IH]; intros fuel' heap s H1 H2.
  { destruct heap; [|simpl in H1; lia]. by destruct fuel'. }
  destruct fuel' as [|fuel'].
  { destruct heap; [done | simpl in H2; lia]. }
  cbn [wake_loop]. destruct heap as [|[deadline c0] l]; [done|].
  destruct (float_leb deadline (Finite now)); [|done].
  destruct (heappop_cons (deadline, c0) l) as (heap' & -> & Hperm).
  simpl in H1, H2. apply IH; rewrite Hperm; lia.
Qed.

(** The drain stops at a first entry that is not due. *)
Lemma wake_timed_suspends_not_due (t : Z) (s : AsynCoro) (deadline : pyfloat)
      (cid : Z) (rest : list (pyfloat * Z)) :
  _timeouts s = (deadline, cid) :: rest ->
  float_leb deadline (Finite (t + slack)) = false ->
  wake_timed_suspends t s = s.
Proof.
  intros Hh Hd. unfold wake_timed_suspends. rewrite Hh.
  cbn [wake_loop length]. rewrite Hd, <- Hh. apply set_timeouts_id.
Qed.

Lemma heap_ok_nil : heap_ok [].
Proof. split; [apply heap_inv_nil | constructor]. Qed.

(** On a heap without [nan] the loop pops the due entries, least first,
    and only them. *)
Lemma wake_loop_spec (now : Z) (fuel : nat) :
  forall heap s,
    heap_ok heap -> (length heap <= fuel)%nat ->
    exists due rest,
      wake_loop fuel now heap s
      = set_timeouts rest (foldl (fun s e => wake e.1 e.2 s) s due)
      /\ due ++ rest ≡ₚ heap
      /\ Forall (expired now) due
      /\ Forall (fun e => ~ expired now e) rest
      /\ pop_order due
      /\ heap_ok rest.
Proof.
  induction fuel as [|fuel IH]; intros heap s Hok Hlen.
  { destruct heap; [|simpl in Hlen; lia]. exists [], []. simpl.
    repeat split; (done || constructor). }
  cbn [wake_loop]. destruct heap as [|[d c] l].
  { exists [], []. simpl. repeat split; (done || constructor). }
  destruct (float_leb d (Finite now)) eqn:Ed.
  - destruct (heappop_cons (d, c) l) as (heap' & Epop & Hperm).
    rewrite Epop.
    pose proof (heappop_inv _ _ _ Hok Epop) as Hok'.
    destruct (IH heap' (wake d c s) Hok') as
      (due & rest & E & Hp & Hdue & Hrest & Hsorted & Hokr).
    { rewrite Hperm. simpl in Hlen. lia. }
    exists ((d, c) :: due), rest.
    split; [exact E|]. split; [simpl; by rewrite Hp, Hperm|].
    split; [by constructor|]. split; [done|]. split; [|done].
    constructor; [done|]. apply Forall_forall. intros e He.
    assert (Hin : e ∈ l).
    { rewrite <- Hperm, <- Hp. apply elem_of_app. by left. }
    apply list_elem_of_lookup in Hin as [i Hi].
    by apply (heap_root_min ((d, c) :: l) (d, c) Hok eq_refl (S i)).
  - exists [], ((d, c) :: l).
    split; [done|]. split; [done|]. split; [constructor|].
    split; [|split; [constructor | done]].
    apply Forall_forall. intros e He.
    apply list_elem_of_lookup in He as [i Hi].
    pose proof (heap_root_min _ (d, c) Hok eq_refl i e Hi) as Hle.
    destruct Hok as [_ Hnan].
    unfold expired.
    rewrite (not_due_above now (d, c) e); [done| | |done|done].
    + by apply (nan_free_lookup _ 0%nat _ Hnan).
    + by apply (nan_free_lookup _ i _ Hnan).
Qed.

Lemma wake_timed_suspends_spec (t : Z) (s : AsynCoro) :
  heap_ok (_timeouts s) ->
  exists due rest,
    wake_timed_suspends t s
    = set_timeouts rest (foldl (fun s e => wake e.1 e.2 s) s due)
    /\ due ++ rest ≡ₚ _timeouts s
    /\ Forall (expired (t + slack)) due
    /\ Forall (fun e => ~ expired (t + slack) e) rest
    /\ pop_order due
    /\ heap_ok rest.
Proof.
  intros Hok. unfold wake_timed_suspends.
  destruct (_timeouts s) as [|e heap] eqn:E.
  - exists [], []. simpl. rewrite <- E at 1. rewrite set_timeouts_id.
    repeat split; (done || constructor).
  - by apply wake_loop_spec.
Qed.



(** C7.  The claim fails on the code: a deadline that is [nan] is
    accepted by [suspend] and, once it is the first entry of the heap,
    is never due, so the drain stops at it at every time and pops no
    entry behind it, however long that one has been due.  In
    [nan_example] coroutine 1 has called [suspend(float('nan'))] and
    coroutine 2, after it, [suspend(0.3)]: coroutine 2 sleeps with
    deadline 300100 behind the [nan] entry, and no drain, at whatever
    time, changes anything. *)
Theorem nan_blocks_timer_drain :
  (forall s0,
      (exists coro, _coros s0 !! 1 = Some coro /\ _state coro = Running) ->
      (_suspend 100 1 PNaN s0).1 = 0
      /\ _timeouts (_suspend 100 1 PNaN s0).2
         = heappush (_timeouts s0) (NaN, 1))
  /\ (forall s cid rest t,
        wake_timed_suspends t (set_timeouts ((NaN, cid) :: rest) s)
        = set_timeouts ((NaN, cid) :: rest) s)
  /\ died nan_example = None
  /\ _timeouts (sched nan_example) = [(NaN, 1); (Finite 300100, 2)]
  /\ (exists coro,
        _coros (sched nan_example) !! 2 = Some coro
        /\ _state coro = Suspended
        /\ _timeout coro = Some (Finite 300100)
        /\ 2 ∈ _suspended (sched nan_example)
        /\ 2 ∉ _scheduled (sched nan_example))
  /\ forall t, wake_timed_suspends t (sched nan_example) = sched nan_example.
Proof.
  split.
  { intros s0 (coro & Hl & Hst). unfold _suspend. rewrite Hl. cbn.
    by destruct (decide (_state coro = Running)). }
  split.
  { intros s cid rest t.
    by apply (wake_timed_suspends_not_due t _ NaN cid rest). }
  assert (Hheap : _timeouts (sched nan_example)
                  = [(NaN, 1); (Finite 300100, 2)]) by (by vm_compute).
  split; [by vm_compute|]. split; [exact Hheap|]. split.
  { eexists. split; [by vm_compute|]. repeat split; by vm_compute. }
  intros t. by apply (wake_timed_suspends_not_due t _ NaN 1 _ Hheap).
Qed.

(** ** The ready and the suspended set partition the coroutine table *)

Local Ltac unfold_wf :=
  unfold well_formed, sets_partition, ids_ok, ids_bounded in *; simpl in *.

Lemma well_formed_init : well_formed AsynCoro_init.
Proof.
  unfold_wf. split; [split|split].
  - set_solver.
  - intros cid [c Hc]. by rewrite lookup_empty in Hc.
  - intros cid c Hc. by rewrite lookup_empty in Hc.
  - set_solver.
Qed.

Lemma well_formed_known (s : AsynCoro) (cid : Z) :
  well_formed s -> is_Some (_coros s !! cid) -> cid < _coro_id s.
Proof.
  intros ((_ & Hin) & _ & Hb) Hc. apply Hb.
  destruct (Hin cid Hc); set_solver.
Qed.

Lemma well_formed_interrupt (b : byte) (s : AsynCoro) :
  well_formed s -> well_formed (interrupt_notifier b s).
Proof. unfold interrupt_notifier. by destruct (decide _). Qed.

Lemma well_formed_set_timeouts (heap : list (pyfloat * Z)) (s : AsynCoro) :
  well_formed s -> well_formed (set_timeouts heap s).
Proof. done. Qed.

Lemma well_formed_set_cur_coro (c : option Z) (s : AsynCoro) :
  well_formed s -> well_formed (set_cur_coro c s).
Proof. done. Qed.

Lemma well_formed_set_coro (cid : Z) (c : Coro) (s : AsynCoro) :
  well_formed s -> is_Some (_coros s !! cid) -> _id c = cid ->
  well_formed (set_coro cid c s).
Proof.
  intros ((Hd & Hin) & Hid & Hb) Hc Hidc. unfold_wf.
  split; [split|split]; auto.
  - intros cid' Hc'. destruct (decide (cid' = cid)) as [->|Hne]; [auto|].
    rewrite lookup_insert_ne in Hc' by done. auto.
  - intros cid' c' Hc'. destruct (decide (cid' = cid)) as [->|Hne].
    + rewrite lookup_insert_eq in Hc'. congruence.
    + rewrite lookup_insert_ne in Hc' by done. eauto.
Qed.

Lemma well_formed_make_ready (cid : Z) (s : AsynCoro) :
  well_formed s -> cid < _coro_id s -> well_formed (make_ready cid s).
Proof.
  intros ((Hd & Hin) & Hid & Hb) Hlt. unfold_wf.
  split; [split|split]; auto.
  - set_solver.
  - intros cid' Hc'. destruct (decide (cid' = cid)) as [->|Hne]; [set_solver|].
    destruct (Hin cid' Hc'); set_solver.
  - intros cid' Hc'. destruct (decide (cid' = cid)) as [->|Hne]; [done|].
    apply Hb. set_solver.
Qed.

Lemma well_formed_make_suspended (cid : Z) (s : AsynCoro) :
  well_formed s -> cid < _coro_id s ->
  well_formed (set_sets (_scheduled s ∖ {[cid]}) (_suspended s ∪ {[cid]}) s).
Proof.
  intros ((Hd & Hin) & Hid & Hb) Hlt. unfold_wf.
  split; [split|split]; auto.
  - set_solver.
  - intros cid' Hc'. destruct (decide (cid' = cid)) as [->|Hne]; [set_solver|].
    destruct (Hin cid' Hc'); set_solver.
  - intros cid' Hc'. destruct (decide (cid' = cid)) as [->|Hne]; [done|].
    apply Hb. set_solver.
Qed.

Lemma well_formed_add (g : nat) (s : AsynCoro) :
  well_formed s -> well_formed (_add g s).2.
Proof.
  intros ((Hd & Hin) & Hid & Hb). unfold _add. simpl.
  apply well_formed_interrupt. unfold_wf.
  assert (Hfresh : _coro_id s ∉ _scheduled s ∪ _suspended s)
    by (intros H%Hb; lia).
  split; [split|split].
  - set_solver.
  - intros cid Hc. destruct (decide (cid = _coro_id s)) as [->|Hne]; [set_solver|].
    rewrite lookup_insert_ne in Hc by done. destruct (Hin cid Hc); set_solver.
  - intros cid c Hc. destruct (decide (cid = _coro_id s)) as [->|Hne].
    + rewrite lookup_insert_eq in Hc. by inversion Hc.
    + rewrite lookup_insert_ne in Hc by done. eauto.
  - intros cid Hc. destruct (decide (cid = _coro_id s)) as [->|Hne]; [lia|].
    assert (cid < _coro_id s) by (apply Hb; set_solver). lia.
Qed.

Lemma well_formed_suspend (now cid : Z) (timeout : pyval) (s : AsynCoro) :
  well_formed s -> well_formed (_suspend now cid timeout s).2.
Proof.
  intros Hwf. unfold _suspend.
  destruct (invalid_timeout timeout); [done|].
  destruct (_coros s !! cid) as [coro|] eqn:Hc; [|done].
  destruct (decide (_state coro = Running)); [|done].
  assert (Hid : _id coro = cid) by (by apply Hwf).
  assert (Hlt : cid < _coro_id s) by (by apply well_formed_known).
  destruct (seconds timeout); simpl.
  - apply well_formed_set_coro; [|by simpl|done].
    by apply well_formed_set_timeouts, well_formed_make_suspended.
  - apply well_formed_set_coro; [|by simpl|done].
    by apply well_formed_make_suspended.
Qed.

Lemma well_formed_resume (cid : Z) (v : pyval) (s : AsynCoro) :
  well_formed s -> well_formed (_resume cid v s).2.
Proof.
  intros Hwf. unfold _resume.
  destruct (_coros s !! cid) as [coro|] eqn:Hc; [|done].
  assert (Hid : _id coro = cid) by (by apply Hwf).
  assert (Hlt : cid < _coro_id s) by (by apply well_formed_known).
  destruct (decide (_state coro = Scheduled)).
  - destruct (_exception coro) as [[kind payload]|]; [|done].
    destruct (decide (kind <> GeneratorExit)); [|done]. simpl.
    by apply well_formed_set_coro.
  - simpl. apply well_formed_set_coro; [|by simpl|done].
    by apply well_formed_make_ready.
Qed.

Lemma well_formed_throw (cid : Z) (args : exc_kind * pyval) (s : AsynCoro) :
  well_formed s -> well_formed (_throw cid args s).2.
Proof.
  intros Hwf. unfold _throw.
  destruct (_coros s !! cid) as [coro|] eqn:Hc; [|done].
  assert (Hid : _id coro = cid) by (by apply Hwf).
  assert (Hlt : cid < _coro_id s) by (by apply well_formed_known).
  destruct (decide (_state coro = Scheduled \/ _state coro = Suspended)); [|done].
  simpl. apply well_formed_interrupt.
  destruct (decide (_state coro = Suspended)).
  - apply well_formed_set_coro; [|by rewrite Hid; simpl|done].
    rewrite Hid. by apply well_formed_make_ready.
  - by apply well_formed_set_coro.
Qed.

Lemma well_formed_terminate_coro (cid : Z) (s : AsynCoro) :
  well_formed s -> well_formed (_terminate_coro cid s).2.
Proof.
  intros Hwf. unfold _terminate_coro.
  destruct (_coros s !! cid) as [coro|] eqn:Hc; [|done].
  assert (Hid : _id coro = cid) by (by apply Hwf).
  assert (Hlt : cid < _coro_id s) by (by apply well_formed_known).
  simpl. apply well_formed_interrupt.
  destruct (decide (_state coro = Suspended)).
  - apply well_formed_set_coro; [|by simpl|done].
    by apply well_formed_make_ready.
  - by apply well_formed_set_coro.
Qed.

Lemma well_formed_run_call (c : call) (s : AsynCoro) :
  well_formed s -> well_formed (run_call c s).
Proof.
  intros Hwf.
  destruct c as [g | now cid timeout | cid v | cid kind payload | cid]; simpl.
  - by apply well_formed_add.
  - unfold Coro_suspend. destruct (_coros s !! cid); [|done].
    by apply well_formed_suspend.
  - unfold Coro_resume. destruct (_coros s !! cid); [|done].
    by apply well_formed_resume.
  - unfold Coro_throw. destruct (_coros s !! cid); [|done].
    by apply well_formed_throw.
  - unfold Coro_terminate. destruct (_coros s !! cid); [|done].
    by apply well_formed_terminate_coro.
Qed.

Lemma well_formed_run_calls (cs : list call) (s : AsynCoro) :
  well_formed s -> well_formed (run_calls cs s).
Proof.
  revert s. induction cs as [|c cs IH]; intros s Hwf; [done|].
  simpl. by apply IH, well_formed_run_call.
Qed.

Lemma well_formed_wake (timeout : pyfloat) (cid : Z) (s : AsynCoro) :
  well_formed s -> well_formed (wake timeout cid s).
Proof.
  intros Hwf. unfold wake.
  destruct (_coros s !! cid) as [coro|] eqn:Hc; [|done].
  assert (Hid : _id coro = cid) by (by apply Hwf).
  assert (Hlt : cid < _coro_id s) by (by apply well_formed_known).
  destruct (deadline_is (_timeout coro) timeout); [|done].
  destruct (decide (_state coro = Suspended)); [|done].
  apply well_formed_set_coro; [|by rewrite Hid; simpl|done].
  rewrite Hid. by apply well_formed_make_ready.
Qed.

Lemma well_formed_wake_timed_suspends (t : Z) (s : AsynCoro) :
  well_formed s -> well_formed (wake_timed_suspends t s).
Proof.
  apply wake_timed_suspends_ind.
  - intros timeout cid s0. apply well_formed_wake.
  - intros heap s0. apply well_formed_set_timeouts.
Qed.

Lemma well_formed_begin_step (cid : Z) (s s' : AsynCoro)
      (pending : option (exc_kind * pyval)) :
  well_formed s -> begin_step cid s = Some (pending, s') -> well_formed s'.
Proof.
  intros Hwf. unfold begin_step.
  destruct (_coros s !! cid) as [coro|] eqn:Hc; [|done].
  destruct (decide (_state coro = Scheduled)); [|done].
  assert (Hid : _id coro = cid) by (by apply Hwf).
  intros [= _ <-]. apply well_formed_set_cur_coro.
  by apply well_formed_set_coro.
Qed.

Lemma well_formed_step_raised (cid : Z) (kind : exc_kind) (payload : pyval)
      (s : AsynCoro) :
  well_formed s -> well_formed (step_raised cid kind payload s).
Proof.
  intros Hwf. unfold step_raised. cbn [set_cur_coro _coros].
  destruct (_coros s !! cid) as [coro|] eqn:Hc; [|done].
  assert (Hid : _id coro = cid) by (by apply Hwf).
  destruct (reverse (_callers coro)) as [|caller callers].
  - rewrite Hid. destruct (decide (cid = cid)) as [_|]; [|done].
    destruct Hwf as ((Hd & Hin) & Hids & Hb).
    assert (Hdel : forall cid', is_Some (delete cid (_coros s) !! cid') ->
                                cid' <> cid /\ is_Some (_coros s !! cid')).
    { intros cid' Hc'. destruct (decide (cid' = cid)) as [->|Hne].
      - rewrite lookup_delete_eq in Hc'. by destruct Hc'.
      - by rewrite lookup_delete_ne in Hc'. }
    assert (Hids' : forall cid' c', delete cid (_coros s) !! cid' = Some c' ->
                                    _id c' = cid').
    { intros cid' c' Hc'. destruct (decide (cid' = cid)) as [->|Hne].
      - by rewrite lookup_delete_eq in Hc'.
      - rewrite lookup_delete_ne in Hc' by done. eauto. }
    destruct (decide (_state coro = Suspended)); unfold_wf.
    all: split; [split|split]; [| |exact Hids'|].
    all: try (intros cid' [Hne Hc']%Hdel; destruct (Hin cid' Hc')).
    all: try (intros cid' Hc'; apply Hb).
    all: set_solver.
  - apply well_formed_set_coro; [|done|done].
    by apply well_formed_set_cur_coro.
Qed.

Lemma well_formed_step_returned (cid : Z) (r : option pyval) (s : AsynCoro) :
  well_formed s -> well_formed (step_returned cid r s).1.
Proof.
  intros Hwf. unfold step_returned. cbn [set_cur_coro _coros].
  destruct (_coros s !! cid) as [coro|] eqn:Hc; [|done].
  assert (Hid : _id coro = cid) by (by apply Hwf).
  apply (well_formed_set_cur_coro None) in Hwf.
  destruct r as [v|]; [destruct v|]; simpl.
  all: apply well_formed_set_coro; [done | done |].
  all: by destruct (decide (_state coro = Running)).
Qed.

Lemma well_formed_run_coro (act : activity) (cid : Z) (th : thread) :
  well_formed (sched th) -> well_formed (sched (run_coro act cid th)).
Proof.
  intros Hwf. unfold run_coro.
  destruct (died th); [done|].
  pose proof (well_formed_run_calls (foreign act) _ Hwf) as Hwf1.
  destruct (begin_step cid (run_calls (foreign act) (sched th)))
    as [[pending s1]|] eqn:Hb; [|done].
  apply well_formed_begin_step in Hb; [|done].
  pose proof (well_formed_run_calls (calls act) _ Hb) as Hwf2.
  destruct (try_block pending (response act)) as [new_retval|kind payload].
  - pose proof (well_formed_step_returned cid
                  match new_retval with Some v => Some v | None => retval th end
                  _ Hwf2) as Hwf3.
    by destruct (step_returned _ _ _).
  - simpl. by apply well_formed_step_raised.
Qed.




(** ** [CoroCondition] *)

(** C9. [wait()] by the running coroutine [c]: when [c] holds the
    condition and the flag is set, the flag is cleared, [c] stays owner,
    the result is [False] and the scheduler is not touched; when the flag
    is clear (and [c] holds the condition or nobody does), the owner is
    cleared, [c] goes to the tail of the wait list, [c] is suspended
    without a deadline and the result is [True].  [notify()] by the owner
    sets the flag; with an empty wait list nothing else happens, and
    otherwise the head of the list is removed and resumed with [None], so
    that a suspended head becomes ready with [None] as its next value. *)
Theorem condition_wait_notify (cv : CoroCondition) (s : AsynCoro) (c : Z)
        (coro : Coro) :
  _cur_coro s = Some c ->
  _coros s !! c = Some coro ->
  _state coro = Running ->
  (_owner cv = Some c -> _notify cv = true ->
   CoroCondition_wait cv s
   = (Return false,
      {| _waitlist := _waitlist cv; _owner := Some c; _notify := false |}, s))
  /\ (_owner cv = Some c \/ _owner cv = None -> _notify cv = false ->
      exists s' coro',
        CoroCondition_wait cv s
        = (Return true,
           {| _waitlist := _waitlist cv ++ [Some c]; _owner := None;
              _notify := false |}, s')
        /\ _coros s' !! c = Some coro'
        /\ _state coro' = Suspended
        /\ _timeout coro' = None
        /\ _suspended s' = _suspended s ∪ {[c]}
        /\ _scheduled s' = _scheduled s ∖ {[c]}
        /\ _timeouts s' = _timeouts s)
  /\ (_owner cv = Some c ->
      match _waitlist cv with
      | [] =>
          CoroCondition_notify cv s
          = (Return (),
             {| _waitlist := []; _owner := Some c; _notify := true |}, s)
      | wake :: waitlist =>
          forall w, wake = Some w ->
            CoroCondition_notify cv s
            = (Return (),
               {| _waitlist := waitlist; _owner := Some c; _notify := true |},
               (Coro_resume w PNone s).2)
            /\ forall wcoro,
                 _coros s !! w = Some wcoro -> _state wcoro = Suspended ->
                 exists wcoro',
                   _coros (Coro_resume w PNone s).2 !! w = Some wcoro'
                   /\ _state wcoro' = Scheduled
                   /\ _value wcoro' = PNone
                   /\ _scheduled (Coro_resume w PNone s).2 = _scheduled s ∪ {[w]}
                   /\ _suspended (Coro_resume w PNone s).2 = _suspended s ∖ {[w]}
      end).
Proof.
  intros Hcur Hlook Hrun. split; [|split].
  - intros Hown Hflag. unfold CoroCondition_wait. rewrite Hcur, Hown, Hflag.
    destruct (decide (Some c <> None /\ Some c <> Some c)) as [[_ H]|_]; done.
  - intros Hown Hflag. unfold CoroCondition_wait. rewrite Hcur, Hflag.
    destruct (decide (_owner cv <> None /\ _owner cv <> Some c)) as [[H1 H2]|_].
    { destruct Hown; done. }
    unfold Coro_suspend, _suspend. rewrite Hlook. simpl.
    destruct (decide (_state coro = Running)); [|done]. simpl.
    eexists _, _. split; [reflexivity|]. simpl. rewrite lookup_insert_eq.
    auto 10.
  - intros Hown. unfold CoroCondition_notify. rewrite Hcur, Hown.
    destruct (decide (Some c = Some c /\ Some c <> None)) as [_|H];
      [|exfalso; apply H; done].
    destruct (_waitlist cv) as [|wake waitlist]; [done|].
    intros w ->. split; [done|].
    intros wcoro Hw Hst. unfold Coro_resume, _resume. rewrite Hw.
    destruct (decide (_state wcoro = Scheduled)); [congruence|].
    simpl. rewrite lookup_insert_eq. eexists. auto 10.
Qed.

Lemma condition_wait_notify_witness :
  CoroCondition_wait {| _waitlist := []; _owner := Some 1; _notify := true |}
                     running_example
  = (Return false,
     {| _waitlist := []; _owner := Some 1; _notify := false |}, running_example).
Proof.
  destruct (condition_wait_notify
              {| _waitlist := []; _owner := Some 1; _notify := true |}
              running_example 1
              {| _id := 1; _generator := 0%nat; _state := Running;
                 _value := PNone; _exception := None;
                 _callers := []; _timeout := None |})
    as (H & _); [reflexivity | reflexivity | reflexivity |].
  apply H; reflexivity.
Defined.

(** ** [recvall], blocking and asynchronous *)

Lemma recv_whole (b : byte) (seg : bytes) (rest : list bytes) (n : Z)
      (t : bytes) (w : list nat) :
  len (b :: seg) <= n ->
  recv n {| rx := (b :: seg) :: rest; tx := t; accepts := w |}
  = (Return (b :: seg), {| rx := rest; tx := t; accepts := w |}).
Proof.
  intros Hle. unfold recv. cbn [rx tx accepts].
  pose proof (len_nonneg (b :: seg)).
  destruct (Z.ltb_spec n 0) as [|_]; [lia|].
  by destruct (Z.leb_spec (len (b :: seg)) n) as [_|]; [|lia].
Qed.

Lemma recv_part (b : byte) (seg : bytes) (rest : list bytes) (n : Z)
      (t : bytes) (w : list nat) :
  0 < n < len (b :: seg) ->
  exists c cs,
    take (Z.to_nat n) (b :: seg) = c :: cs
    /\ len (c :: cs) = n
    /\ recv n {| rx := (b :: seg) :: rest; tx := t; accepts := w |}
       = (Return (c :: cs),
          {| rx := drop (Z.to_nat n) (b :: seg) :: rest; tx := t;
             accepts := w |}).
Proof.
  intros Hn. unfold recv. cbn [rx tx accepts].
  destruct (Z.ltb_spec n 0) as [|_]; [lia|].
  destruct (Z.leb_spec (len (b :: seg)) n) as [|_]; [lia|].
  destruct (take (Z.to_nat n) (b :: seg)) as [|c cs] eqn:E.
  - apply (f_equal length) in E. rewrite length_take in E.
    unfold len in Hn. simpl in E, Hn. lia.
  - exists c, cs. split; [done|]. split; [|done].
    rewrite <- E. unfold len in *. rewrite length_take. lia.
Qed.

Lemma recv_closed (n : Z) (t : bytes) (w : list nat) :
  0 <= n ->
  recv n {| rx := []; tx := t; accepts := w |}
  = (Return [], {| rx := []; tx := t; accepts := w |}).
Proof. intros Hn. unfold recv. by destruct (Z.ltb_spec n 0) as [|_]; [lia|]. Qed.

(** The task on a peer that delivers at least [pending] more bytes: one
    readable event per chunk, then the coroutine is resumed with all of
    it. *)
Lemma poll_readable_enough (segs : list bytes) :
  forall (pending : Z) (acc : list bytes) (events : nat) (t : bytes)
         (w : list nat) (cf : bool) (i c : Z) (s : AsynCoro),
    Forall nonempty segs ->
    0 < pending <= len (concat segs) ->
    (length segs <= events)%nat ->
    exists rest,
      poll_readable events
        {| _rsock := {| rx := segs; tx := t; accepts := w |}; _certfile := cf;
           _result := Some acc; _task := Some (Task_recvall pending);
           _coro := Some c; _interest := i |} s
      = ({| _rsock := {| rx := rest; tx := t; accepts := w |}; _certfile := cf;
            _result := None; _task := None; _coro := None; _interest := 0 |},
         (Coro_resume c
            (PStr (concat acc ++ take (Z.to_nat pending) (concat segs))) s).2)
      /\ concat rest = drop (Z.to_nat pending) (concat segs).
Proof.
  induction segs as [|seg segs IH];
    intros pending acc events t w cf i c s Hne Hp Hev.
  { change (len (concat [])) with 0 in Hp. lia. }
  apply Forall_cons in Hne as [Hseg Hne].
  destruct seg as [|b seg]; [done|].
  destruct events as [|events]; [simpl in Hev; lia|].
  rewrite concat_cons, len_app in Hp.
  cbn [poll_readable _task readable]. unfold _recvall. cbn [_rsock _result _coro].
  destruct (Z.le_gt_cases (len (b :: seg)) pending) as [Hle|Hgt].
  - rewrite recv_whole by done.
    destruct (Z.eqb_spec (pending - len (b :: seg)) 0) as [Hz|Hnz].
    + exists segs. unfold finished. cbn [_certfile].
      assert (Z.to_nat pending = length (b :: seg)) as ->
        by (unfold len in *; lia).
      rewrite concat_cons, take_app_length, drop_app_length.
      rewrite concat_app. simpl concat at 2. rewrite app_nil_r.
      unfold resume_coro. by destruct events.
    + destruct (IH (pending - len (b :: seg)) (acc ++ [b :: seg]) events
                   t w cf i c s) as (rest & E & Hrest);
        [done | lia | simpl in Hev; lia |].
      exists rest. cbn [_certfile _interest]. rewrite E.
      assert (Z.to_nat pending
              = (length (b :: seg) + Z.to_nat (pending - len (b :: seg)))%nat)
        as -> by (unfold len in *; lia).
      rewrite concat_cons, take_app_add, drop_app_add.
      rewrite concat_app. simpl concat at 2. rewrite app_nil_r, <- app_assoc.
      done.
  - destruct (recv_part b seg segs pending t w) as (c0 & cs & Etake & Hlen & ->);
      [lia|].
    rewrite Hlen, Z.sub_diag. cbn [Z.eqb].
    exists (drop (Z.to_nat pending) (b :: seg) :: segs).
    unfold finished, resume_coro. cbn [_certfile].
    rewrite !concat_cons, take_app_le, drop_app_le by (unfold len in *; lia).
    rewrite concat_app, Etake. simpl concat at 2. rewrite app_nil_r.
    by destruct events.
Qed.

(** The task on a peer that closes before [pending] bytes: the empty
    chunk makes it throw [socket.error] into the coroutine. *)
Lemma poll_readable_short (segs : list bytes) :
  forall (pending : Z) (acc : list bytes) (events : nat) (t : bytes)
         (w : list nat) (cf : bool) (i c : Z) (s : AsynCoro),
    Forall nonempty segs ->
    0 <= len (concat segs) < pending ->
    (length segs < events)%nat ->
    poll_readable events
      {| _rsock := {| rx := segs; tx := t; accepts := w |}; _certfile := cf;
         _result := Some acc; _task := Some (Task_recvall pending);
         _coro := Some c; _interest := i |} s
    = ({| _rsock := {| rx := []; tx := t; accepts := w |}; _certfile := cf;
          _result := None; _task := None; _coro := None; _interest := 0 |},
       (Coro_throw c socket_error (PExc socket_error "recv error") s).2).
Proof.
  induction segs as [|seg segs IH];
    intros pending acc events t w cf i c s Hne Hp Hev.
  - destruct events as [|events]; [simpl in Hev; lia|].
    cbn [poll_readable _task readable]. unfold _recvall. cbn [_rsock].
    rewrite recv_closed by lia. unfold finished, throw_coro. cbn [_certfile _coro].
    by destruct events.
  - apply Forall_cons in Hne as [Hseg Hne].
    destruct seg as [|b seg]; [done|].
    destruct events as [|events]; [simpl in Hev; lia|].
    rewrite concat_cons, len_app in Hp.
    pose proof (len_nonneg (concat segs)).
    cbn [poll_readable _task readable]. unfold _recvall.
    cbn [_rsock _result _coro].
    rewrite recv_whole by lia.
    destruct (Z.eqb_spec (pending - len (b :: seg)) 0) as [|_]; [lia|].
    cbn [_certfile _interest].
    apply IH; [done | lia | simpl in Hev; lia].
Qed.

Lemma coros_interrupt_notifier (b : byte) (s : AsynCoro) :
  _coros (interrupt_notifier b s) = _coros s.
Proof. unfold interrupt_notifier. by destruct (decide _). Qed.

(** A running coroutine that has suspended itself and is then resumed
    with [v] is ready again with [v] staged. *)
Lemma suspend_then_resume (s : AsynCoro) (c : Z) (coro : Coro) (v : pyval) :
  _coros s !! c = Some coro -> _state coro = Running ->
  exists coro',
    _coros (Coro_resume c v (Coro_suspend 0 c PNone s).2).2 !! c = Some coro'
    /\ _state coro' = Scheduled
    /\ _value coro' = v
    /\ _exception coro' = _exception coro.
Proof.
  intros Hlook Hrun. unfold Coro_suspend, _suspend. rewrite Hlook. simpl.
  destruct (decide (_state coro = Running)); [|done]. simpl.
  unfold Coro_resume, _resume. simpl. rewrite lookup_insert_eq. simpl.
  rewrite lookup_insert_eq. eexists. split; [reflexivity|]. done.
Qed.

(** ... and one into which [kind, payload] is thrown is ready with that
    exception pending and its value untouched. *)
Lemma suspend_then_throw (s : AsynCoro) (c : Z) (coro : Coro)
      (kind : exc_kind) (payload : pyval) :
  _coros s !! c = Some coro -> _state coro = Running ->
  exists coro',
    _coros (Coro_throw c kind payload (Coro_suspend 0 c PNone s).2).2 !! c
    = Some coro'
    /\ _state coro' = Scheduled
    /\ _exception coro' = Some (kind, payload)
    /\ _value coro' = _value coro.
Proof.
  intros Hlook Hrun. unfold Coro_suspend, _suspend. rewrite Hlook. simpl.
  destruct (decide (_state coro = Running)); [|done]. simpl.
  unfold Coro_throw, _throw. simpl. rewrite lookup_insert_eq. simpl.
  rewrite coros_interrupt_notifier. simpl.
  rewrite lookup_insert_eq. eexists. split; [reflexivity|]. done.
Qed.

Lemma poll_readable_idle (events : nat) (sock : AsynCoroSocket) (s : AsynCoro) :
  _task sock = None -> poll_readable events sock s = (sock, s).
Proof. intros H. destruct events; simpl; [done|]. by rewrite H. Qed.

(** C6. [recvall(n)] for [n > 0] on a peer that delivers the non-empty
    chunks [segs] and then closes.

    Blocking: if the chunks hold at least [n] bytes, [sync_recvall]
    returns the join of the non-empty chunks it has read, which is the
    first [n] bytes of the stream, of length exactly [n]; if they hold
    fewer, it raises [socket.error].

    Asynchronous, called by the running coroutine [c] and followed by
    the readable events of the notifier: with at least [n] bytes, either
    the call itself returns the first [n] bytes (the first read of an SSL
    socket had them) or [c] is resumed with them; with fewer, [c] gets
    [socket.error] thrown into it and its value is not touched. *)
Theorem recvall_exact (n : Z) (segs : list bytes) (t : bytes) (w : list nat) :
  0 < n ->
  Forall nonempty segs ->
  (forall fuel, (length segs < fuel)%nat ->
     (n <= len (concat segs) ->
      exists chunks rest,
        sync_recvall_loop fuel n [] {| rx := segs; tx := t; accepts := w |}
        = (Return chunks, {| rx := rest; tx := t; accepts := w |})
        /\ Forall nonempty chunks
        /\ sync_recvall fuel n {| rx := segs; tx := t; accepts := w |}
           = (Return (concat chunks), {| rx := rest; tx := t; accepts := w |})
        /\ concat chunks = take (Z.to_nat n) (concat segs)
        /\ len (concat chunks) = n
        /\ concat chunks ++ concat rest = concat segs)
     /\ (len (concat segs) < n ->
         sync_recvall fuel n {| rx := segs; tx := t; accepts := w |}
         = (Raise socket_error "recv error",
            {| rx := []; tx := t; accepts := w |})))
  /\ (forall (s : AsynCoro) (c : Z) (coro : Coro) (sock : AsynCoroSocket)
             (events : nat),
        _cur_coro s = Some c -> _coros s !! c = Some coro ->
        _state coro = Running ->
        _rsock sock = {| rx := segs; tx := t; accepts := w |} ->
        (length segs < events)%nat ->
        exists r sock1 s1 sock2 s2,
          async_recvall n sock s = (r, sock1, s1)
          /\ poll_readable events sock1 s1 = (sock2, s2)
          /\ _task sock2 = None
          /\ (n <= len (concat segs) ->
              len (take (Z.to_nat n) (concat segs)) = n
              /\ ((r = Return (Some (take (Z.to_nat n) (concat segs))) /\ s2 = s)
                  \/ (r = Return None
                      /\ exists coro',
                           _coros s2 !! c = Some coro'
                           /\ _state coro' = Scheduled
                           /\ _value coro' = PStr (take (Z.to_nat n) (concat segs))
                           /\ _exception coro' = _exception coro)))
          /\ (len (concat segs) < n ->
              r = Return None
              /\ exists coro',
                   _coros s2 !! c = Some coro'
                   /\ _state coro' = Scheduled
                   /\ _exception coro'
                      = Some (socket_error, PExc socket_error "recv error")
                   /\ _value coro' = _value coro)).
Proof.
  intros Hn Hne. split.
  - intros fuel Hfuel. split.
    + intros Hlen.
      destruct (sync_recvall_loop_enough segs n [] fuel t w Hne)
        as (chunks & rest & E & Hc & Hcat & Hrest & _); [lia | done |].
      simpl in E. exists chunks, rest.
      split; [done|]. split; [done|]. split.
      { unfold sync_recvall, mbind, io_bind, bind. by rewrite E. }
      split; [done|]. split.
      * rewrite Hcat. unfold len in *. rewrite length_take. lia.
      * rewrite Hcat, Hrest. apply take_drop.
    + intros Hlen. by apply sync_recvall_short.
  - intros s c coro sock events Hcur Hlook Hrun Hsock Hev.
    assert (Htake : n <= len (concat segs) ->
                    len (take (Z.to_nat n) (concat segs)) = n)
      by (intros; unfold len in *; rewrite length_take; lia).
    pose proof (len_nonneg (concat segs)) as Hnn.
    (* the armed task, with the chunks [acc] of the first read *)
    assert (Harmed : forall (segs' : list bytes) (acc : list bytes) (pending : Z) i,
               Forall nonempty segs' -> (length segs' < events)%nat ->
               0 < pending ->
               concat acc ++ concat segs' = concat segs ->
               pending + len (concat acc) = n ->
               exists sock2 s2,
                 poll_readable events
                   {| _rsock := {| rx := segs'; tx := t; accepts := w |};
                      _certfile := _certfile sock; _result := Some acc;
                      _task := Some (Task_recvall pending);
                      _coro := Some c; _interest := i |}
                   (Coro_suspend 0 c PNone s).2 = (sock2, s2)
                 /\ _task sock2 = None
                 /\ (n <= len (concat segs) ->
                     exists coro',
                       _coros s2 !! c = Some coro'
                       /\ _state coro' = Scheduled
                       /\ _value coro' = PStr (take (Z.to_nat n) (concat segs))
                       /\ _exception coro' = _exception coro)
                 /\ (len (concat segs) < n ->
                     exists coro',
                       _coros s2 !! c = Some coro'
                       /\ _state coro' = Scheduled
                       /\ _exception coro'
                          = Some (socket_error, PExc socket_error "recv error")
                       /\ _value coro' = _value coro)).
    { intros segs' acc pending i Hne' Hev' Hp Hcat Hsum.
      pose proof (len_nonneg (concat segs')).
      assert (Hl : len (concat segs) = len (concat acc) + len (concat segs'))
        by (by rewrite <- Hcat, len_app).
      destruct (Z.le_gt_cases n (len (concat segs))) as [Hle|Hgt].
      - destruct (poll_readable_enough segs' pending acc events t w
                    (_certfile sock) i c (Coro_suspend 0 c PNone s).2)
          as (rest & E & _); [done | lia | lia |].
        eexists _, _. split; [exact E|]. split; [done|]. split; [|lia].
        intros _.
        assert (concat acc ++ take (Z.to_nat pending) (concat segs')
                = take (Z.to_nat n) (concat segs)) as ->.
        { rewrite <- Hcat.
          assert (Z.to_nat n = (length (concat acc) + Z.to_nat pending)%nat)
            as -> by (unfold len in *; lia).
          by rewrite take_app_add. }
        by apply suspend_then_resume.
      - rewrite poll_readable_short by (done || lia).
        eexists _, _. split; [reflexivity|]. split; [done|]. split; [lia|].
        intros _. by apply suspend_then_throw. }
    unfold async_recvall. rewrite Hcur, Hsock.
    destruct (_certfile sock) eqn:Hcf.
    + (* SSL: a read is attempted first *)
      destruct segs as [|seg segs'].
      * rewrite recv_closed by lia.
        change (len []) with 0. destruct (Z.eqb_spec 0 n) as [|_]; [lia|].
        destruct (Harmed [] [[]] (n - 0) _Readable)
          as (sock2 & s2 & E & Ht & H1 & H2);
          [done | done | lia | done | change (len (concat [[]])) with 0; lia |].
        eexists _, _, _, sock2, s2. split; [reflexivity|].
        split; [exact E|]. split; [done|]. split.
        -- intros Hle. change (len (concat [])) with 0 in Hle. lia.
        -- intros Hlt. split; [done|]. by apply H2.
      * apply Forall_cons in Hne as [Hseg Hne'].
        destruct seg as [|b seg]; [done|].
        destruct (Z.le_gt_cases (len (b :: seg)) n) as [Hle|Hgt].
        -- rewrite recv_whole by done.
           destruct (Z.eqb_spec (len (b :: seg)) n) as [Heq|Hneq].
           ++ eexists _, _, _, _, _. split; [reflexivity|].
              split; [by apply poll_readable_idle|]. split; [done|].
              rewrite concat_cons, len_app in *.
              pose proof (len_nonneg (concat segs')).
              split; [|lia]. intros _. split; [by apply Htake; lia|].
              left. split; [|done]. do 2 f_equal.
              symmetry. apply take_app_length'. unfold len in *. lia.
           ++ destruct (Harmed segs' [b :: seg] (n - len (b :: seg)) _Readable)
                as (sock2 & s2 & E & Ht & H1 & H2);
                [done | simpl in Hev; lia | lia
                | by rewrite concat_cons; simpl; rewrite app_nil_r
                | simpl concat; rewrite app_nil_r; lia |].
                    eexists _, _, _, sock2, s2. split; [reflexivity|].
              split; [exact E|]. split; [done|]. split.
              ** intros Hl. split; [by apply Htake|]. right.
                 split; [done|]. by apply H1.
              ** intros Hl. split; [done|]. by apply H2.
        -- destruct (recv_part b seg segs' n t w)
             as (c0 & cs & Etake & Hlen & ->); [lia|].
           rewrite Hlen, Z.eqb_refl.
           eexists _, _, _, _, _. split; [reflexivity|].
           split; [by apply poll_readable_idle|]. split; [done|].
           rewrite concat_cons, len_app in *.
           pose proof (len_nonneg (concat segs')).
           split; [|lia]. intros _. split; [by apply Htake; lia|].
           left. split; [|done]. do 2 f_equal.
           rewrite take_app_le by (unfold len in *; lia). done.
    + destruct (Harmed segs [] n _Readable)
        as (sock2 & s2 & E & Ht & H1 & H2);
        [done | done | lia | done | change (len (concat [])) with 0; lia |].
      eexists _, _, _, sock2, s2. split; [reflexivity|].
      split; [exact E|]. split; [done|]. split.
      * intros Hl. split; [by apply Htake|]. right. split; [done|]. by apply H1.
      * intros Hl. split; [done|]. by apply H2.
Qed.

Lemma recvall_exact_witness :
  exists chunks rest,
    sync_recvall_loop 3 3 []
      {| rx := [[x61; x62]; [x63; x64]]; tx := []; accepts := [] |}
    = (Return chunks, {| rx := rest; tx := []; accepts := [] |})
    /\ Forall nonempty chunks
    /\ concat chunks = [x61; x62; x63].
Proof.
  assert (H0 : 0 < 3) by lia.
  assert (H1 : Forall nonempty [[x61; x62]; [x63; x64]])
    by (repeat constructor; discriminate).
  destruct (recvall_exact 3 [[x61; x62]; [x63; x64]] [] [] H0 H1) as [Hsync _].
  destruct (Hsync 3%nat) as [Hok _]; [simpl; lia|].
  destruct Hok as (chunks & rest & E & Hc & _ & Hcat & _);
    [vm_compute; discriminate|].
  exists chunks, rest. split; [exact E|]. split; [exact Hc|]. exact Hcat.
Defined.

(** ** Wrapping a socket that is wrapped already *)

Lemma attributes_same_dict (st st' : store) (a b : nat) (oa ob : pyobject) :
  objects st !! a = Some oa -> objects st' !! b = Some ob ->
  dict_ref oa = dict_ref ob ->
  dicts st !! dict_ref oa = dicts st' !! dict_ref ob ->
  attributes st a = attributes st' b.
Proof.
  intros Ha Hb Href Hd. unfold attributes. by rewrite Ha, Hb, Hd.
Qed.

Lemma getattr_setattr (st : store) (a b : nat) (oa ob : pyobject)
      (name : string) (v : pyval) :
  objects st !! a = Some oa -> objects st !! b = Some ob ->
  dict_ref oa = dict_ref ob ->
  getattr (setattr a name v st) b name = Some v.
Proof.
  intros Ha Hb Href. unfold getattr, attributes, setattr.
  rewrite Ha. simpl. rewrite Hb, Href, lookup_insert_eq. simpl.
  by rewrite lookup_insert_eq.
Qed.

(** C10. [AsynCoroSocket(w)] for an object [w] that is an
    [AsynCoroSocket] already: the new object is distinct from [w] but
    its [__dict__] is the very dictionary of [w]; nothing is registered
    with the notifier and no attribute of any existing object changes;
    every attribute reads the same through both objects, and an
    attribute set through either is read through the other. *)
Theorem rewrap_shares_state (st : store) (w : nat) (wo : pyobject)
        (blocking : bool) (keyfile certfile : pyval) :
  objects st !! w = Some wo ->
  class_of wo = AsynCoroSocket_class ->
  exists new st' newo,
    AsynCoroSocket_new w blocking keyfile certfile st = (new, st')
    /\ new <> w
    /\ objects st !! new = None
    /\ objects st' !! new = Some newo
    /\ objects st' !! w = Some wo
    /\ dict_ref newo = dict_ref wo
    /\ registered st' = registered st
    /\ (forall obj, obj <> new -> objects st' !! obj = objects st !! obj)
    /\ (forall obj, is_Some (objects st !! obj) ->
                    attributes st' obj = attributes st obj)
    /\ attributes st' new = attributes st w
    /\ (forall name, getattr st' new name = getattr st' w name)
    /\ (forall name v,
           getattr (setattr new name v st') w name = Some v
           /\ getattr (setattr w name v st') new name = Some v).
Proof.
  intros Hw Hcls. unfold AsynCoroSocket_new.
  set (new := fresh (dom (objects st))).
  set (d := fresh (dom (dicts st))).
  assert (Hnew : objects st !! new = None)
    by (apply not_elem_of_dom, is_fresh).
  assert (Hd : dicts st !! d = None) by (apply not_elem_of_dom, is_fresh).
  assert (Hne : new <> w) by (intros ->; congruence).
  unfold __init__. cbn [objects dicts registered].
  rewrite lookup_insert_eq, lookup_insert_ne by done. rewrite Hw.
  destruct (decide (class_of wo = AsynCoroSocket_class)); [|done].
  cbn [class_of dict_ref].
  eexists new, _, _. split; [reflexivity|]. cbn [objects dicts registered].
  rewrite insert_insert_eq.
  assert (Hattr : forall obj, is_Some (objects st !! obj) ->
            attributes
              {| objects := <[new := {| class_of := AsynCoroSocket_class;
                                        dict_ref := dict_ref wo |}]> (objects st);
                 dicts := <[d := ∅]> (dicts st);
                 registered := registered st |} obj
            = attributes st obj).
  { intros obj [o Ho]. unfold attributes. cbn [objects dicts].
    rewrite lookup_insert_ne by congruence. rewrite Ho.
    destruct (decide (dict_ref o = d)) as [->|Hdne].
    - by rewrite lookup_insert_eq, Hd.
    - by rewrite lookup_insert_ne. }
  assert (Hattr_new :
            attributes
              {| objects := <[new := {| class_of := AsynCoroSocket_class;
                                        dict_ref := dict_ref wo |}]> (objects st);
                 dicts := <[d := ∅]> (dicts st);
                 registered := registered st |} new
            = attributes st w).
  { unfold attributes. cbn [objects dicts dict_ref].
    rewrite lookup_insert_eq, Hw. cbn [dict_ref].
    destruct (decide (dict_ref wo = d)) as [->|Hdne].
    - by rewrite lookup_insert_eq, Hd.
    - by rewrite lookup_insert_ne. }
  split; [done|]. split; [done|].
  split; [by rewrite lookup_insert_eq|].
  split; [by rewrite lookup_insert_ne|].
  split; [done|]. split; [done|].
  split; [by intros obj Hobj; rewrite lookup_insert_ne|].
  split; [done|]. split; [done|]. split.
  - intros name. unfold getattr. rewrite Hattr_new, Hattr by done.
    cbn [objects]. rewrite lookup_insert_eq, lookup_insert_ne by done.
    rewrite Hw. simpl. by rewrite Hcls.
  - intros name v. split.
    + eapply getattr_setattr; cbn [objects].
      * apply lookup_insert_eq.
      * rewrite lookup_insert_ne by done. exact Hw.
      * done.
    + eapply getattr_setattr; cbn [objects].
      * rewrite lookup_insert_ne by done. exact Hw.
      * apply lookup_insert_eq.
      * done.
Qed.

(** By contrast, wrapping an operating-system socket gives the wrapper a
    dictionary of its own and registers it with the notifier. *)
Lemma wrap_socket_registers :
  (AsynCoroSocket_new 0 false PNone PNone socket_store).1 = 1%nat
  /\ registered wrapped_store = [1%nat]
  /\ dict_ref <$> objects wrapped_store !! 1%nat = Some 1%nat
  /\ getattr wrapped_store 1 "_fileno" = Some (PInt 7)
  /\ getattr wrapped_store 1 "_timeout" = Some (PInt 0)
  /\ getattr wrapped_store 1 "fileno" = Some (PInt 7).
Proof. vm_compute. repeat split. Qed.

Lemma rewrap_shares_state_witness :
  exists new st',
    AsynCoroSocket_new 1 false PNone PNone wrapped_store = (new, st')
    /\ new <> 1%nat
    /\ registered st' = registered wrapped_store
    /\ (forall name, getattr st' new name = getattr st' 1%nat name)
    /\ (forall v, getattr (setattr new "_timeout" v st') 1%nat "_timeout" = Some v).
Proof.
  destruct (rewrap_shares_state wrapped_store 1
              {| class_of := AsynCoroSocket_class; dict_ref := 1%nat |}
              false PNone PNone)
    as (new & st' & newo & E & Hne & _ & _ & _ & _ & Hreg & _ & _ & _ & Hget & Hset);
    [vm_compute; reflexivity | reflexivity |].
  exists new, st'. split; [exact E|]. split; [exact Hne|]. split; [exact Hreg|].
  split; [exact Hget|]. intros v. apply Hset.
Defined.

(** ** More on the blocking transfers *)

(** One [recv]: what it returns is cut off the front of the stream, it
    is never longer than asked for, and the sending side is not touched. *)
Lemma recv_front (n : Z) (sk sk' : rsock) (buf : bytes) :
  recv n sk = (Return buf, sk') ->
  concat (rx sk) = buf ++ concat (rx sk')
  /\ len buf <= n /\ 0 <= n
  /\ tx sk' = tx sk /\ accepts sk' = accepts sk.
Proof.
  unfold recv. destruct (Z.ltb_spec n 0) as [|Hn]; [discriminate|].
  destruct (rx sk) as [|[|b seg] rest] eqn:E.
  - intros [= <- <-]. rewrite E. unfold len. simpl. auto with lia.
  - intros [= <- <-]. rewrite E. unfold len. simpl. auto with lia.
  - destruct (Z.leb_spec (len (b :: seg)) n) as [Hle|Hgt].
    + intros [= <- <-]. simpl. auto.
    + intros [= <- <-]. cbn [rx tx accepts].
      rewrite !concat_cons, app_assoc, take_drop.
      unfold len in *. rewrite length_take. repeat split; auto; lia.
Qed.

Lemma recv_raises (n : Z) (sk sk' : rsock) (e : exc_kind) (msg : string) :
  recv n sk = (Raise e msg, sk') -> e = ValueError /\ n < 0 /\ sk' = sk.
Proof.
  unfold recv. destruct (Z.ltb_spec n 0) as [|Hn].
  - by intros [= <- _ <-].
  - destruct (rx sk) as [|[|b seg] rest]; try discriminate.
    by destruct (len (b :: seg) <=? n).
Qed.

Lemma sync_recvall_loop_front (fuel : nat) :
  forall (n : Z) (acc chunks : list bytes) (sk sk' : rsock),
    sync_recvall_loop fuel n acc sk = (Return chunks, sk') ->
    concat acc ++ concat (rx sk) = concat chunks ++ concat (rx sk')
    /\ tx sk' = tx sk /\ accepts sk' = accepts sk.
Proof.
  induction fuel as [|fuel IH]; intros n acc chunks sk sk' E;
    cbn [sync_recvall_loop] in E; destruct (Z.eqb_spec n 0) as [->|Hn0].
  - by inversion E; subst.
  - discriminate.
  - by inversion E; subst.
  - unfold mbind, io_bind, bind in E.
    destruct (recv n sk) as [[buf| |] sk1] eqn:Er; try discriminate.
    apply recv_front in Er as (Hcat & _ & _ & Ht & Ha).
    destruct buf as [|b buf]; [discriminate|].
    apply IH in E as (E & Ht' & Ha').
    rewrite Hcat, <- E, concat_app. simpl concat.
    rewrite app_nil_r, <- app_assoc. split; [done|]. split; congruence.
Qed.

Lemma sync_recvall_returns (fuel : nat) (n : Z) (sk sk' : rsock) (data : bytes) :
  sync_recvall fuel n sk = (Return data, sk') ->
  len data = n
  /\ concat (rx sk) = data ++ concat (rx sk')
  /\ tx sk' = tx sk /\ accepts sk' = accepts sk.
Proof.
  intros E. split; [by eapply sync_recvall_length|].
  unfold sync_recvall, mbind, io_bind, bind in E.
  destruct (sync_recvall_loop fuel n [] sk) as [[chunks| |] sk1] eqn:El;
    try discriminate.
  injection E as <- <-. by apply sync_recvall_loop_front in El.
Qed.

Lemma sync_recvall_loop_raises (fuel : nat) :
  forall (n : Z) (acc : list bytes) (sk sk' : rsock) (e : exc_kind)
         (msg : string),
    sync_recvall_loop fuel n acc sk = (Raise e msg, sk') ->
    (e = socket_error /\ 0 < n) \/ (e = ValueError /\ n < 0).
Proof.
  induction fuel as [|fuel IH]; intros n acc sk sk' e msg El;
    cbn [sync_recvall_loop] in El; destruct (Z.eqb_spec n 0) as [->|Hn0];
    try discriminate.
  unfold mbind, io_bind, bind in El.
  destruct (recv n sk) as [[buf|e1 msg1|] sk2] eqn:Er; try discriminate.
  - apply recv_front in Er as (_ & Hle & Hn & _).
    destruct buf as [|b buf].
    + injection El as <- _ _. left. split; [done | lia].
    + apply IH in El as [[-> Hpos] | [-> Hneg]]; [left | right].
      * split; [done | lia].
      * split; [done|]. pose proof (len_nonneg (b :: buf)). lia.
  - injection El as <- _ _. apply recv_raises in Er as (-> & Hneg & _).
    by right.
Qed.

Lemma sync_recvall_raises (fuel : nat) (n : Z) (sk sk' : rsock)
      (e : exc_kind) (msg : string) :
  sync_recvall fuel n sk = (Raise e msg, sk') ->
  (e = socket_error /\ 0 < n) \/ (e = ValueError /\ n < 0).
Proof.
  unfold sync_recvall, mbind, io_bind, bind.
  destruct (sync_recvall_loop fuel n [] sk) as [[chunks|e' msg'|] sk1] eqn:El;
    try discriminate.
  intros [= <- <- <-]. by eapply sync_recvall_loop_raises.
Qed.

(** X1. Whatever the peer does and however the stream is cut, a
    [sync_recvall(n)] that returns has taken exactly the first [n] bytes
    off the stream: it returns them, leaves the rest in the socket, and
    writes nothing.  When it raises, it raises [socket.error] (the peer
    closed) or [ValueError] (a negative [n]). *)
Theorem sync_recvall_consumes (fuel : nat) (n : Z) (sk sk' : rsock)
        (r : outcome bytes) :
  sync_recvall fuel n sk = (r, sk') ->
  match r with
  | Return data =>
      len data = n
      /\ concat (rx sk) = data ++ concat (rx sk')
      /\ tx sk' = tx sk /\ accepts sk' = accepts sk
  | Raise e msg =>
      (e = socket_error /\ 0 < n) \/ (e = ValueError /\ n < 0)
  | OutOfFuel => True
  end.
Proof.
  destruct r as [data|e msg|]; intros E.
  - by apply sync_recvall_returns in E.
  - by apply sync_recvall_raises in E.
  - done.
Qed.

Lemma sync_recvall_consumes_witness :
  len [x61; x62; x63] = 3
  /\ concat [[x61; x62]; [x63; x64]] = [x61; x62; x63] ++ concat [[x64]]
  /\ [] = @nil byte /\ @nil nat = [].
Proof.
  apply (sync_recvall_consumes 2 3
           {| rx := [[x61; x62]; [x63; x64]]; tx := []; accepts := [] |}
           {| rx := [[x64]]; tx := []; accepts := [] |}
           (Return [x61; x62; x63])).
  reflexivity.
Defined.

Lemma struct_unpack_L_length (data : bytes) (n : Z) :
  struct_unpack_L data = Return n -> length data = 4%nat /\ 0 <= n < 2 ^ 32.
Proof.
  destruct data as [|b3 [|b2 [|b1 [|b0 [|]]]]]; try discriminate.
  intros [= <-]. split; [done|].
  pose proof (Z_of_byte_range b3). pose proof (Z_of_byte_range b2).
  pose proof (Z_of_byte_range b1). pose proof (Z_of_byte_range b0). lia.
Qed.

Lemma struct_unpack_L_total (data : bytes) :
  length data = 4%nat -> exists n, struct_unpack_L data = Return n.
Proof.
  destruct data as [|b3 [|b2 [|b1 [|b0 [|]]]]]; try discriminate.
  intros _. by eexists.
Qed.

(** X2. Whatever the peer does, [sync_recv_msg] never returns [None]
    and raises nothing but [socket.error] and [AssertionError]; when it
    returns [data], the stream began with four bytes that decode to the
    length of [data], which is positive, followed by [data], and exactly
    those bytes have been taken off the stream. *)
Theorem sync_recv_msg_sound (fuel : nat) (sk sk' : rsock)
        (r : outcome (option bytes)) :
  sync_recv_msg fuel sk = (r, sk') ->
  match r with
  | Return (Some data) =>
      exists hdr,
        length hdr = 4%nat
        /\ struct_unpack_L hdr = Return (len data)
        /\ 0 < len data
        /\ concat (rx sk) = hdr ++ data ++ concat (rx sk')
        /\ tx sk' = tx sk /\ accepts sk' = accepts sk
  | Return None => False
  | Raise e msg => e = socket_error \/ e = AssertionError
  | OutOfFuel => True
  end.
Proof.
  unfold sync_recv_msg, struct_calcsize_L, mbind, io_bind, bind, lift.
  destruct (sync_recvall fuel 4 sk) as [[hdr|e1 msg1|] sk1] eqn:E1.
  - apply sync_recvall_returns in E1 as (Hlen & Hcat & Ht & Ha).
    rewrite Hlen, Z.ltb_irrefl.
    destruct (struct_unpack_L_total hdr) as [n Hn]; [unfold len in Hlen; lia|].
    rewrite Hn. destruct (Z.gtb_spec n 0) as [Hpos|Hneg].
    + destruct (sync_recvall fuel n sk1) as [[data|e2 msg2|] sk2] eqn:E2.
      * apply sync_recvall_returns in E2 as (Hlen2 & Hcat2 & Ht2 & Ha2).
        rewrite Hlen2, Z.ltb_irrefl. intros [= <- <-].
        exists hdr. rewrite Hlen2, Hcat, Hcat2.
        repeat split; try congruence; try lia. unfold len in Hlen. lia.
      * apply sync_recvall_raises in E2 as [[-> _] | [-> Hlt]];
          intros [= <- <-]; [by left | lia].
      * by intros [= <- <-].
    + intros [= <- <-]. by right.
  - apply sync_recvall_raises in E1 as [[-> _] | [-> Hlt]];
      intros [= <- <-]; [by left | lia].
  - by intros [= <- <-].
Qed.

Lemma sync_recv_msg_sound_witness :
  exists hdr,
    length hdr = 4%nat
    /\ struct_unpack_L hdr = Return (len [x68; x69])
    /\ 0 < len [x68; x69]
    /\ concat [[x00; x00; x00]; [x02; x68]; [x69; x21]]
       = hdr ++ [x68; x69] ++ concat [[x21]]
    /\ [] = @nil byte /\ @nil nat = [].
Proof.
  apply (sync_recv_msg_sound 3
           {| rx := [[x00; x00; x00]; [x02; x68]; [x69; x21]]; tx := [];
              accepts := [] |}
           {| rx := [[x21]]; tx := []; accepts := [] |}
           (Return (Some [x68; x69]))).
  reflexivity.
Defined.

(** X3. The empty message does not make the round trip: [sync_send_msg]
    sends it as four zero bytes and returns 0, and [sync_recv_msg], on
    any stream that starts with four zero bytes, fails its assertion
    [n > 0] after reading the header. *)
Theorem empty_message_rejected (segs : list bytes) (more : bytes) :
  Forall nonempty segs ->
  concat segs = [x00; x00; x00; x00] ++ more ->
  (forall fuel r t w, (length w < fuel)%nat ->
     exists w',
       sync_send_msg fuel [] {| rx := r; tx := t; accepts := w |}
       = (Return 0, {| rx := r; tx := t ++ [x00; x00; x00; x00];
                       accepts := w' |}))
  /\ (forall fuel t w, (length segs < fuel)%nat ->
        exists rest,
          sync_recv_msg fuel {| rx := segs; tx := t; accepts := w |}
          = (Raise AssertionError "", {| rx := rest; tx := t; accepts := w |})
          /\ concat rest = more).
Proof.
  intros Hne Hcat. split.
  - intros fuel r t w Hfuel.
    unfold sync_send_msg, mbind, io_bind, bind, lift. simpl.
    apply sync_sendall_loop_all, Hfuel.
  - intros fuel t w Hfuel.
    pose proof (len_nonneg more).
    destruct (sync_recvall_enough segs 4 fuel t w Hne)
      as (rest & E & Hrest & _); [|done|].
    { rewrite Hcat, len_app. unfold len at 1. simpl. lia. }
    exists rest. unfold sync_recv_msg, struct_calcsize_L, mbind, io_bind, bind.
    rewrite E, Hcat. simpl. split; [done|]. by rewrite Hrest, Hcat.
Qed.

Lemma empty_message_rejected_witness :
  exists rest,
    sync_recv_msg 3 {| rx := [[x00; x00]; [x00; x00; x41]]; tx := [];
                       accepts := [] |}
    = (Raise AssertionError "", {| rx := rest; tx := []; accepts := [] |})
    /\ concat rest = [x41].
Proof.
  assert (H1 : Forall nonempty [[x00; x00]; [x00; x00; x41]])
    by (repeat constructor; discriminate).
  destruct (empty_message_rejected [[x00; x00]; [x00; x00; x41]] [x41] H1)
    as [_ H]; [reflexivity|].
  apply (H 3%nat [] []). simpl. lia.
Defined.

(** [sync_sendall] uses up a front part of the kernel's write sizes. *)
Lemma sync_sendall_loop_window (w : list nat) :
  forall (data : bytes) (fuel : nat) (r : list bytes) (t : bytes),
    (length w < fuel)%nat ->
    exists w',
      sync_sendall_loop fuel data {| rx := r; tx := t; accepts := w |}
      = (Return 0, {| rx := r; tx := t ++ data; accepts := w' |})
      /\ (length w' <= length w)%nat.
Proof.
  induction w as [|k w IH]; intros data fuel r t Hfuel.
  - destruct fuel as [|fuel]; [simpl in Hfuel; lia|].
    cbn [sync_sendall_loop].
    destruct (Z.gtb_spec (len data) 0) as [Hpos|Hz].
    + unfold mbind, io_bind, bind, send. cbn [rx tx accepts].
      destruct (Z.gtb_spec (len data) 0) as [_|]; [|lia].
      unfold len. rewrite Nat2Z.id, drop_all.
      exists []. by destruct fuel.
    + exists []. pose proof (len_nonneg data).
      assert (data = []) as -> by (apply len_nil_iff; lia).
      by rewrite app_nil_r.
  - destruct fuel as [|fuel]; [simpl in Hfuel; lia|].
    cbn [sync_sendall_loop].
    destruct (Z.gtb_spec (len data) 0) as [Hpos|Hz].
    + unfold mbind, io_bind, bind, send. cbn [rx tx accepts].
      destruct (Z.gtb_spec (Z.of_nat (k `min` length data)) 0) as [Hk|Hk].
      * destruct (IH (drop (Z.to_nat (Z.of_nat (k `min` length data))) data)
                     fuel r (t ++ take (k `min` length data) data))
          as (w' & E & Hl); [simpl in Hfuel; lia|].
        exists w'. rewrite E, Nat2Z.id, <- app_assoc, take_drop.
        split; [done | simpl; lia].
      * destruct (IH data fuel r (t ++ take (k `min` length data) data))
          as (w' & E & Hl); [simpl in Hfuel; lia|].
        exists w'. rewrite E.
        assert ((k `min` length data)%nat = 0%nat) as -> by lia.
        simpl. rewrite app_nil_r. split; [done | lia].
    + exists (k :: w). pose proof (len_nonneg data).
      assert (data = []) as -> by (apply len_nil_iff; lia).
      by rewrite app_nil_r.
Qed.

Lemma sendall_each_all (msgs : list bytes) :
  forall (w : list nat) (fuel : nat) (r : list bytes) (t : bytes),
    (length w < fuel)%nat ->
    exists w',
      sendall_each fuel msgs {| rx := r; tx := t; accepts := w |}
      = (Return 0, {| rx := r; tx := t ++ concat msgs; accepts := w' |})
      /\ (length w' <= length w)%nat.
Proof.
  induction msgs as [|data msgs IH]; intros w fuel r t Hfuel.
  - exists w. simpl. by rewrite app_nil_r.
  - cbn [sendall_each]. unfold mbind, io_bind, bind, sync_sendall.
    destruct (sync_sendall_loop_window w data fuel r t Hfuel) as (w1 & E & Hl).
    rewrite E.
    destruct (IH w1 fuel r (t ++ data)) as (w2 & E2 & Hl2); [lia|].
    exists w2. rewrite E2, concat_cons, app_assoc. split; [done | lia].
Qed.

(** X4. Conservation between [sendall] and [recvall]: a sequence of
    [sync_sendall] calls puts the messages on the wire back to back, in
    order, however the kernel cuts the writes; and a [sync_recvall] for
    their total length, reading that stream in whatever segments it
    arrives, returns their concatenation and leaves nothing behind. *)
Theorem sendall_recvall_conservation (msgs : list bytes) (segs : list bytes) :
  Forall nonempty segs ->
  concat segs = concat msgs ->
  (forall fuel r t w, (length w < fuel)%nat ->
     exists w',
       sendall_each fuel msgs {| rx := r; tx := t; accepts := w |}
       = (Return 0, {| rx := r; tx := t ++ concat msgs; accepts := w' |}))
  /\ (forall fuel t w, (length segs < fuel)%nat ->
        sync_recvall fuel (len (concat msgs))
          {| rx := segs; tx := t; accepts := w |}
        = (Return (concat msgs), {| rx := []; tx := t; accepts := w |})).
Proof.
  intros Hne Hcat. split.
  - intros fuel r t w Hfuel.
    destruct (sendall_each_all msgs w fuel r t Hfuel) as (w' & E & _). eauto.
  - intros fuel t w Hfuel.
    destruct (sync_recvall_enough segs (len (concat msgs)) fuel t w Hne)
      as (rest & E & Hrest & Hner & _);
      [rewrite Hcat; pose proof (len_nonneg (concat msgs)); lia | done |].
    assert (Hn : Z.to_nat (len (concat msgs)) = length (concat msgs))
      by (unfold len; lia).
    rewrite Hcat, Hn, firstn_all in E. rewrite Hcat, Hn, drop_all in Hrest.
    rewrite E.
    destruct rest as [|c rest]; [done|].
    apply Forall_cons in Hner as [Hc _].
    destruct c; [done | discriminate].
Qed.

Lemma sendall_recvall_conservation_witness :
  sync_recvall 4 (len (concat [[x68; x65]; []; [x6c; x6c; x6f]]))
    {| rx := [[x68]; [x65; x6c; x6c]; [x6f]]; tx := []; accepts := [] |}
  = (Return (concat [[x68; x65]; []; [x6c; x6c; x6f]]),
     {| rx := []; tx := []; accepts := [] |}).
Proof.
  assert (H1 : Forall nonempty [[x68]; [x65; x6c; x6c]; [x6f]])
    by (repeat constructor; discriminate).
  destruct (sendall_recvall_conservation
              [[x68; x65]; []; [x6c; x6c; x6f]]
              [[x68]; [x65; x6c; x6c]; [x6f]] H1) as [_ H]; [reflexivity|].
  apply (H 4%nat [] []). simpl. lia.
Defined.

(** ** More on the scheduler's operations *)

Lemma sets_interrupt_notifier (b : byte) (s : AsynCoro) :
  _scheduled (interrupt_notifier b s) = _scheduled s
  /\ _suspended (interrupt_notifier b s) = _suspended s
  /\ _timeouts (interrupt_notifier b s) = _timeouts s
  /\ _cur_coro (interrupt_notifier b s) = _cur_coro s
  /\ _coro_id (interrupt_notifier b s) = _coro_id s.
Proof. unfold interrupt_notifier. by destruct (decide _). Qed.

(** X5. In a well-formed state [Coro(...)] never reuses an id: the new
    coroutine gets the id counter's value, which is neither in the table
    nor in either set; it enters the table in state [Scheduled] with
    nothing pending and joins the ready set; no other coroutine changes;
    and the wake-up byte goes to the notifier exactly when the ready set
    was empty before. *)
Theorem add_fresh (g : nat) (s : AsynCoro) :
  well_formed s ->
  exists id s',
    _add g s = (id, s')
    /\ id = _coro_id s
    /\ _coros s !! id = None /\ id ∉ _scheduled s /\ id ∉ _suspended s
    /\ _coro_id s' = id + 1
    /\ _coros s' !! id
       = Some {| _id := id; _generator := g; _state := Scheduled;
                 _value := PNone; _exception := None; _callers := [];
                 _timeout := None |}
    /\ (forall other, other <> id -> _coros s' !! other = _coros s !! other)
    /\ _scheduled s' = _scheduled s ∪ {[id]}
    /\ _suspended s' = _suspended s
    /\ _timeouts s' = _timeouts s
    /\ (_scheduled s = ∅ -> _cmd_wsock s' = _cmd_wsock s ++ ["a"%byte])
    /\ (_scheduled s <> ∅ -> _cmd_wsock s' = _cmd_wsock s).
Proof.
  intros ((Hd & Hin) & Hids & Hb).
  assert (Hs : _coro_id s ∉ _scheduled s)
    by (intros H; assert (_coro_id s < _coro_id s) by (apply Hb; set_solver); lia).
  assert (Hp : _coro_id s ∉ _suspended s)
    by (intros H; assert (_coro_id s < _coro_id s) by (apply Hb; set_solver); lia).
  assert (Hn : _coros s !! _coro_id s = None).
  { destruct (_coros s !! _coro_id s) eqn:E; [|done].
    destruct (Hin (_coro_id s)); [by eexists | done | done]. }
  eexists _, _. split; [reflexivity|].
  unfold interrupt_notifier. cbn [_scheduled].
  destruct (decide (size (_scheduled s ∪ {[_coro_id s]}) = 1%nat)) as [Hsz|Hsz];
    cbn; rewrite ?lookup_insert_eq.
  all: repeat split; try done.
  all: try (intros other Hne; by rewrite lookup_insert_ne).
  - intros Hne. exfalso. apply Hne.
    rewrite size_union, size_singleton in Hsz by set_solver.
    assert (Hz : size (_scheduled s) = 0%nat) by lia.
    apply size_empty_inv in Hz. by apply leibniz_equiv.
  - intros He. exfalso. apply Hsz. rewrite He, union_empty_l_L.
    apply size_singleton.
Qed.

Lemma add_fresh_witness :
  exists id s',
    _add 7 AsynCoro_init = (id, s')
    /\ id = 1
    /\ _coro_id s' = 2
    /\ _scheduled s' = {[ 1 ]}
    /\ _cmd_wsock s' = ["a"%byte].
Proof.
  destruct (add_fresh 7 AsynCoro_init well_formed_init)
    as (id & s' & E & Hid & _ & _ & _ & Hc & _ & _ & Hs & _ & _ & Hw & _).
  exists id, s'. split; [exact E|]. split; [exact Hid|].
  split; [rewrite Hc, Hid; reflexivity|].
  split; [rewrite Hs, Hid; apply union_empty_l_L|].
  apply Hw. reflexivity.
Defined.

Lemma suspend_timed_eq (now t cid : Z) (coro : Coro) (s : AsynCoro) :
  _coros s !! cid = Some coro -> _state coro = Running -> 0 < t ->
  _suspend now cid (PInt t) s
  = (0, set_coro cid
          {| _id := _id coro; _generator := _generator coro;
             _state := Suspended; _value := _value coro;
             _exception := _exception coro; _callers := _callers coro;
             _timeout := Some (Finite (now + t)) |}
          (set_timeouts (heappush (_timeouts s) (Finite (now + t), cid))
             (set_sets (_scheduled s ∖ {[cid]}) (_suspended s ∪ {[cid]}) s))).
Proof.
  intros Hlook Hrun Ht. unfold _suspend. simpl.
  destruct (Z.leb_spec t 0) as [|_]; [lia|]. rewrite Hlook.
  by destruct (decide (_state coro = Running)).
Qed.

Lemma resume_unscheduled_eq (cid : Z) (v : pyval) (coro : Coro) (s : AsynCoro) :
  _coros s !! cid = Some coro -> _state coro <> Scheduled ->
  _resume cid v s
  = (0, set_coro cid
          {| _id := _id coro; _generator := _generator coro;
             _state := Scheduled; _value := v;
             _exception := _exception coro; _callers := _callers coro;
             _timeout := None |}
          (make_ready cid s)).
Proof.
  intros Hlook Hst. unfold _resume. rewrite Hlook.
  by destruct (decide (_state coro = Scheduled)).
Qed.

(** X6. [resume] on a coroutine that is not [Scheduled], suspended or
    even running, returns 0: the coroutine becomes [Scheduled] with
    [v] staged and its deadline cleared, its pending exception if any is
    kept, it is in the ready set and not in the suspended set, and the
    sleep heap is left as it is.  On an unknown id it returns -1 and
    changes nothing. *)
Theorem resume_wakes (s : AsynCoro) (cid : Z) (v : pyval) :
  (forall coro,
      _coros s !! cid = Some coro -> _state coro <> Scheduled ->
      exists s' coro',
        _resume cid v s = (0, s')
        /\ _coros s' !! cid = Some coro'
        /\ _state coro' = Scheduled
        /\ _value coro' = v
        /\ _timeout coro' = None
        /\ _exception coro' = _exception coro
        /\ _generator coro' = _generator coro
        /\ _callers coro' = _callers coro
        /\ _scheduled s' = _scheduled s ∪ {[cid]}
        /\ _suspended s' = _suspended s ∖ {[cid]}
        /\ _timeouts s' = _timeouts s
        /\ (forall other, other <> cid -> _coros s' !! other = _coros s !! other))
  /\ (_coros s !! cid = None -> _resume cid v s = (-1, s)).
Proof.
  split.
  - intros coro Hlook Hst. rewrite (resume_unscheduled_eq _ _ coro) by done.
    eexists _, _. split; [reflexivity|]. simpl. rewrite lookup_insert_eq.
    repeat split; auto. intros other Hne. by rewrite lookup_insert_ne.
  - intros Hnone. unfold _resume. by rewrite Hnone.
Qed.

Lemma resume_wakes_witness :
  exists s' coro',
    _resume 1 (PInt 5) suspended_example = (0, s')
    /\ _coros s' !! 1 = Some coro'
    /\ _state coro' = Scheduled
    /\ _value coro' = PInt 5
    /\ _timeout coro' = None
    /\ _timeouts s' = [(Finite 5000, 1)].
Proof.
  destruct (resume_wakes suspended_example 1 (PInt 5)) as [H _].
  destruct (H {| _id := 1; _generator := 0%nat; _state := Suspended;
                 _value := PNone; _exception := None;
                 _callers := []; _timeout := Some (Finite 5000) |})
    as (s' & coro' & E & H1 & H2 & H3 & H4 & _ & _ & _ & _ & _ & H5 & _);
    [reflexivity | discriminate |].
  exists s', coro'. auto 10.
Defined.

(** A coroutine without a deadline is out of the timers' reach. *)
Lemma wake_keeps_undated (timeout : pyfloat) (c0 cid : Z) (coro : Coro)
      (s : AsynCoro) :
  _coros s !! cid = Some coro -> _timeout coro = None ->
  _coros (wake timeout c0 s) !! cid = Some coro
  /\ (cid ∈ _scheduled s -> cid ∈ _scheduled (wake timeout c0 s))
  /\ (cid ∉ _suspended s -> cid ∉ _suspended (wake timeout c0 s)).
Proof.
  intros Hlook Hto. unfold wake.
  destruct (_coros s !! c0) as [coro0|] eqn:E0; [|done].
  destruct (deadline_is (_timeout coro0) timeout) eqn:Ht; [|done].
  destruct (decide (_state coro0 = Suspended)); [|done].
  assert (c0 <> cid).
  { intros ->. assert (coro0 = coro) as -> by congruence.
    by rewrite Hto in Ht. }
  simpl. rewrite lookup_insert_ne by done. split; [done|]. set_solver.
Qed.

Lemma wake_timed_suspends_keeps_undated (t cid : Z) (coro : Coro)
      (s : AsynCoro) :
  _coros s !! cid = Some coro -> _timeout coro = None ->
  _coros (wake_timed_suspends t s) !! cid = Some coro
  /\ (cid ∈ _scheduled s -> cid ∈ _scheduled (wake_timed_suspends t s))
  /\ (cid ∉ _suspended s -> cid ∉ _suspended (wake_timed_suspends t s)).
Proof.
  intros Hlook Hto.
  apply (wake_timed_suspends_ind
           (fun s' => _coros s' !! cid = Some coro
                      /\ (cid ∈ _scheduled s -> cid ∈ _scheduled s')
                      /\ (cid ∉ _suspended s -> cid ∉ _suspended s'))).
  - intros timeout c0 s' (H1 & H2 & H3).
    destruct (wake_keeps_undated timeout c0 cid coro s' H1 Hto)
      as (H4 & H5 & H6). auto.
  - intros heap s' H. exact H.
  - auto.
Qed.

(** X7. A resume cancels the sleep: when a coroutine suspends itself
    with a timeout and is resumed with [v] before the timer is looked at,
    its heap entry stays behind as a stale one, and no later wake-up of
    timed suspends, at whatever time, touches the coroutine: it remains
    [Scheduled], in the ready set, with [v] staged. *)
Theorem resume_cancels_sleep (now t t' cid : Z) (v : pyval) (coro : Coro)
        (s : AsynCoro) :
  _coros s !! cid = Some coro ->
  _state coro = Running ->
  0 < t ->
  let s1 := (_suspend now cid (PInt t) s).2 in
  let s2 := (_resume cid v s1).2 in
  let s3 := wake_timed_suspends t' s2 in
  (Finite (now + t), cid) ∈ _timeouts s2
  /\ exists coro',
       _coros s2 !! cid = Some coro'
       /\ _coros s3 !! cid = Some coro'
       /\ _state coro' = Scheduled
       /\ _value coro' = v
       /\ _timeout coro' = None
       /\ cid ∈ _scheduled s3
       /\ cid ∉ _suspended s3.
Proof.
  intros Hlook Hrun Ht s1 s2 s3.
  subst s3 s2 s1. rewrite (suspend_timed_eq now t cid coro) by done.
  cbn [snd].
  erewrite resume_unscheduled_eq;
    [|simpl; apply lookup_insert_eq|discriminate].
  cbn [snd].
  match goal with |- context [wake_timed_suspends t' ?x] => set (s2 := x) end.
  assert (Hl2 : exists c2, _coros s2 !! cid = Some c2 /\ _state c2 = Scheduled
                           /\ _value c2 = v /\ _timeout c2 = None).
  { subst s2. simpl. rewrite lookup_insert_eq. eexists. by repeat split. }
  destruct Hl2 as (c2 & Hl2 & Hst2 & Hv2 & Hto2).
  assert (Hsch : cid ∈ _scheduled s2) by (subst s2; simpl; set_solver).
  assert (Hsus : cid ∉ _suspended s2) by (subst s2; simpl; set_solver).
  split; [subst s2; simpl; apply heappush_elem|].
  exists c2. split; [done|].
  destruct (wake_timed_suspends_keeps_undated t' cid c2 s2 Hl2)
    as (H1 & H2 & H3); [done|].
  auto 10.
Qed.

Lemma resume_cancels_sleep_witness :
  let s2 := (_resume 1 (PInt 5) (_suspend 100 1 (PInt 50) running_example).2).2 in
  (Finite 150, 1) ∈ _timeouts s2
  /\ exists coro',
       _coros s2 !! 1 = Some coro'
       /\ _coros (wake_timed_suspends 1000 s2) !! 1 = Some coro'
       /\ _state coro' = Scheduled
       /\ _value coro' = PInt 5.
Proof.
  destruct (resume_cancels_sleep 100 50 1000 1 (PInt 5)
              {| _id := 1; _generator := 0%nat; _state := Running;
                 _value := PNone; _exception := None;
                 _callers := []; _timeout := None |}
              running_example)
    as (H1 & c & H2 & H3 & H4 & H5 & _); [reflexivity | reflexivity | lia |].
  split; [exact H1|]. exists c. auto.
Defined.

Lemma well_formed_running_example : well_formed running_example.
Proof.
  unfold well_formed, sets_partition, ids_ok, ids_bounded, running_example.
  cbn [_coros _scheduled _suspended _coro_id].
  split; [split|split].
  - set_solver.
  - intros cid [c Hc]. apply lookup_singleton_Some in Hc as [<- _].
    left. set_solver.
  - intros cid c Hc. by apply lookup_singleton_Some in Hc as [<- <-].
  - intros cid Hc. assert (cid = 1) by set_solver. lia.
Qed.

Section timed_suspend.
Variables (d cid : Z) (coro : Coro).
Hypothesis Hid : _id coro = cid.

Let asleep : Coro :=
  {| _id := _id coro; _generator := _generator coro; _state := Suspended;
     _value := _value coro; _exception := _exception coro;
     _callers := _callers coro; _timeout := Some (Finite d) |}.

Let awake : Coro :=
  {| _id := _id coro; _generator := _generator coro; _state := Scheduled;
     _value := PNone; _exception := _exception coro;
     _callers := _callers coro; _timeout := None |}.

Let woken (s : AsynCoro) : Prop :=
  _coros s !! cid = Some awake /\ cid ∈ _scheduled s /\ cid ∉ _suspended s.

Lemma fold_wake_woken (l : list (pyfloat * Z)) :
  forall s, woken s -> woken (foldl (fun s e => wake e.1 e.2 s) s l).
Proof.
  induction l as [|[t0 c0] l IH]; intros s (Hl & Hsch & Hsus); [done|].
  simpl. apply IH.
  destruct (wake_keeps_undated t0 c0 cid awake s Hl) as (H1 & H2 & H3);
    [done|].
  unfold woken. auto.
Qed.

(** The popped entries: the sleeper is woken by its own entry and by
    no other. *)
Lemma fold_wake_sleeper (l : list (pyfloat * Z)) :
  forall s,
    _coros s !! cid = Some asleep \/ woken s ->
    let s' := foldl (fun s e => wake e.1 e.2 s) s l in
    (_coros s' !! cid = Some asleep \/ woken s')
    /\ ((Finite d, cid) ∈ l -> woken s').
Proof using Hid.
  induction l as [|[t0 c0] l IH]; intros s Hs; simpl.
  { split; [done|]. by intros ?%elem_of_nil. }
  assert (Hstep : (_coros (wake t0 c0 s) !! cid = Some asleep
                   \/ woken (wake t0 c0 s))
                  /\ ((t0, c0) = (Finite d, cid) -> woken (wake t0 c0 s))).
  { destruct Hs as [Hs | (Hl & Hsch & Hsus)].
    - unfold wake. destruct (decide (c0 = cid)) as [->|Hne].
      + rewrite Hs. cbn [asleep _timeout _state _id].
        destruct (deadline_is (Some (Finite d)) t0) eqn:Ed.
        * assert (Hw : woken
                    (set_coro cid
                       {| _id := _id coro; _generator := _generator coro;
                          _state := Scheduled; _value := PNone;
                          _exception := _exception coro;
                          _callers := _callers coro; _timeout := None |}
                       (make_ready (_id coro) s))).
          { unfold woken. simpl. rewrite lookup_insert_eq.
            split; [done|]. rewrite Hid. set_solver. }
          destruct (decide (Suspended = Suspended)); [|done]. auto.
        * split; [by left|]. intros E. inversion E. subst t0.
          by rewrite deadline_is_Finite in Ed.
      + split; [|intros E; inversion E; congruence]. left.
        destruct (_coros s !! c0) as [coro0|]; [|done].
        destruct (deadline_is _ _); [|done]. destruct (decide _); [|done].
        simpl. by rewrite lookup_insert_ne.
    - destruct (wake_keeps_undated t0 c0 cid awake s Hl) as (H1 & H2 & H3);
        [done|].
      assert (woken (wake t0 c0 s)) by (unfold woken; auto). auto. }
  destruct Hstep as [Hs1 Hhit].
  destruct (IH (wake t0 c0 s) Hs1) as [H1 H2]. split; [done|].
  intros [E | Hin]%elem_of_cons; [|auto].
  symmetry in E. by apply fold_wake_woken, Hhit.
Qed.

(** The entries with another deadline leave it asleep. *)
Lemma fold_wake_early (l : list (pyfloat * Z)) :
  Forall (fun e => e.1 <> Finite d) l ->
  forall s,
    well_formed s ->
    _coros s !! cid = Some asleep -> cid ∈ _suspended s ->
    let s' := foldl (fun s e => wake e.1 e.2 s) s l in
    _coros s' !! cid = Some asleep /\ cid ∈ _suspended s'.
Proof.
  induction 1 as [|[t0 c0] l Ht0 _ IH]; intros s Hwf Hl Hsus; [done|].
  simpl. simpl in Ht0.
  apply IH; [by apply well_formed_wake| |]; unfold wake.
  - destruct (decide (c0 = cid)) as [->|Hne].
    + rewrite Hl. cbn [asleep _timeout].
      destruct (deadline_is (Some (Finite d)) t0) eqn:Ed; [|done].
      apply deadline_is_Some in Ed as [[= <-] _]. done.
    + destruct (_coros s !! c0) as [coro0|]; [|done].
      destruct (deadline_is _ _); [|done]. destruct (decide _); [|done].
      simpl. by rewrite lookup_insert_ne.
  - destruct (decide (c0 = cid)) as [->|Hne].
    + rewrite Hl. cbn [asleep _timeout].
      destruct (deadline_is (Some (Finite d)) t0) eqn:Ed; [|done].
      apply deadline_is_Some in Ed as [[= <-] _]. done.
    + destruct (_coros s !! c0) as [coro0|] eqn:E0; [|done].
      destruct (deadline_is _ _); [|done]. destruct (decide _); [|done].
      assert (_id coro0 = c0) as -> by (by apply Hwf).
      simpl. set_solver.
Qed.
End timed_suspend.

(** X8. A timed suspend wakes up when its deadline has come and not
    before, on a heap without [nan]: when the sleep heap satisfies the
    invariant of [heapq] and holds no deadline [nan], then after
    [suspend(timeout)] at time [now] with a finite [timeout > 0], a
    wake-up of timed suspends at a time [t'] with
    [now + timeout <= t' + 1 ms] leaves the coroutine [Scheduled], in the
    ready set, with [None] staged and no deadline; at an earlier [t'] the
    coroutine is still asleep in the suspended set and its heap entry is
    still there.  Stale entries for the same coroutine and the entries of
    other coroutines do not interfere, and the heap is again one that
    satisfies the invariant and holds no [nan]. *)
Theorem timed_suspend_wakes (now t t' cid : Z) (coro : Coro) (s : AsynCoro) :
  well_formed s ->
  heap_ok (_timeouts s) ->
  _coros s !! cid = Some coro ->
  _state coro = Running ->
  0 < t ->
  let s1 := (_suspend now cid (PInt t) s).2 in
  let s2 := wake_timed_suspends t' s1 in
  heap_ok (_timeouts s1)
  /\ heap_ok (_timeouts s2)
  /\ (now + t <= t' + slack ->
      (Finite (now + t), cid) ∉ _timeouts s2
      /\ exists coro',
           _coros s2 !! cid = Some coro'
           /\ _state coro' = Scheduled
           /\ _value coro' = PNone
           /\ _timeout coro' = None
           /\ _exception coro' = _exception coro
           /\ cid ∈ _scheduled s2
           /\ cid ∉ _suspended s2)
  /\ (t' + slack < now + t ->
      (Finite (now + t), cid) ∈ _timeouts s2
      /\ _coros s2 !! cid = _coros s1 !! cid
      /\ cid ∈ _suspended s2
      /\ exists coro',
           _coros s2 !! cid = Some coro'
           /\ _state coro' = Suspended
           /\ _timeout coro' = Some (Finite (now + t))).
Proof.
  intros Hwf Hok Hlook Hrun Ht s1 s2.
  assert (Hid : _id coro = cid) by (by apply Hwf).
  assert (Hwf1 : well_formed s1) by (by apply well_formed_suspend).
  subst s2 s1. rewrite (suspend_timed_eq now t cid coro) in * by done.
  cbn [snd] in *.
  set (s1 := set_coro cid _ _) in *.
  assert (Hh1 : _timeouts s1
                = heappush (_timeouts s) (Finite (now + t), cid)) by done.
  assert (Hok1 : heap_ok (_timeouts s1)).
  { rewrite Hh1. by apply heappush_inv. }
  assert (Hl1 : _coros s1 !! cid
                = Some {| _id := _id coro; _generator := _generator coro;
                          _state := Suspended; _value := _value coro;
                          _exception := _exception coro;
                          _callers := _callers coro;
                          _timeout := Some (Finite (now + t)) |})
    by (subst s1; simpl; apply lookup_insert_eq).
  assert (Hsus1 : cid ∈ _suspended s1) by (subst s1; simpl; set_solver).
  destruct (wake_timed_suspends_spec t' s1 Hok1)
    as (due & rest & Eq & Hperm & Hdue & Hrest & _ & Hokr).
  rewrite Eq. cbn [set_timeouts _timeouts _coros _scheduled _suspended].
  assert (Hin : (Finite (now + t), cid) ∈ due ++ rest).
  { rewrite Hperm, Hh1. apply heappush_elem. }
  split; [done|]. split; [done|]. split.
  - intros Hdl.
    assert (Hexp : expired (t' + slack) (Finite (now + t), cid)).
    { unfold expired. simpl. by apply float_leb_Finite. }
    split.
    { intros Hr. by apply (proj1 (Forall_forall _ _) Hrest _ Hr). }
    apply elem_of_app in Hin as [Hin | Hin];
      [|by destruct (proj1 (Forall_forall _ _) Hrest _ Hin)].
    destruct (fold_wake_sleeper (now + t) cid coro Hid due
                s1 (or_introl Hl1)) as [_ Hw].
    destruct (Hw Hin) as (Hl & Hsch & Hsus).
    eexists. split; [exact Hl|]. auto 10.
  - intros Hearly.
    assert (Hbefore : Forall (fun e : pyfloat * Z => e.1 <> Finite (now + t))
                             due).
    { apply Forall_forall. intros e He Heq.
      pose proof (proj1 (Forall_forall _ _) Hdue e He) as Hexp.
      unfold expired in Hexp. rewrite Heq in Hexp.
      apply float_leb_Finite in Hexp. lia. }
    destruct (fold_wake_early (now + t) cid coro Hid due Hbefore s1 Hwf1 Hl1 Hsus1)
      as [Hl Hsus].
    split.
    { apply elem_of_app in Hin as [Hin | Hin]; [|done].
      by destruct (proj1 (Forall_forall _ _) Hbefore _ Hin). }
    split; [by rewrite Hl|]. split; [done|].
    eexists. split; [exact Hl|]. done.
Qed.

Lemma timed_suspend_wakes_witness :
  let s1 := (_suspend 100 1 (PInt 50) running_example).2 in
  (exists coro',
      _coros (wake_timed_suspends 200 s1) !! 1 = Some coro'
      /\ _state coro' = Scheduled /\ _value coro' = PNone)
  /\ 1 ∈ _suspended (wake_timed_suspends (-900) s1).
Proof.
  pose proof well_formed_running_example as Hwf.
  pose proof heap_ok_nil as Hs.
  split.
  - destruct (timed_suspend_wakes 100 50 200 1
                {| _id := 1; _generator := 0%nat; _state := Running;
                   _value := PNone; _exception := None;
                   _callers := []; _timeout := None |}
                running_example Hwf Hs) as (_ & _ & H & _);
      [reflexivity | reflexivity | lia |].
    destruct H as (_ & c & H1 & H2 & H3 & _); [unfold slack; lia|].
    exists c. auto.
  - destruct (timed_suspend_wakes 100 50 (-900) 1
                {| _id := 1; _generator := 0%nat; _state := Running;
                   _value := PNone; _exception := None;
                   _callers := []; _timeout := None |}
                running_example Hwf Hs) as (_ & _ & _ & H);
      [reflexivity | reflexivity | lia |].
    destruct H as (_ & _ & H3 & _); [unfold slack; lia|]. exact H3.
Defined.

Lemma terminate_coro_eq (cid : Z) (coro : Coro) (s : AsynCoro) :
  _coros s !! cid = Some coro ->
  _terminate_coro cid s
  = (0, interrupt_notifier "x"
          (set_coro cid
             {| _id := _id coro; _generator := _generator coro;
                _state := Scheduled; _value := _value coro;
                _exception := Some (GeneratorExit, PExc GeneratorExit "close");
                _callers := _callers coro; _timeout := None |}
             (if decide (_state coro = Suspended) then make_ready cid s else s))).
Proof. intros Hlook. unfold _terminate_coro. by rewrite Hlook. Qed.

(** X9. [terminate] on an existing coroutine, whatever its state,
    returns 0, stages [GeneratorExit], clears the deadline and leaves the
    coroutine [Scheduled]; a suspended one moves to the ready set, any
    other stays in its set.  From then on a [resume] is refused with -1
    and changes nothing, so the termination cannot be cancelled the way a
    timeout can.  On an unknown id [terminate] returns -1 and changes
    nothing. *)
Theorem terminate_spec (s : AsynCoro) (cid : Z) :
  (forall coro,
      _coros s !! cid = Some coro ->
      exists s' coro',
        _terminate_coro cid s = (0, s')
        /\ _coros s' !! cid = Some coro'
        /\ _exception coro' = Some (GeneratorExit, PExc GeneratorExit "close")
        /\ _state coro' = Scheduled
        /\ _timeout coro' = None
        /\ _value coro' = _value coro
        /\ _callers coro' = _callers coro
        /\ (_state coro = Suspended ->
            _scheduled s' = _scheduled s ∪ {[cid]}
            /\ _suspended s' = _suspended s ∖ {[cid]})
        /\ (_state coro <> Suspended ->
            _scheduled s' = _scheduled s /\ _suspended s' = _suspended s)
        /\ (forall v, _resume cid v s' = (-1, s')))
  /\ (_coros s !! cid = None -> _terminate_coro cid s = (-1, s)).
Proof.
  split.
  - intros coro Hlook. rewrite (terminate_coro_eq cid coro) by done.
    eexists _, _. split; [reflexivity|].
    destruct (sets_interrupt_notifier "x"
                (set_coro cid
                   {| _id := _id coro; _generator := _generator coro;
                      _state := Scheduled; _value := _value coro;
                      _exception := Some (GeneratorExit, PExc GeneratorExit "close");
                      _callers := _callers coro; _timeout := None |}
                   (if decide (_state coro = Suspended)
                    then make_ready cid s else s)))
      as (Hsch & Hsus & _).
    rewrite Hsch, Hsus.
    split; [rewrite coros_interrupt_notifier; simpl; apply lookup_insert_eq|].
    repeat split; auto.
    1-4: by destruct (decide (_state coro = Suspended)).
    intros v. unfold _resume. rewrite coros_interrupt_notifier. simpl.
    rewrite lookup_insert_eq. simpl.
    destruct (decide (Scheduled = Scheduled)); [|done].
    by destruct (decide (GeneratorExit <> GeneratorExit)).
  - intros Hnone. unfold _terminate_coro. by rewrite Hnone.
Qed.

Lemma terminate_spec_witness :
  exists s' coro',
    _terminate_coro 1 suspended_example = (0, s')
    /\ _coros s' !! 1 = Some coro'
    /\ _state coro' = Scheduled
    /\ _scheduled s' = _scheduled suspended_example ∪ {[1]}
    /\ (forall v, _resume 1 v s' = (-1, s')).
Proof.
  destruct (terminate_spec suspended_example 1) as [H _].
  destruct (H {| _id := 1; _generator := 0%nat; _state := Suspended;
                 _value := PNone; _exception := None;
                 _callers := []; _timeout := Some (Finite 5000) |})
    as (s' & coro' & E & H1 & _ & H2 & _ & _ & _ & H3 & _ & H4); [reflexivity|].
  destruct H3 as [H3 _]; [reflexivity|].
  exists s', coro'. auto.
Defined.

(** ** More on the scheduling loop *)

Local Ltac insert_cases cid' cid H :=
  destruct (decide (cid' = cid)) as [->|?];
  [rewrite lookup_insert_eq in H; inversion H; subst; simpl in *; try done
  |rewrite lookup_insert_ne in H by done; eauto].

Lemma starts_nothing_run_call (c : call) : starts_nothing (run_call c).
Proof.
  intros s. destruct c as [g | now cid timeout | cid v | cid kind payload | cid];
    simpl.
  - unfold _add. simpl. destruct (sets_interrupt_notifier "a"
      {| _coros := <[_coro_id s := {| _id := _coro_id s; _generator := g;
                                      _state := Scheduled; _value := PNone;
                                      _exception := None; _callers := [];
                                      _timeout := None |}]> (_coros s);
         _cur_coro := _cur_coro s; _scheduled := _scheduled s ∪ {[_coro_id s]};
         _suspended := _suspended s; _timeouts := _timeouts s;
         _coro_id := _coro_id s + 1; _cmd_wsock := _cmd_wsock s |})
      as (_ & _ & _ & -> & _).
    split; [done|]. intros cid' coro' H Hr.
    rewrite coros_interrupt_notifier in H. simpl in H.
    insert_cases cid' (_coro_id s) H.
  - unfold Coro_suspend, _suspend. destruct (_coros s !! cid) as [coro|] eqn:E;
      [|by eauto].
    destruct (invalid_timeout timeout); [by eauto|].
    destruct (decide (_state coro = Running)); [|by eauto].
    destruct (seconds timeout); simpl; (split; [done|]);
      intros cid' coro' H Hr; insert_cases cid' cid H.
  - unfold Coro_resume, _resume. destruct (_coros s !! cid) as [coro|] eqn:E;
      [|by eauto].
    destruct (decide (_state coro = Scheduled)).
    + destruct (_exception coro) as [[kind payload]|]; [|by eauto].
      destruct (decide (kind <> GeneratorExit)); [|by eauto].
      simpl. split; [done|]. intros cid' coro' H Hr. insert_cases cid' cid H.
      congruence.
    + simpl. split; [done|]. intros cid' coro' H Hr. insert_cases cid' cid H.
  - unfold Coro_throw, _throw. destruct (_coros s !! cid) as [coro|] eqn:E;
      [|by eauto].
    destruct (decide (_state coro = Scheduled \/ _state coro = Suspended));
      [|by eauto].
    simpl.
    match goal with |- context [interrupt_notifier ?b ?x] =>
      destruct (sets_interrupt_notifier b x) as (_ & _ & _ & -> & _);
      rewrite (coros_interrupt_notifier b x) end.
    split; [by destruct (decide (_state coro = Suspended))|].
    intros cid' coro' H Hr. simpl in H.
    destruct (decide (_state coro = Suspended)); simpl in H;
      insert_cases cid' cid H.
  - unfold Coro_terminate, _terminate_coro.
    destruct (_coros s !! cid) as [coro|] eqn:E; [|by eauto].
    simpl.
    match goal with |- context [interrupt_notifier ?b ?x] =>
      destruct (sets_interrupt_notifier b x) as (_ & _ & _ & -> & _);
      rewrite (coros_interrupt_notifier b x) end.
    split; [by destruct (decide (_state coro = Suspended))|].
    intros cid' coro' H Hr. simpl in H.
    destruct (decide (_state coro = Suspended)); simpl in H;
      insert_cases cid' cid H.
Qed.

Lemma starts_nothing_run_calls (cs : list call) : starts_nothing (run_calls cs).
Proof.
  induction cs as [|c cs IH]; intros s; [by eauto|].
  simpl. destruct (IH (run_call c s)) as [H1 H2].
  destruct (starts_nothing_run_call c s) as [H3 H4].
  split; [congruence|].
  intros cid coro' H Hr. destruct (H2 cid coro' H Hr) as (coro1 & Hl1 & Hr1).
  eauto.
Qed.

Lemma starts_nothing_wake (timeout : pyfloat) (c0 : Z) :
  starts_nothing (wake timeout c0).
Proof.
  intros s. unfold wake. destruct (_coros s !! c0) as [coro|] eqn:E; [|by eauto].
  destruct (deadline_is _ _); [|by eauto]. destruct (decide _); [|by eauto].
  simpl. split; [done|]. intros cid' coro' H Hr. insert_cases cid' c0 H.
Qed.

Lemma starts_nothing_wake_timed_suspends (t : Z) :
  starts_nothing (wake_timed_suspends t).
Proof.
  intros s.
  apply (wake_timed_suspends_ind
           (fun s' =>
              _cur_coro s' = _cur_coro s
              /\ forall cid coro',
                   _coros s' !! cid = Some coro' -> _state coro' = Running ->
                   exists coro, _coros s !! cid = Some coro
                                /\ _state coro = Running)).
  - intros timeout cid s' [H1 H2].
    destruct (starts_nothing_wake timeout cid s') as [H3 H4].
    split; [congruence|].
    intros cid' coro' H Hr.
    destruct (H4 cid' coro' H Hr) as (coro1 & Hl1 & Hr1). eauto.
  - intros heap s' H. exact H.
  - eauto.
Qed.

Lemma quiescent_starts_nothing (f : AsynCoro -> AsynCoro) (s : AsynCoro) :
  starts_nothing f -> quiescent s -> quiescent (f s).
Proof.
  intros Hf [Hcur Hno]. destruct (Hf s) as [H1 H2]. split; [congruence|].
  intros cid coro' H Hr. destruct (H2 cid coro' H Hr) as (coro & Hl & Hr').
  by eapply Hno.
Qed.

Lemma stepping_begin_step (cid : Z) (s s1 : AsynCoro)
      (pending : option (exc_kind * pyval)) :
  quiescent s -> begin_step cid s = Some (pending, s1) -> stepping cid s1.
Proof.
  intros [Hcur Hno]. unfold begin_step.
  destruct (_coros s !! cid) as [coro|] eqn:E; [|done].
  destruct (decide (_state coro = Scheduled)); [|done].
  intros [= _ <-]. split; [done|]. simpl.
  intros c coro' H Hr. destruct (decide (c = cid)) as [->|Hne]; [done|].
  rewrite lookup_insert_ne in H by done. by destruct (Hno c coro' H).
Qed.

Lemma stepping_starts_nothing (f : AsynCoro -> AsynCoro) (cid : Z)
      (s : AsynCoro) :
  starts_nothing f -> stepping cid s -> stepping cid (f s).
Proof.
  intros Hf [Hcur Hone]. destruct (Hf s) as [H1 H2]. split; [congruence|].
  intros c coro' H Hr. destruct (H2 c coro' H Hr) as (coro & Hl & Hr').
  by eapply Hone.
Qed.

Lemma quiescent_step_raised (cid : Z) (kind : exc_kind) (payload : pyval)
      (s : AsynCoro) :
  ids_ok s -> stepping cid s -> quiescent (step_raised cid kind payload s).
Proof.
  intros Hids [Hcur Hone]. unfold step_raised. cbn [set_cur_coro _coros].
  destruct (_coros s !! cid) as [coro|] eqn:E.
  - assert (Hid : _id coro = cid) by (by apply Hids).
    destruct (reverse (_callers coro)) as [|caller callers].
    + rewrite Hid. destruct (decide (cid = cid)); [|done].
      assert (Hdel : forall c coro', delete cid (_coros s) !! c = Some coro' ->
                                     _state coro' <> Running).
      { intros c coro' H Hr. apply lookup_delete_Some in H as [Hne H].
        by specialize (Hone c coro' H Hr). }
      by destruct (decide (_state coro = Suspended)); split.
    + split; [done|]. simpl. intros c coro' H Hr.
      destruct (decide (c = cid)) as [->|Hne].
      * rewrite lookup_insert_eq in H. by inversion H; subst.
      * rewrite lookup_insert_ne in H by done. by specialize (Hone c coro' H Hr).
  - split; [done|]. simpl. intros c coro' H Hr.
    specialize (Hone c coro' H Hr). congruence.
Qed.

Lemma quiescent_step_returned (cid : Z) (r : option pyval) (s : AsynCoro) :
  stepping cid s -> quiescent (step_returned cid r s).1.
Proof.
  intros [Hcur Hone]. unfold step_returned. cbn [set_cur_coro _coros].
  destruct (_coros s !! cid) as [coro|] eqn:E.
  - assert (Hsc : forall c1 : Coro,
               _state c1 <> Running ->
               quiescent (set_coro cid c1 (set_cur_coro None s))).
    { intros c1 Hc1. split; [done|]. simpl. intros c coro' H Hr.
      destruct (decide (c = cid)) as [->|Hne].
      - rewrite lookup_insert_eq in H. by inversion H; subst.
      - rewrite lookup_insert_ne in H by done.
        by specialize (Hone c coro' H Hr). }
    destruct r as [v|]; [destruct v|]; simpl; apply Hsc; simpl.
    all: by destruct (decide (_state coro = Running)).
  - assert (quiescent (set_cur_coro None s)).
    { split; [done|]. simpl. intros c coro' H Hr.
      specialize (Hone c coro' H Hr). congruence. }
    by destruct r.
Qed.

Lemma quiescent_run_coro (act : activity) (cid : Z) (th : thread) :
  well_formed (sched th) -> quiescent (sched th) ->
  quiescent (sched (run_coro act cid th)).
Proof.
  intros Hwf Hq. unfold run_coro. destruct (died th); [done|].
  pose proof (well_formed_run_calls (foreign act) _ Hwf) as Hwf1.
  pose proof (quiescent_starts_nothing _ _
                (starts_nothing_run_calls (foreign act)) Hq) as Hq1.
  destruct (begin_step cid (run_calls (foreign act) (sched th)))
    as [[pending s1]|] eqn:Hb; [|done].
  pose proof (well_formed_begin_step _ _ _ _ Hwf1 Hb) as Hwf2.
  pose proof (stepping_begin_step _ _ _ _ Hq1 Hb) as Hst.
  apply (stepping_starts_nothing _ _ _ (starts_nothing_run_calls (calls act)))
    in Hst.
  pose proof (well_formed_run_calls (calls act) _ Hwf2) as Hwf3.
  destruct (try_block pending (response act)) as [new_retval|kind payload].
  - pose proof (quiescent_step_returned cid
                  match new_retval with Some v => Some v | None => retval th end
                  _ Hst) as Hq3.
    by destruct (step_returned _ _ _).
  - simpl. apply quiescent_step_raised; [apply Hwf3 | done].
Qed.

(** X12. At most one coroutine runs at a time.  If no coroutine is
    running in a well-formed state, then none is running after a whole
    turn of the scheduling loop, whatever the generators do and whatever
    calls arrive; and during the step of a coroutine, however many calls
    are made on the scheduler, every coroutine in state [Running] is that
    one and it is the scheduler's current coroutine. *)
Theorem single_runner (s : AsynCoro) :
  well_formed s ->
  quiescent s ->
  (forall polled t acts r,
      quiescent (sched (schedule_turn polled t acts
                          {| sched := s; retval := r; died := None |})))
  /\ (forall cid pending s1 cs,
         begin_step cid s = Some (pending, s1) ->
         _cur_coro (run_calls cs s1) = Some cid
         /\ forall c coro,
              _coros (run_calls cs s1) !! c = Some coro ->
              _state coro = Running -> c = cid).
Proof.
  intros Hwf Hq. split.
  - intros polled t acts r. unfold schedule_turn. cbn [died sched retval].
    set (s0 := wake_timed_suspends t (run_calls polled s)).
    assert (Hwf0 : well_formed s0)
      by (by apply well_formed_wake_timed_suspends, well_formed_run_calls).
    assert (Hq0 : quiescent s0).
    { apply (quiescent_starts_nothing _ _ (starts_nothing_wake_timed_suspends t)).
      by apply (quiescent_starts_nothing _ _ (starts_nothing_run_calls polled)). }
    generalize (elements (_scheduled s0)). intros cids.
    change s0 with (sched {| sched := s0; retval := r; died := None |})
      in Hwf0, Hq0.
    revert Hwf0 Hq0. generalize {| sched := s0; retval := r; died := None |}.
    induction cids as [|cid cids IH]; intros th Hwf0 Hq0; [done|].
    simpl. apply IH; [by apply well_formed_run_coro | by apply quiescent_run_coro].
  - intros cid pending s1 cs Hb.
    pose proof (stepping_begin_step _ _ _ _ Hq Hb) as Hst.
    by apply (stepping_starts_nothing _ _ _ (starts_nothing_run_calls cs)) in Hst.
Qed.

Lemma single_runner_witness :
  quiescent
    (sched (schedule_turn [CallCoro 0%nat] 0
              (fun _ => {| foreign := []; calls := [];
                           response := Yields PNone |})
              {| sched := AsynCoro_init; retval := None; died := None |})).
Proof.
  assert (Hq : quiescent AsynCoro_init).
  { split; [reflexivity|]. intros cid coro H. cbn in H.
    by rewrite lookup_empty in H. }
  destruct (single_runner AsynCoro_init well_formed_init Hq) as [H _].
  apply H.
Defined.

Lemma begin_step_eq (cid : Z) (coro : Coro) (s : AsynCoro) :
  _coros s !! cid = Some coro -> _state coro = Scheduled ->
  begin_step cid s
  = Some (_exception coro,
          set_cur_coro (Some cid)
            (set_coro cid
               {| _id := _id coro; _generator := _generator coro;
                  _state := Running; _value := _value coro;
                  _exception := None; _callers := _callers coro;
                  _timeout := _timeout coro |} s)).
Proof.
  intros Hlook Hst. unfold begin_step. rewrite Hlook.
  by destruct (decide (_state coro = Scheduled)).
Qed.

(** X10. A coroutine leaves the scheduler when its outermost generator
    ends: if a ready coroutine with an empty caller stack is stepped and
    the step ends in an exception ([StopIteration] when the generator
    finishes), without a call on the scheduler on the way, then it is
    gone from the table and from both sets, nothing else changes (the
    other coroutines, the heap of deadlines, the id counter and the wake
    socket are as before), and the scheduler goes on. *)
Theorem root_exit_removes (s : AsynCoro) (cid : Z) (coro : Coro)
        (act : activity) (r : option pyval) (kind : exc_kind) (payload : pyval) :
  well_formed s ->
  _coros s !! cid = Some coro ->
  _state coro = Scheduled ->
  _callers coro = [] ->
  cid ∈ _scheduled s ->
  foreign act = [] -> calls act = [] ->
  try_block (_exception coro) (response act) = Excepted kind payload ->
  let th := run_coro act cid {| sched := s; retval := r; died := None |} in
  _coros (sched th) !! cid = None
  /\ cid ∉ _scheduled (sched th)
  /\ cid ∉ _suspended (sched th)
  /\ _scheduled (sched th) = _scheduled s ∖ {[cid]}
  /\ _suspended (sched th) = _suspended s
  /\ (forall other, other <> cid ->
                    _coros (sched th) !! other = _coros s !! other)
  /\ _cur_coro (sched th) = None
  /\ died th = None /\ retval th = r
  /\ _timeouts (sched th) = _timeouts s
  /\ _coro_id (sched th) = _coro_id s
  /\ _cmd_wsock (sched th) = _cmd_wsock s.
Proof.
  intros Hwf Hlook Hst Hcallers Hin Hf Hc Htry th.
  assert (Hid : _id coro = cid) by (by apply Hwf).
  destruct Hwf as ((Hd & _) & _).
  subst th. unfold run_coro. cbn [died sched retval].
  rewrite Hf. cbn [run_calls foldl].
  rewrite (begin_step_eq cid coro) by done.
  rewrite Hc, Htry. cbn [run_calls foldl sched died retval].
  unfold step_raised. cbn [set_cur_coro _coros set_coro].
  rewrite lookup_insert_eq. cbn [_callers _id _state]. rewrite Hcallers.
  cbn [reverse rev_append]. rewrite Hid.
  destruct (decide (cid = cid)); [|done].
  destruct (decide (Running = Suspended)); [done|].
  cbn. rewrite delete_insert_eq.
  split; [apply lookup_delete_eq|].
  split; [set_solver|]. split; [set_solver|].
  split; [done|]. split; [done|].
  split; [|done]. intros other Hne. by rewrite lookup_delete_ne.
Qed.

Lemma well_formed_ready_example : well_formed ready_example.
Proof.
  unfold well_formed, sets_partition, ids_ok, ids_bounded, ready_example.
  cbn [_coros _scheduled _suspended _coro_id].
  split; [split|split].
  - set_solver.
  - intros cid [c Hc]. apply lookup_singleton_Some in Hc as [<- _].
    left. set_solver.
  - intros cid c Hc. by apply lookup_singleton_Some in Hc as [<- <-].
  - intros cid Hc. assert (cid = 1) by set_solver. lia.
Qed.

Lemma root_exit_removes_witness :
  let th := run_coro {| foreign := []; calls := [];
                        response := Raises StopIteration PNone |} 1
                     {| sched := ready_example; retval := None; died := None |} in
  _coros (sched th) !! 1 = None
  /\ 1 ∉ _scheduled (sched th)
  /\ 1 ∉ _suspended (sched th)
  /\ died th = None.
Proof.
  destruct (root_exit_removes ready_example 1
              {| _id := 1; _generator := 0%nat; _state := Scheduled;
                 _value := PNone; _exception := None;
                 _callers := []; _timeout := None |}
              {| foreign := []; calls := [];
                 response := Raises StopIteration PNone |}
              None StopIteration PNone well_formed_ready_example)
    as (H1 & H2 & H3 & _ & _ & _ & _ & H4 & _ & _ & _ & _);
    [reflexivity | reflexivity | reflexivity
    | vm_compute; reflexivity
    | reflexivity | reflexivity | reflexivity |].
  auto.
Defined.

(** A step in which the generator calls nothing and yields [v]. *)
Lemma step_yields (s : AsynCoro) (cid : Z) (coro : Coro) (v : pyval)
      (th : thread) :
  sched th = s -> died th = None ->
  _coros s !! cid = Some coro -> _state coro = Scheduled ->
  _exception coro = None ->
  let th' := run_coro {| foreign := []; calls := []; response := Yields v |}
                      cid th in
  died th' = None
  /\ retval th' = Some v
  /\ _coros (sched th') !! cid
     = Some match v with
            | PGenerator g =>
                {| _id := _id coro; _generator := g; _state := Scheduled;
                   _value := PNone; _exception := None;
                   _callers := _callers coro ++ [(_generator coro, v)];
                   _timeout := _timeout coro |}
            | _ =>
                {| _id := _id coro; _generator := _generator coro;
                   _state := Scheduled; _value := v; _exception := None;
                   _callers := _callers coro; _timeout := _timeout coro |}
            end.
Proof.
  intros Hs Hd Hlook Hst Hexc th'. subst th'. unfold run_coro.
  rewrite Hd, Hs. cbn [foreign calls response run_calls foldl].
  rewrite (begin_step_eq cid coro) by done. rewrite Hexc.
  cbn [try_block]. unfold step_returned. cbn [set_cur_coro _coros set_coro].
  rewrite lookup_insert_eq. cbn [_state].
  destruct (decide (Running = Running)); [|done].
  destruct v; cbn; by rewrite lookup_insert_eq.
Qed.

(** A step in which the generator of a sub-call calls nothing and ends
    with an exception. *)
Lemma step_raises_to_caller (s : AsynCoro) (cid : Z) (coro : Coro)
      (kind : exc_kind) (payload : pyval) (th : thread)
      (callers : list (nat * pyval)) (caller : nat * pyval) :
  sched th = s -> died th = None ->
  _coros s !! cid = Some coro -> _state coro = Scheduled ->
  _exception coro = None ->
  _callers coro = callers ++ [caller] ->
  let th' := run_coro {| foreign := []; calls := [];
                         response := Raises kind payload |} cid th in
  died th' = None
  /\ _coros (sched th') !! cid
     = Some {| _id := _id coro; _generator := caller.1; _state := Scheduled;
               _value := if decide (kind = StopIteration)
                         then _value coro else caller.2;
               _exception := if decide (kind = StopIteration)
                             then None else Some (kind, payload);
               _callers := callers; _timeout := _timeout coro |}.
Proof.
  intros Hs Hd Hlook Hst Hexc Hcallers th'. subst th'. unfold run_coro.
  rewrite Hd, Hs. cbn [foreign calls response run_calls foldl].
  rewrite (begin_step_eq cid coro) by done. rewrite Hexc.
  cbn [try_block sched died]. split; [done|].
  unfold step_raised. cbn [set_cur_coro _coros set_coro].
  rewrite lookup_insert_eq. cbn [_callers _value _id _timeout].
  rewrite Hcallers, reverse_app, reverse_singleton. cbn [app].
  cbn. rewrite lookup_insert_eq, reverse_involutive.
  by destruct (decide (kind = StopIteration)).
Qed.

(** X11. Calling a sub-generator and coming back from it.  When a
    coroutine yields a generator, that generator becomes the one stepped
    and the yielding one is pushed on the caller stack; when the
    sub-generator, having yielded [v], finishes, the caller is back in
    place with the stack as before, and [v], the last value the
    sub-generator yielded, is what the caller is sent next; when instead
    the sub-generator raises, the caller is back in place with that
    exception pending (and, as the value saved at the call, the
    sub-generator object). *)
Theorem subgenerator_returns (s : AsynCoro) (cid : Z) (coro : Coro)
        (g1 : nat) (v payload : pyval) (r : option pyval) :
  _coros s !! cid = Some coro ->
  _state coro = Scheduled ->
  _exception coro = None ->
  (forall g, v <> PGenerator g) ->
  let step resp th :=
    run_coro {| foreign := []; calls := []; response := resp |} cid th in
  let th1 := step (Yields (PGenerator g1))
                  {| sched := s; retval := r; died := None |} in
  let th2 := step (Yields v) th1 in
  (exists coro1,
      _coros (sched th1) !! cid = Some coro1
      /\ _generator coro1 = g1
      /\ _callers coro1 = _callers coro ++ [(_generator coro, PGenerator g1)]
      /\ _value coro1 = PNone)
  /\ _coros (sched (step (Raises StopIteration payload) th2)) !! cid
     = Some {| _id := _id coro; _generator := _generator coro;
               _state := Scheduled; _value := v; _exception := None;
               _callers := _callers coro; _timeout := _timeout coro |}
  /\ (forall kind, kind <> StopIteration ->
        _coros (sched (step (Raises kind payload) th2)) !! cid
        = Some {| _id := _id coro; _generator := _generator coro;
                  _state := Scheduled; _value := PGenerator g1;
                  _exception := Some (kind, payload);
                  _callers := _callers coro; _timeout := _timeout coro |}).
Proof.
  intros Hlook Hst Hexc Hv. cbv zeta.
  set (th1 := run_coro {| foreign := []; calls := [];
                          response := Yields (PGenerator g1) |} cid
                       {| sched := s; retval := r; died := None |}).
  set (th2 := run_coro {| foreign := []; calls := []; response := Yields v |}
                       cid th1).
  pose proof (step_yields s cid coro (PGenerator g1)
                {| sched := s; retval := r; died := None |}
                eq_refl eq_refl Hlook Hst Hexc) as H1.
  cbv zeta in H1. fold th1 in H1. destruct H1 as (Hd1 & _ & Hl1).
  pose proof (step_yields (sched th1) cid _ v th1 eq_refl Hd1 Hl1
                eq_refl eq_refl) as H2.
  cbv zeta in H2. fold th2 in H2. destruct H2 as (Hd2 & _ & Hl2).
  assert (Hl2' : _coros (sched th2) !! cid
                 = Some {| _id := _id coro; _generator := g1;
                           _state := Scheduled; _value := v;
                           _exception := None;
                           _callers := _callers coro
                                       ++ [(_generator coro, PGenerator g1)];
                           _timeout := _timeout coro |}).
  { rewrite Hl2. destruct v; try done. by destruct (Hv g). }
  split; [eexists; split; [exact Hl1|]; done|].
  split.
  - pose proof (step_raises_to_caller (sched th2) cid _ StopIteration payload
                  th2 (_callers coro) (_generator coro, PGenerator g1)
                  eq_refl Hd2 Hl2' eq_refl eq_refl eq_refl) as H3.
    cbv zeta in H3. by destruct H3 as (_ & ->).
  - intros kind Hk.
    pose proof (step_raises_to_caller (sched th2) cid _ kind payload
                  th2 (_callers coro) (_generator coro, PGenerator g1)
                  eq_refl Hd2 Hl2' eq_refl eq_refl eq_refl) as H3.
    cbv zeta in H3. destruct H3 as (_ & ->).
    by destruct (decide (kind = StopIteration)).
Qed.

Lemma subgenerator_returns_witness :
  let step resp th :=
    run_coro {| foreign := []; calls := []; response := resp |} 1 th in
  let th2 := step (Yields (PInt 42))
               (step (Yields (PGenerator 9))
                     {| sched := ready_example; retval := None; died := None |}) in
  _coros (sched (step (Raises StopIteration PNone) th2)) !! 1
  = Some {| _id := 1; _generator := 0%nat; _state := Scheduled;
            _value := PInt 42; _exception := None; _callers := [];
            _timeout := None |}.
Proof.
  destruct (subgenerator_returns ready_example 1
              {| _id := 1; _generator := 0%nat; _state := Scheduled;
                 _value := PNone; _exception := None;
                 _callers := []; _timeout := None |}
              9 (PInt 42) PNone None) as (_ & H & _);
    [reflexivity | reflexivity | reflexivity | discriminate |].
  exact H.
Defined.

(** X13. The step that serves a termination assigns nothing to the
    loop's local [retval].  When a coroutine with a pending
    [GeneratorExit] is stepped and its generator closes normally: if
    [retval] has never been assigned, the scheduler thread dies with
    [UnboundLocalError], whatever calls were made; if it holds the value
    [v] left by an earlier step, the coroutine is not removed but stays
    [Scheduled], with [v] staged as its next value, or, when [v] is a
    generator, with [v] installed as its generator. *)
Theorem close_leaves_retval (s : AsynCoro) (cid : Z) (coro : Coro)
        (act : activity) (payload q : pyval) (kind : exc_kind) :
  _coros s !! cid = Some coro ->
  _state coro = Scheduled ->
  _exception coro = Some (GeneratorExit, payload) ->
  foreign act = [] ->
  response act = Raises kind q ->
  kind = StopIteration \/ kind = GeneratorExit ->
  died (run_coro act cid {| sched := s; retval := None; died := None |})
  = Some UnboundLocalError
  /\ (forall v,
        calls act = [] ->
        let th := run_coro act cid {| sched := s; retval := Some v; died := None |} in
        died th = None
        /\ retval th = Some v
        /\ _coros (sched th) !! cid
           = Some match v with
                  | PGenerator g =>
                      {| _id := _id coro; _generator := g; _state := Scheduled;
                         _value := PNone; _exception := None;
                         _callers := _callers coro ++ [(_generator coro, v)];
                         _timeout := _timeout coro |}
                  | _ =>
                      {| _id := _id coro; _generator := _generator coro;
                         _state := Scheduled; _value := v; _exception := None;
                         _callers := _callers coro; _timeout := _timeout coro |}
                  end).
Proof.
  intros Hlook Hst Hexc Hf Hresp Hkind.
  assert (Htry : try_block (Some (GeneratorExit, payload)) (response act)
                 = Completed None)
    by (rewrite Hresp; by destruct Hkind as [-> | ->]).
  split.
  - unfold run_coro. cbn [died sched retval]. rewrite Hf.
    cbn [run_calls foldl]. rewrite (begin_step_eq cid coro) by done.
    rewrite Hexc, Htry.
    unfold step_returned.
    destruct (_coros (set_cur_coro None _) !! cid); by cbn.
  - intros v Hc th. subst th. unfold run_coro. cbn [died sched retval].
    rewrite Hf, Hc. cbn [run_calls foldl].
    rewrite (begin_step_eq cid coro) by done. rewrite Hexc, Htry.
    unfold step_returned. cbn [set_cur_coro _coros set_coro].
    rewrite lookup_insert_eq. cbn [_state].
    destruct (decide (Running = Running)); [|done].
    destruct v; cbn; by rewrite lookup_insert_eq.
Qed.

Lemma close_leaves_retval_witness :
  let s := (_terminate_coro 1 (_add 7 AsynCoro_init).2).2 in
  died (run_coro {| foreign := []; calls := [];
                    response := Raises GeneratorExit PNone |} 1
                 {| sched := s; retval := None; died := None |})
  = Some UnboundLocalError.
Proof.
  destruct (close_leaves_retval (_terminate_coro 1 (_add 7 AsynCoro_init).2).2 1
              {| _id := 1; _generator := 7%nat; _state := Scheduled;
                 _value := PNone;
                 _exception := Some (GeneratorExit, PExc GeneratorExit "close");
                 _callers := []; _timeout := None |}
              {| foreign := []; calls := [];
                 response := Raises GeneratorExit PNone |}
              (PExc GeneratorExit "close") PNone GeneratorExit) as [H _];
    [vm_compute; reflexivity | reflexivity | reflexivity | reflexivity
    | reflexivity | by right |].
  exact H.
Defined.

Section stranded.
Variables (cid : Z) (g : nat).

Local Ltac keep_stranded Hnin c :=
  split;
  [ simpl; set_solver
  | simpl; destruct (decide (c = cid)) as [->|?];
    [ rewrite lookup_insert_eq; eexists; split; [reflexivity|];
      simpl; split; congruence
    | rewrite lookup_insert_ne by done; eauto ] ].

Lemma stranded_interrupt (b : byte) (s : AsynCoro) :
  stranded cid g s -> stranded cid g (interrupt_notifier b s).
Proof. unfold interrupt_notifier. by destruct (decide _). Qed.

Lemma stranded_run_call (c : call) (s : AsynCoro) :
  well_formed s -> stranded cid g s -> stranded cid g (run_call c s).
Proof.
  intros Hwf (Hnin & coro0 & Hl0 & Hst0 & Hg0).
  assert (Hlt : cid < _coro_id s) by (apply well_formed_known; eauto).
  destruct c as [g' | now c timeout | c v | c kind payload | c]; simpl.
  - unfold _add. simpl. apply stranded_interrupt.
    split; [simpl; set_solver by lia|]. simpl.
    rewrite lookup_insert_ne by lia. eauto.
  - unfold Coro_suspend, _suspend.
    destruct (_coros s !! c) as [coro|] eqn:E; [|by split; eauto].
    destruct (invalid_timeout timeout); [by split; eauto|].
    destruct (decide (_state coro = Running)) as [Hr|]; [|by split; eauto].
    assert (c <> cid) by (intros ->; congruence).
    destruct (seconds timeout); keep_stranded Hnin c.
  - unfold Coro_resume, _resume.
    destruct (_coros s !! c) as [coro|] eqn:E; [|by split; eauto].
    destruct (decide (_state coro = Scheduled)).
    + destruct (_exception coro) as [[k p]|]; [|by split; eauto].
      destruct (decide (k <> GeneratorExit)); [|by split; eauto].
      keep_stranded Hnin c.
    + assert (c <> cid) by (intros ->; congruence).
      keep_stranded Hnin c.
  - unfold Coro_throw, _throw.
    destruct (_coros s !! c) as [coro|] eqn:E; [|by split; eauto].
    assert (Hid : _id coro = c) by (by apply Hwf).
    destruct (decide (_state coro = Scheduled \/ _state coro = Suspended));
      [|by split; eauto].
    simpl. apply stranded_interrupt. rewrite Hid.
    destruct (decide (_state coro = Suspended)) as [Hs|].
    + assert (c <> cid) by (intros ->; congruence).
      keep_stranded Hnin c.
    + keep_stranded Hnin c.
  - unfold Coro_terminate, _terminate_coro.
    destruct (_coros s !! c) as [coro|] eqn:E; [|by split; eauto].
    simpl. apply stranded_interrupt.
    destruct (decide (_state coro = Suspended)) as [Hs|].
    + assert (c <> cid) by (intros ->; congruence).
      keep_stranded Hnin c.
    + keep_stranded Hnin c.
Qed.

Lemma stranded_run_calls (cs : list call) (s : AsynCoro) :
  well_formed s -> stranded cid g s ->
  well_formed (run_calls cs s) /\ stranded cid g (run_calls cs s).
Proof.
  revert s. induction cs as [|c cs IH]; intros s Hwf Hs; [done|].
  simpl. apply IH; [by apply well_formed_run_call | by apply stranded_run_call].
Qed.

Lemma stranded_wake (timeout : pyfloat) (c : Z) (s : AsynCoro) :
  well_formed s -> stranded cid g s -> stranded cid g (wake timeout c s).
Proof.
  intros Hwf (Hnin & coro0 & Hl0 & Hst0 & Hg0). unfold wake.
  destruct (_coros s !! c) as [coro|] eqn:E; [|by split; eauto].
  assert (Hid : _id coro = c) by (by apply Hwf).
  destruct (deadline_is _ _); [|by split; eauto].
  destruct (decide (_state coro = Suspended)) as [Hs|]; [|by split; eauto].
  assert (c <> cid) by (intros ->; congruence).
  rewrite Hid. keep_stranded Hnin c.
Qed.

Lemma stranded_wake_timed_suspends (t : Z) (s : AsynCoro) :
  well_formed s -> stranded cid g s ->
  stranded cid g (wake_timed_suspends t s).
Proof.
  intros Hwf Hs.
  apply (wake_timed_suspends_ind
           (fun s' => well_formed s' /\ stranded cid g s')).
  - intros timeout c s' [Hwf' Hs'].
    split; [by apply well_formed_wake | by apply stranded_wake].
  - intros heap s' H. exact H.
  - by split.
Qed.

Lemma stranded_run_coro (act : activity) (c : Z) (th : thread) :
  c <> cid ->
  well_formed (sched th) -> stranded cid g (sched th) ->
  stranded cid g (sched (run_coro act c th)).
Proof.
  intros Hne Hwf Hs. unfold run_coro. destruct (died th); [done|].
  destruct (stranded_run_calls (foreign act) _ Hwf Hs) as [Hwf1 Hs1].
  destruct (begin_step c (run_calls (foreign act) (sched th)))
    as [[pending s1]|] eqn:Hb; [|done].
  pose proof (well_formed_begin_step _ _ _ _ Hwf1 Hb) as Hwf2.
  assert (Hs2 : stranded cid g s1).
  { revert Hb. unfold begin_step.
    destruct (_coros _ !! c) as [coro|] eqn:E; [|done].
    destruct (decide (_state coro = Scheduled)); [|done].
    intros [= _ <-]. destruct Hs1 as (Hnin & coro0 & Hl0 & Hst0 & Hg0).
    split; [done|]. simpl. rewrite lookup_insert_ne by done. eauto. }
  destruct (stranded_run_calls (calls act) _ Hwf2 Hs2) as [Hwf3 Hs3].
  destruct Hs3 as (Hnin & coro0 & Hl0 & Hst0 & Hg0).
  destruct (try_block pending (response act)) as [new_retval|kind payload].
  - assert (H : stranded cid g
                  (step_returned c
                     match new_retval with
                     | Some v => Some v
                     | None => retval th
                     end (run_calls (calls act) s1)).1).
    { assert (Hset : forall x s', stranded cid g s' ->
                                  stranded cid g (set_coro c x s')).
      { intros x s' (Hn' & coro' & Hl' & Hst' & Hg'). split; [done|].
        cbn [set_coro _coros]. rewrite lookup_insert_ne by done. eauto. }
      assert (Hcur : stranded cid g
                       (set_cur_coro None (run_calls (calls act) s1)))
        by (split; eauto).
      unfold step_returned.
      destruct (_coros _ !! c) as [coro|] eqn:E.
      - destruct (match new_retval with Some v => Some v | None => retval th end)
          as [[]|]; cbn [fst]; by apply Hset.
      - by destruct (match new_retval with Some v => Some v | None => retval th end). }
    by destruct (step_returned _ _ _).
  - simpl. unfold step_raised. cbn [set_cur_coro _coros].
    destruct (_coros _ !! c) as [coro|] eqn:E; [|by split; eauto].
    assert (Hid : _id coro = c) by (by apply Hwf3).
    destruct (reverse (_callers coro)) as [|caller callers].
    + rewrite Hid. destruct (decide (c = c)); [|done].
      destruct (decide (_state coro = Suspended)).
      all: split; [cbn [set_sets _scheduled]; set_solver|].
      all: cbn [set_sets _coros]; rewrite lookup_delete_ne by done; eauto.
    + split; [done|]. simpl. rewrite lookup_insert_ne by done. eauto.
Qed.
End stranded.

(** X14. A coroutine can be lost.  When the sub-generator of a ready
    coroutine calls [suspend()] and then finishes in the same step, the
    caller is put back in state [Scheduled] while the coroutine sits in
    the suspended set.  From such a state, in state [Scheduled] but
    outside the ready set, no [resume], [throw], [terminate] or timer and
    no turn of the scheduling loop ever brings it back: it stays outside
    the ready set with the same generator, so it is never stepped again. *)
Theorem stranded_forever (s : AsynCoro) (cid : Z) (g : nat) :
  well_formed s ->
  (forall coro callers caller now payload r,
      _coros s !! cid = Some coro -> _state coro = Scheduled ->
      _exception coro = None ->
      _callers coro = callers ++ [caller] -> caller.1 = g ->
      cid ∈ _scheduled s ->
      let th := run_coro {| foreign := [];
                            calls := [CallSuspend now cid PNone];
                            response := Raises StopIteration payload |}
                         cid {| sched := s; retval := r; died := None |} in
      stranded cid g (sched th) /\ cid ∈ _suspended (sched th))
  /\ (stranded cid g s ->
      (forall c, stranded cid g (run_call c s))
      /\ (forall t, stranded cid g (wake_timed_suspends t s))
      /\ (forall polled t acts r,
             stranded cid g
               (sched (schedule_turn polled t acts
                         {| sched := s; retval := r; died := None |})))).
Proof.
  intros Hwf. split.
  - intros coro callers caller now payload r Hlook Hst Hexc Hcallers Hg Hin th.
    assert (Hid : _id coro = cid) by (by apply Hwf).
    subst th. unfold run_coro. cbn [died sched retval foreign calls response].
    cbn [run_calls foldl]. rewrite (begin_step_eq cid coro) by done.
    rewrite Hexc. cbn [try_block run_calls foldl run_call].
    unfold Coro_suspend, _suspend. cbn [set_cur_coro set_coro _coros].
    rewrite lookup_insert_eq. cbn [invalid_timeout _state seconds].
    destruct (decide (Running = Running)); [|done].
    cbn [snd sched]. unfold step_raised.
    cbn [set_cur_coro set_coro set_sets _coros].
    rewrite lookup_insert_eq. cbn [_callers _id _state _value].
    rewrite Hcallers, reverse_app, reverse_singleton. cbn [app].
    destruct (decide (StopIteration = StopIteration)); [|done].
    split; [split|]; simpl.
    + set_solver.
    + rewrite lookup_insert_eq. eexists. by split.
    + set_solver.
  - intros Hs. split; [|split].
    + intros c. by apply stranded_run_call.
    + intros t. by apply stranded_wake_timed_suspends.
    + intros polled t acts r. unfold schedule_turn. cbn [died sched retval].
      destruct (stranded_run_calls cid g polled s Hwf Hs) as [Hwf1 Hs1].
      set (s0 := wake_timed_suspends t (run_calls polled s)).
      assert (Hwf0 : well_formed s0)
        by (by apply well_formed_wake_timed_suspends).
      assert (Hs0 : stranded cid g s0)
        by (by apply stranded_wake_timed_suspends).
      assert (Hnot : cid ∉ elements (_scheduled s0)).
      { rewrite elem_of_elements. apply Hs0. }
      revert Hnot. generalize (elements (_scheduled s0)). intros cids Hnot.
      change s0 with (sched {| sched := s0; retval := r; died := None |})
        in Hwf0, Hs0.
      revert Hwf0 Hs0. generalize {| sched := s0; retval := r; died := None |}.
      induction cids as [|c cids IH]; intros th Hwf0 Hs0; [done|].
      apply not_elem_of_cons in Hnot as [Hne Hnot].
      simpl. apply IH; [done | by apply well_formed_run_coro|].
      by apply stranded_run_coro.
Qed.

Lemma well_formed_calling_example : well_formed calling_example.
Proof.
  unfold well_formed, sets_partition, ids_ok, ids_bounded, calling_example.
  cbn [_coros _scheduled _suspended _coro_id].
  split; [split|split].
  - set_solver.
  - intros cid [c Hc]. apply lookup_singleton_Some in Hc as [<- _].
    left. set_solver.
  - intros cid c Hc. by apply lookup_singleton_Some in Hc as [<- <-].
  - intros cid Hc. assert (cid = 1) by set_solver. lia.
Qed.

Lemma stranded_forever_witness :
  let th := run_coro {| foreign := [];
                        calls := [CallSuspend 0 1 PNone];
                        response := Raises StopIteration PNone |}
                     1 {| sched := calling_example; retval := None;
                          died := None |} in
  stranded 1 0 (sched th) /\ 1 ∈ _suspended (sched th).
Proof.
  destruct (stranded_forever calling_example 1 0 well_formed_calling_example)
    as [H _].
  apply (H {| _id := 1; _generator := 5%nat; _state := Scheduled;
              _value := PNone; _exception := None;
              _callers := [(0%nat, PGenerator 5)]; _timeout := None |}
           [] (0%nat, PGenerator 5) 0 PNone None);
    reflexivity.
Defined.

(** ** Locks and condition variables *)

(** X15. The lock protocol, for a call made by the current coroutine
    [c]: [acquire] of a free lock makes [c] the owner; [acquire] of a
    lock that is held, by [c] itself or by another, fails the assertion
    and leaves the owner in place (the lock is not re-entrant);
    [release] by the owner frees the lock; [release] by another
    coroutine fails the assertion and [release] of a free lock raises
    [AttributeError], both leaving the lock as it is.  Called outside any
    coroutine, [acquire] of a free lock returns normally and the lock is
    still free. *)
Theorem lock_protocol (s : AsynCoro) (c : Z) (lock : Lock.CoroLock) :
  _cur_coro s = Some c ->
  (Lock._owner lock = None ->
   Lock.acquire lock s = (Return (), {| Lock._owner := Some c |})
   /\ Lock.release (Lock.acquire lock s).2 s = (Return (), lock)
   /\ Lock.release lock s = (Raise AttributeError "invalid lock release", lock))
  /\ (forall o, Lock._owner lock = Some o ->
        Lock.acquire lock s = (Raise AssertionError "lock owned", lock)
        /\ (o = c -> Lock.release lock s = (Return (), {| Lock._owner := None |}))
        /\ (o <> c ->
            Lock.release lock s
            = (Raise AssertionError "invalid lock release", lock)))
  /\ (forall s', _cur_coro s' = None -> Lock._owner lock = None ->
        Lock.acquire lock s' = (Return (), lock)).
Proof.
  intros Hcur. destruct lock as [owner]. cbn [Lock._owner].
  split; [|split].
  - intros ->. unfold Lock.acquire, Lock.release. cbn [Lock._owner snd].
    rewrite Hcur. split; [done|]. split.
    + by destruct (decide (Some c = Some c /\ Some c <> None)) as [_|[]].
    + by destruct (decide (None = Some c /\ Some c <> None)) as [[? _]|_].
  - intros o ->. unfold Lock.acquire, Lock.release. cbn [Lock._owner].
    rewrite Hcur. split; [done|]. split.
    + intros ->.
      by destruct (decide (Some c = Some c /\ Some c <> None)) as [_|[]].
    + intros Hne.
      destruct (decide (Some o = Some c /\ Some c <> None)) as [[? _]|_];
        [congruence | done].
  - intros s' Hcur' ->. unfold Lock.acquire. cbn [Lock._owner]. by rewrite Hcur'.
Qed.

Lemma lock_protocol_witness :
  Lock.acquire Lock.init running_example
  = (Return (), {| Lock._owner := Some 1 |})
  /\ Lock.release (Lock.acquire Lock.init running_example).2 running_example
     = (Return (), Lock.init).
Proof.
  destruct (lock_protocol running_example 1 Lock.init) as [H _];
    [reflexivity|].
  destruct H as (H1 & H2 & _); [reflexivity|]. auto.
Defined.

Lemma yield_None_idle (cid : Z) (k : Coro) (s : AsynCoro) :
  _coros s !! cid = Some k -> _state k <> Running ->
  _cur_coro (yield_None cid s) = None
  /\ _scheduled (yield_None cid s) = _scheduled s
  /\ _suspended (yield_None cid s) = _suspended s
  /\ forall c, _coros (yield_None cid s) !! c = _coros s !! c.
Proof.
  intros Hl Hst. unfold yield_None, step_returned.
  cbn [set_cur_coro _coros]. rewrite Hl.
  destruct (decide (_state k = Running)); [done|]. cbn.
  repeat split. intros c. destruct (decide (c = cid)) as [->|Hne].
  - by rewrite lookup_insert_eq.
  - by rewrite lookup_insert_ne.
Qed.

Lemma yield_None_running (cid : Z) (k : Coro) (s : AsynCoro) :
  _coros s !! cid = Some k -> _state k = Running ->
  _cur_coro (yield_None cid s) = None
  /\ _scheduled (yield_None cid s) = _scheduled s
  /\ _suspended (yield_None cid s) = _suspended s
  /\ (exists k', _coros (yield_None cid s) !! cid = Some k'
                  /\ _state k' = Scheduled /\ _value k' = PNone)
  /\ forall c, c <> cid -> _coros (yield_None cid s) !! c = _coros s !! c.
Proof.
  intros Hl Hst. unfold yield_None, step_returned.
  cbn [set_cur_coro _coros]. rewrite Hl.
  destruct (decide (_state k = Running)); [|done]. cbn.
  repeat split.
  - rewrite lookup_insert_eq. eexists. by split.
  - intros c Hne. by rewrite lookup_insert_ne.
Qed.

Lemma switch_to_scheduled (cid : Z) (k : Coro) (s : AsynCoro) :
  _coros s !! cid = Some k -> _state k = Scheduled ->
  _cur_coro (switch_to cid s) = Some cid
  /\ _scheduled (switch_to cid s) = _scheduled s
  /\ _suspended (switch_to cid s) = _suspended s
  /\ (exists k', _coros (switch_to cid s) !! cid = Some k'
                  /\ _state k' = Running /\ _value k' = _value k)
  /\ forall c, c <> cid -> _coros (switch_to cid s) !! c = _coros s !! c.
Proof.
  intros Hl Hst. unfold switch_to. rewrite (begin_step_eq cid k) by done.
  cbn. repeat split.
  - rewrite lookup_insert_eq. eexists. by split.
  - intros c Hne. by rewrite lookup_insert_ne.
Qed.

(** X16. A consumer and a producer meet on a condition variable.  The
    running consumer [c1] acquires the free condition and waits: it is
    queued and suspended, and the condition is free again.  After its
    step has ended the producer [c2] runs, acquires the condition,
    notifies and releases it: [c1] is taken off the queue and made ready
    with [None].  When [c1] is stepped again and calls [wait()] once
    more, the call returns [False] at once: the notification has not been
    lost, [c1] owns the condition, the flag is clear and the queue
    empty. *)
Theorem condition_handshake (s0 : AsynCoro) (c1 c2 : Z) (k1 k2 : Coro) :
  _cur_coro s0 = Some c1 ->
  _coros s0 !! c1 = Some k1 -> _state k1 = Running ->
  _coros s0 !! c2 = Some k2 -> _state k2 = Scheduled ->
  c1 <> c2 ->
  let a1 := CoroCondition_acquire CoroCondition_init s0 in
  let w1 := CoroCondition_wait a1.2 s0 in
  let s3 := switch_to c2 (yield_None c1 w1.2) in
  let a2 := CoroCondition_acquire w1.1.2 s3 in
  let n := CoroCondition_notify a2.2 s3 in
  let rl := CoroCondition_release n.1.2 n.2 in
  let s6 := switch_to c1 (yield_None c2 n.2) in
  a1.1 = Return ()
  /\ w1.1 = (Return true,
             {| _waitlist := [Some c1]; _owner := None; _notify := false |})
  /\ c1 ∈ _suspended w1.2 /\ c1 ∉ _scheduled w1.2
  /\ _cur_coro s3 = Some c2
  /\ a2.1 = Return ()
  /\ n.1 = (Return (),
            {| _waitlist := []; _owner := Some c2; _notify := true |})
  /\ c1 ∈ _scheduled n.2 /\ c1 ∉ _suspended n.2
  /\ rl = (Return (),
           {| _waitlist := []; _owner := None; _notify := true |})
  /\ _cur_coro s6 = Some c1
  /\ (exists k, _coros s6 !! c1 = Some k
                 /\ _state k = Running /\ _value k = PNone)
  /\ CoroCondition_wait rl.2 s6
     = (Return false,
        {| _waitlist := []; _owner := Some c1; _notify := false |}, s6).
Proof.
  intros Hcur Hl1 Hr1 Hl2 Hs2 Hne a1 w1 s3 a2 n rl s6.
  assert (Hne' : c2 <> c1) by congruence.
  (* the consumer acquires and waits *)
  assert (Ea1 : a1 = (Return (), {| _waitlist := []; _owner := Some c1;
                                    _notify := false |})).
  { subst a1. unfold CoroCondition_acquire. cbn. by rewrite Hcur. }
  set (s1 := (_suspend 0 c1 PNone s0).2).
  assert (Ew1 : w1 = (Return true,
                      {| _waitlist := [Some c1]; _owner := None;
                         _notify := false |}, s1)).
  { subst w1 s1. rewrite Ea1. unfold CoroCondition_wait.
    cbn [snd _owner _notify _waitlist]. rewrite Hcur.
    destruct (decide (Some c1 <> None /\ Some c1 <> Some c1)) as [[_ H]|_];
      [done|].
    unfold Coro_suspend. by rewrite Hl1. }
  assert (Hs1 : c1 ∈ _suspended s1 /\ c1 ∉ _scheduled s1
                /\ (exists k, _coros s1 !! c1 = Some k /\ _state k = Suspended)
                /\ _coros s1 !! c2 = Some k2).
  { subst s1. unfold _suspend. rewrite Hl1. cbn [invalid_timeout seconds].
    destruct (decide (_state k1 = Running)); [|done]. cbn.
    split; [set_solver|]. split; [set_solver|].
    rewrite lookup_insert_eq, lookup_insert_ne by done.
    split; [eexists; by split | done]. }
  destruct Hs1 as (Hsus1 & Hsch1 & (k1s & Hk1s & Hk1st) & Hk2).
  (* the consumer's step ends, the producer's begins *)
  destruct (yield_None_idle c1 k1s s1 Hk1s) as (_ & Hsch2 & Hsus2 & Hsame2);
    [congruence|].
  destruct (switch_to_scheduled c2 k2 (yield_None c1 s1))
    as (Hcur3 & Hsch3 & Hsus3 & (k2r & Hk2r & Hk2rst & _) & Hoth3);
    [by rewrite Hsame2 | done |].
  assert (Es3 : s3 = switch_to c2 (yield_None c1 s1))
    by (subst s3; by rewrite Ew1).
  assert (Hcur3' : _cur_coro s3 = Some c2) by (by rewrite Es3).
  assert (Ea2 : a2 = (Return (), {| _waitlist := [Some c1]; _owner := Some c2;
                                    _notify := false |})).
  { subst a2. rewrite Ew1. unfold CoroCondition_acquire. cbn.
    by rewrite Hcur3'. }
  assert (Hk1s3 : _coros s3 !! c1 = Some k1s)
    by (rewrite Es3, Hoth3, Hsame2 by done; done).
  set (s4 := (_resume c1 PNone s3).2).
  assert (En : n = (Return (),
                    {| _waitlist := []; _owner := Some c2; _notify := true |},
                    s4)).
  { subst n s4. rewrite Ea2. unfold CoroCondition_notify.
    cbn [snd _owner _waitlist]. rewrite Hcur3'.
    destruct (decide (Some c2 = Some c2 /\ Some c2 <> None)) as [_|H];
      [|exfalso; by apply H].
    unfold Coro_resume. by rewrite Hk1s3. }
  assert (Hs4 : c1 ∈ _scheduled s4 /\ c1 ∉ _suspended s4
                /\ _cur_coro s4 = Some c2
                /\ (exists k, _coros s4 !! c1 = Some k
                               /\ _state k = Scheduled /\ _value k = PNone)
                /\ _coros s4 !! c2 = Some k2r).
  { subst s4. rewrite (resume_unscheduled_eq c1 PNone k1s) by (done || congruence).
    cbn. split; [set_solver|]. split; [set_solver|].
    split; [done|].
    rewrite lookup_insert_eq, lookup_insert_ne by done.
    split; [eexists; by split|]. by rewrite Es3. }
  destruct Hs4 as (Hsch4 & Hsus4 & Hcur4 & (k1w & Hk1w & Hk1wst & Hk1wv) & Hk2r4).
  assert (Erl : rl = (Return (), {| _waitlist := []; _owner := None;
                                    _notify := true |})).
  { subst rl. rewrite En. unfold CoroCondition_release.
    cbn [snd fst _owner _waitlist _notify]. rewrite Hcur4.
    by destruct (decide (Some c2 = Some c2 /\ Some c2 <> None)) as [_|[]]. }
  (* the producer's step ends, the consumer's begins *)
  destruct (yield_None_running c2 k2r s4 Hk2r4 Hk2rst)
    as (_ & _ & _ & _ & Hoth5).
  destruct (switch_to_scheduled c1 k1w (yield_None c2 s4))
    as (Hcur6 & _ & _ & (k1r & Hk1r & Hk1rst & Hk1rv) & _);
    [by rewrite Hoth5 | done |].
  assert (Es6 : s6 = switch_to c1 (yield_None c2 s4))
    by (subst s6; by rewrite En).
  rewrite Ea1, Ew1, Ea2, En, Erl, Es6. cbn [fst snd].
  repeat split; try done.
  - exists k1r. split; [done|]. split; [done | congruence].
  - unfold CoroCondition_wait. cbn [_owner _notify _waitlist]. rewrite Hcur6.
    by destruct (decide (None <> None /\ None <> Some c1)) as [[H _]|_].
Qed.

Lemma condition_handshake_witness :
  let s0 := (_add 8 running_example).2 in
  let w1 := CoroCondition_wait
              (CoroCondition_acquire CoroCondition_init s0).2 s0 in
  w1.1 = (Return true,
          {| _waitlist := [Some 1]; _owner := None; _notify := false |})
  /\ 1 ∈ _suspended w1.2.
Proof.
  destruct (condition_handshake (_add 8 running_example).2 1 2
              {| _id := 1; _generator := 0%nat; _state := Running;
                 _value := PNone; _exception := None;
                 _callers := []; _timeout := None |}
              {| _id := 2; _generator := 8%nat; _state := Scheduled;
                 _value := PNone; _exception := None;
                 _callers := []; _timeout := None |})
    as (_ & H1 & H2 & _);
    [reflexivity | vm_compute; reflexivity | reflexivity
    | vm_compute; reflexivity | reflexivity | discriminate |].
  auto.
Defined.

(** ** The other asynchronous transfers *)

Lemma aio_poll_idle (events : nat) (sock : Aio.AsynCoroSocket) (s : AsynCoro) :
  Aio._task sock = None -> Aio.poll events sock s = (sock, s).
Proof. intros H. destruct events; simpl; [done|]. by rewrite H. Qed.

(** The [sendall] task: one writable event per write of the kernel. *)
Lemma aio_poll_sendall (w : list nat) :
  forall (data : bytes) (events : nat) (r : list bytes) (t : bytes)
         (cf : bool) (i c : Z) (s : AsynCoro),
    data <> [] ->
    (length w < events)%nat ->
    exists w',
      Aio.poll events
        {| Aio._rsock := {| rx := r; tx := t; accepts := w |};
           Aio._certfile := cf; Aio._result := Some data;
           Aio._task := Some Aio.Task_sendall; Aio._coro := Some c;
           Aio._interest := i |} s
      = ({| Aio._rsock := {| rx := r; tx := t ++ data; accepts := w' |};
            Aio._certfile := cf; Aio._result := None; Aio._task := None;
            Aio._coro := None; Aio._interest := 0 |},
         (Coro_resume c (PInt 0) s).2).
Proof.
  induction w as [|k w IH]; intros data events r t cf i c s Hdata Hev;
    (destruct events as [|events]; [simpl in Hev; lia|]);
    cbn [Aio.poll Aio._task Aio.ready]; unfold Aio._sendall;
    cbn [Aio._result Aio._rsock]; unfold send; cbn [accepts rx tx].
  - assert (Hpos : 0 < len data)
      by (destruct data; [done | unfold len; simpl; lia]).
    destruct (Z.gtb_spec (len data) 0) as [_|]; [|lia].
    replace (drop (Z.to_nat (len data)) data) with (@nil byte)
      by (unfold len; rewrite Nat2Z.id; by rewrite drop_all).
    exists []. unfold Aio.finished, resume_coro. cbn. by destruct events.
  - assert (Hpos : (0 < length data)%nat) by (destruct data; [done | simpl; lia]).
    destruct (Z.gtb_spec (Z.of_nat (k `min` length data)) 0) as [Hk|Hk].
    + rewrite Nat2Z.id.
      destruct (Z.eqb_spec (len (drop (k `min` length data) data)) 0) as [Hz|Hnz].
      * apply len_nil_iff in Hz.
        exists w. unfold Aio.finished, resume_coro. cbn.
        assert (Ht : take (k `min` length data) data = data).
        { rewrite <- (take_drop (k `min` length data) data) at 3.
          by rewrite Hz, app_nil_r. }
        rewrite Ht. by destruct events.
      * destruct (IH (drop (k `min` length data) data) events r
                     (t ++ take (k `min` length data) data) cf i c s)
          as [w' E]; [intros E; apply Hnz; by rewrite E | simpl in Hev; lia |].
        exists w'. cbn [Aio._certfile Aio._task Aio._coro Aio._interest].
        by rewrite E, <- app_assoc, take_drop.
    + assert ((k `min` length data)%nat = 0%nat) as -> by lia.
      cbn [take]. rewrite app_nil_r.
      destruct (IH data events r t cf i c s) as [w' E];
        [done | simpl in Hev; lia |].
      exists w'. cbn [Aio._certfile Aio._task Aio._coro Aio._interest
                      Aio._result]. by rewrite E.
Qed.

(** X17. [async_sendall] of a non-empty string, called by the running
    coroutine [c] and followed by the notifier's writable events: the
    call returns [None] having suspended [c]; however the kernel cuts the
    writes, exactly the bytes of the string reach the wire, in order;
    then the task is cleared, the socket's interest is dropped and [c] is
    resumed with 0. *)
Theorem async_sendall_delivers (data : bytes) (s : AsynCoro) (c : Z)
        (coro : Coro) (sock : Aio.AsynCoroSocket) (events : nat) :
  data <> [] ->
  _cur_coro s = Some c -> _coros s !! c = Some coro -> _state coro = Running ->
  (length (accepts (Aio._rsock sock)) < events)%nat ->
  exists sock1 s1 sock2 s2,
    Aio.async_sendall data sock s = (Return None, sock1, s1)
    /\ c ∈ _suspended s1
    /\ Aio._interest sock1 = Aio._Writable
    /\ Aio.poll events sock1 s1 = (sock2, s2)
    /\ tx (Aio._rsock sock2) = tx (Aio._rsock sock) ++ data
    /\ rx (Aio._rsock sock2) = rx (Aio._rsock sock)
    /\ Aio._task sock2 = None /\ Aio._result sock2 = None
    /\ Aio._interest sock2 = 0
    /\ exists coro',
         _coros s2 !! c = Some coro'
         /\ _state coro' = Scheduled
         /\ _value coro' = PInt 0
         /\ _exception coro' = _exception coro.
Proof.
  intros Hdata Hcur Hlook Hrun Hev.
  unfold Aio.async_sendall, Aio.arm. rewrite Hcur.
  destruct (Aio._rsock sock) as [r t w] eqn:Ers. cbn [accepts] in Hev.
  destruct (aio_poll_sendall w data events r t (Aio._certfile sock)
              Aio._Writable c (Coro_suspend 0 c PNone s).2 Hdata Hev)
    as [w' E].
  eexists _, _, _, _. split; [reflexivity|].
  split.
  { unfold Coro_suspend, _suspend. rewrite Hlook. cbn.
    destruct (decide (_state coro = Running)); [|done]. cbn. set_solver. }
  split; [done|]. split; [exact E|]. cbn.
  repeat split. by apply suspend_then_resume.
Qed.

Lemma async_sendall_delivers_witness :
  exists sock1 s1 sock2 s2,
    Aio.async_sendall [x68; x69]
      {| Aio._rsock := {| rx := []; tx := []; accepts := [1%nat] |};
         Aio._certfile := false; Aio._result := None; Aio._task := None;
         Aio._coro := None; Aio._interest := 0 |} running_example
    = (Return None, sock1, s1)
    /\ Aio.poll 2 sock1 s1 = (sock2, s2)
    /\ tx (Aio._rsock sock2) = [x68; x69]
    /\ Aio._task sock2 = None.
Proof.
  destruct (async_sendall_delivers [x68; x69] running_example 1
              {| _id := 1; _generator := 0%nat; _state := Running;
                 _value := PNone; _exception := None;
                 _callers := []; _timeout := None |}
              {| Aio._rsock := {| rx := []; tx := []; accepts := [1%nat] |};
                 Aio._certfile := false; Aio._result := None;
                 Aio._task := None; Aio._coro := None; Aio._interest := 0 |}
              2)
    as (sock1 & s1 & sock2 & s2 & E & _ & _ & Ep & Htx & _ & Ht & _);
    [discriminate | reflexivity | reflexivity | reflexivity | simpl; lia |].
  exists sock1, s1, sock2, s2. auto.
Defined.

(** X18. [async_sendall] of the empty string never completes: every
    writable event finds nothing sent, so the task stays armed, nothing
    reaches the wire, and the calling coroutine stays suspended, outside
    the ready set, however many events come; whereas the blocking
    [sync_sendall] of the empty string returns 0 at once. *)
Theorem async_sendall_empty_hangs (s : AsynCoro) (c : Z) (coro : Coro)
        (sock : Aio.AsynCoroSocket) (events : nat) :
  _cur_coro s = Some c -> _coros s !! c = Some coro -> _state coro = Running ->
  exists sock1 s1 sock2,
    Aio.async_sendall [] sock s = (Return None, sock1, s1)
    /\ Aio.poll events sock1 s1 = (sock2, s1)
    /\ Aio._task sock2 = Some Aio.Task_sendall
    /\ tx (Aio._rsock sock2) = tx (Aio._rsock sock)
    /\ c ∈ _suspended s1 /\ c ∉ _scheduled s1
    /\ (exists coro', _coros s1 !! c = Some coro' /\ _state coro' = Suspended)
    /\ forall fuel sk, sync_sendall fuel [] sk = (Return 0, sk).
Proof.
  intros Hcur Hlook Hrun.
  unfold Aio.async_sendall, Aio.arm. rewrite Hcur.
  set (s1 := (Coro_suspend 0 c PNone s).2).
  assert (Hpoll : forall events r t w cf i,
             exists w',
               Aio.poll events
                 {| Aio._rsock := {| rx := r; tx := t; accepts := w |};
                    Aio._certfile := cf; Aio._result := Some [];
                    Aio._task := Some Aio.Task_sendall; Aio._coro := Some c;
                    Aio._interest := i |} s1
               = ({| Aio._rsock := {| rx := r; tx := t; accepts := w' |};
                     Aio._certfile := cf; Aio._result := Some [];
                     Aio._task := Some Aio.Task_sendall; Aio._coro := Some c;
                     Aio._interest := i |}, s1)).
  { clear. induction events as [|events IH]; intros r t w cf i; [by eexists|].
    cbn [Aio.poll Aio._task Aio.ready]. unfold Aio._sendall.
    cbn [Aio._result Aio._rsock]. unfold send. cbn [accepts rx tx].
    destruct w as [|k w]; [|rewrite Nat.min_0_r]; cbn; rewrite app_nil_r;
      apply IH. }
  destruct (Aio._rsock sock) as [r t w] eqn:Ers.
  destruct (Hpoll events r t w (Aio._certfile sock) Aio._Writable) as [w' E].
  eexists _, _, _. split; [reflexivity|]. split; [exact E|].
  split; [done|]. split; [done|].
  subst s1. unfold Coro_suspend, _suspend. rewrite Hlook. cbn.
  destruct (decide (_state coro = Running)); [|done]. cbn.
  split; [set_solver|]. split; [set_solver|].
  split; [rewrite lookup_insert_eq; eexists; by split|].
  intros fuel sk. by destruct fuel.
Qed.

Lemma async_sendall_empty_hangs_witness :
  exists sock1 s1 sock2,
    Aio.async_sendall []
      {| Aio._rsock := {| rx := []; tx := []; accepts := [] |};
         Aio._certfile := false; Aio._result := None; Aio._task := None;
         Aio._coro := None; Aio._interest := 0 |} running_example
    = (Return None, sock1, s1)
    /\ Aio.poll 100 sock1 s1 = (sock2, s1)
    /\ Aio._task sock2 = Some Aio.Task_sendall.
Proof.
  destruct (async_sendall_empty_hangs running_example 1
              {| _id := 1; _generator := 0%nat; _state := Running;
                 _value := PNone; _exception := None;
                 _callers := []; _timeout := None |}
              {| Aio._rsock := {| rx := []; tx := []; accepts := [] |};
                 Aio._certfile := false; Aio._result := None;
                 Aio._task := None; Aio._coro := None; Aio._interest := 0 |}
              100)
    as (sock1 & s1 & sock2 & E & Ep & Ht & _);
    [reflexivity | reflexivity | reflexivity |].
  exists sock1, s1, sock2. auto.
Defined.

Lemma recv_empty_keeps (n : Z) (sk sk' : rsock) :
  recv n sk = (Return [], sk') -> sk' = sk.
Proof.
  unfold recv. destruct (n <? 0); [discriminate|].
  destruct sk as [r t w]. cbn [rx tx accepts].
  destruct r as [|[|b seg] rest].
  - by intros [= <-].
  - by intros [= <-].
  - destruct (len (b :: seg) <=? n); [discriminate|].
    destruct (Z.to_nat n); [by intros [= <-] | discriminate].
Qed.

Local Ltac aio_event :=
  cbn [Aio.poll Aio._task Aio.ready];
  unfold Aio._recv, Aio._send; cbn [Aio._rsock Aio._coro].

Lemma suspended_by_arm (s : AsynCoro) (c : Z) (coro : Coro) :
  _coros s !! c = Some coro -> _state coro = Running ->
  c ∈ _suspended (Coro_suspend 0 c PNone s).2.
Proof.
  intros Hlook Hrun. unfold Coro_suspend, _suspend. rewrite Hlook. cbn.
  destruct (decide (_state coro = Running)); [|done]. cbn. set_solver.
Qed.

(** X19. [async_recv] on a socket without SSL is answered by the first
    readable event, whatever it brings: the call suspends the running
    coroutine [c]; the event does one [recv] and clears the task, and
    later events do nothing.  With [0 <= bufsize] the coroutine is resumed
    with the bytes read, at most [bufsize] of them and exactly the front
    of the stream (the empty string once the peer has closed); with a
    negative [bufsize] the [ValueError] of [recv] is thrown into the
    coroutine and the stream is untouched. *)
Theorem async_recv_one_shot (bufsize : Z) (s : AsynCoro) (c : Z) (coro : Coro)
        (sock : Aio.AsynCoroSocket) (events : nat) :
  Aio._certfile sock = false ->
  _cur_coro s = Some c -> _coros s !! c = Some coro -> _state coro = Running ->
  (0 < events)%nat ->
  exists sock1 s1 sock2 s2,
    Aio.async_recv bufsize sock s = (Return None, sock1, s1)
    /\ c ∈ _suspended s1
    /\ Aio._rsock sock1 = Aio._rsock sock
    /\ Aio.poll events sock1 s1 = (sock2, s2)
    /\ Aio.poll 1 sock1 s1 = (sock2, s2)
    /\ Aio._task sock2 = None /\ Aio._interest sock2 = 0
    /\ tx (Aio._rsock sock2) = tx (Aio._rsock sock)
    /\ exists coro',
         _coros s2 !! c = Some coro'
         /\ _state coro' = Scheduled
         /\ ((0 <= bufsize
              /\ exists buf,
                   _value coro' = PStr buf
                   /\ _exception coro' = _exception coro
                   /\ len buf <= bufsize
                   /\ concat (rx (Aio._rsock sock))
                      = buf ++ concat (rx (Aio._rsock sock2)))
             \/ (bufsize < 0
                 /\ (exists msg,
                       _exception coro'
                       = Some (ValueError, PExc ValueError msg))
                 /\ _value coro' = _value coro
                 /\ Aio._rsock sock2 = Aio._rsock sock)).
Proof.
  intros Hcf Hcur Hlook Hrun Hev.
  unfold Aio.async_recv, Aio.arm. rewrite Hcf, Hcur.
  destruct events as [|events]; [lia|].
  destruct (recv bufsize (Aio._rsock sock)) as [[buf|kind msg|] rs] eqn:E.
  - pose proof (recv_front _ _ _ _ E) as (Hfront & Hle & Hn & Htx & _).
    eexists _, _, _, _. split; [reflexivity|].
    split; [by eapply suspended_by_arm|]. split; [done|].
    split; [aio_event; rewrite E; by apply aio_poll_idle|].
    split; [aio_event; by rewrite E|].
    split; [done|]. split; [done|]. split; [exact Htx|].
    destruct (suspend_then_resume s c coro (PStr buf) Hlook Hrun)
      as (coro' & Hl' & Hst & Hv & Hx).
    exists coro'. split; [exact Hl'|]. split; [exact Hst|].
    left. split; [exact Hn|]. by exists buf.
  - pose proof (recv_raises _ _ _ _ _ E) as (-> & Hn & ->).
    eexists _, _, _, _. split; [reflexivity|].
    split; [by eapply suspended_by_arm|]. split; [done|].
    split; [aio_event; rewrite E; by apply aio_poll_idle|].
    split; [aio_event; by rewrite E|].
    split; [done|]. split; [done|]. split; [done|].
    destruct (suspend_then_throw s c coro ValueError (PExc ValueError msg)
                Hlook Hrun) as (coro' & Hl' & Hst & Hx & Hv).
    exists coro'. split; [exact Hl'|]. split; [exact Hst|].
    right. split; [exact Hn|]. split; [by exists msg|]. done.
  - exfalso. revert E. unfold recv.
    destruct (bufsize <? 0); [discriminate|].
    destruct (rx (Aio._rsock sock)) as [|[|b seg] rest]; try discriminate.
    by destruct (len (b :: seg) <=? bufsize).
Qed.

Lemma async_recv_one_shot_witness :
  exists sock1 s1 sock2 s2,
    Aio.async_recv 2
      {| Aio._rsock := {| rx := [[x68; x69; x21]]; tx := []; accepts := [] |};
         Aio._certfile := false; Aio._result := None; Aio._task := None;
         Aio._coro := None; Aio._interest := 0 |} running_example
    = (Return None, sock1, s1)
    /\ Aio.poll 3 sock1 s1 = (sock2, s2)
    /\ Aio._task sock2 = None.
Proof.
  destruct (async_recv_one_shot 2 running_example 1
              {| _id := 1; _generator := 0%nat; _state := Running;
                 _value := PNone; _exception := None;
                 _callers := []; _timeout := None |}
              {| Aio._rsock := {| rx := [[x68; x69; x21]]; tx := [];
                                  accepts := [] |};
                 Aio._certfile := false; Aio._result := None;
                 Aio._task := None; Aio._coro := None; Aio._interest := 0 |}
              3)
    as (sock1 & s1 & sock2 & s2 & E & _ & _ & Ep & _ & Ht & _);
    [reflexivity | reflexivity | reflexivity | reflexivity | lia |].
  exists sock1, s1, sock2, s2. auto.
Defined.

(** X20. [async_send] may send only a part: the first writable event does
    one [send], and the coroutine is resumed with the number of bytes the
    kernel took, between 0 and [len data]; exactly that prefix of the
    data is on the wire, the rest is dropped, and the task is cleared, so
    no later event sends it. *)
Theorem async_send_partial (data : bytes) (s : AsynCoro) (c : Z) (coro : Coro)
        (sock : Aio.AsynCoroSocket) (events : nat) :
  _cur_coro s = Some c -> _coros s !! c = Some coro -> _state coro = Running ->
  (0 < events)%nat ->
  exists sock1 s1 sock2 s2 sent,
    Aio.async_send data sock s = (Return None, sock1, s1)
    /\ c ∈ _suspended s1
    /\ Aio.poll events sock1 s1 = (sock2, s2)
    /\ 0 <= sent <= len data
    /\ tx (Aio._rsock sock2)
       = tx (Aio._rsock sock) ++ take (Z.to_nat sent) data
    /\ (accepts (Aio._rsock sock) = [] -> sent = len data)
    /\ rx (Aio._rsock sock2) = rx (Aio._rsock sock)
    /\ Aio._task sock2 = None /\ Aio._interest sock2 = 0
    /\ exists coro',
         _coros s2 !! c = Some coro'
         /\ _state coro' = Scheduled
         /\ _value coro' = PInt sent
         /\ _exception coro' = _exception coro.
Proof.
  intros Hcur Hlook Hrun Hev.
  unfold Aio.async_send, Aio.arm. rewrite Hcur.
  destruct events as [|events]; [lia|].
  destruct (accepts (Aio._rsock sock)) as [|k w] eqn:Ew.
  - eexists _, _, _, _, (len data). split; [reflexivity|].
    split; [by eapply suspended_by_arm|].
    split; [aio_event; unfold send; cbn [Aio._rsock]; rewrite Ew;
            by apply aio_poll_idle|].
    split; [unfold len; lia|].
    split; [cbn; unfold len; by rewrite Nat2Z.id, firstn_all|].
    split; [done|]. split; [done|]. split; [done|]. split; [done|].
    by apply suspend_then_resume.
  - eexists _, _, _, _, (Z.of_nat (k `min` length data)).
    split; [reflexivity|].
    split; [by eapply suspended_by_arm|].
    split; [aio_event; unfold send; cbn [Aio._rsock]; rewrite Ew;
            by apply aio_poll_idle|].
    split; [unfold len; lia|].
    split; [cbn; by rewrite Nat2Z.id|].
    split; [done|]. split; [done|]. split; [done|]. split; [done|].
    by apply suspend_then_resume.
Qed.

Lemma async_send_partial_witness :
  exists sock1 s1 sock2 s2,
    Aio.async_send [x68; x69]
      {| Aio._rsock := {| rx := []; tx := []; accepts := [1%nat] |};
         Aio._certfile := false; Aio._result := None; Aio._task := None;
         Aio._coro := None; Aio._interest := 0 |} running_example
    = (Return None, sock1, s1)
    /\ Aio.poll 1 sock1 s1 = (sock2, s2)
    /\ Aio._task sock2 = None.
Proof.
  destruct (async_send_partial [x68; x69] running_example 1
              {| _id := 1; _generator := 0%nat; _state := Running;
                 _value := PNone; _exception := None;
                 _callers := []; _timeout := None |}
              {| Aio._rsock := {| rx := []; tx := []; accepts := [1%nat] |};
                 Aio._certfile := false; Aio._result := None;
                 Aio._task := None; Aio._coro := None; Aio._interest := 0 |}
              1)
    as (sock1 & s1 & sock2 & s2 & sent & E & _ & Ep & _ & _ & _ & _ & Ht & _);
    [reflexivity | reflexivity | reflexivity | lia |].
  exists sock1, s1, sock2, s2. auto.
Defined.

(** X21. On an SSL socket [async_recv] reads first: bytes that are
    already there are returned by the call itself, at most [bufsize] of
    them and exactly the front of the stream; the coroutine is not
    suspended, no task is armed and the scheduler is untouched.  With
    nothing to read the call suspends the coroutine and arms the task as
    on a plain socket. *)
Theorem async_recv_ssl_direct (bufsize : Z) (s : AsynCoro) (c : Z)
        (sock : Aio.AsynCoroSocket) :
  Aio._certfile sock = true ->
  _cur_coro s = Some c ->
  0 <= bufsize ->
  exists sock1 s1 r,
    Aio.async_recv bufsize sock s = (Return r, sock1, s1)
    /\ match r with
       | Some buf =>
           buf <> [] /\ len buf <= bufsize
           /\ concat (rx (Aio._rsock sock))
              = buf ++ concat (rx (Aio._rsock sock1))
           /\ s1 = s
           /\ Aio._task sock1 = Aio._task sock
           /\ Aio._coro sock1 = Aio._coro sock
           /\ Aio._interest sock1 = Aio._interest sock
       | None =>
           (recv bufsize (Aio._rsock sock)).1 = Return []
           /\ Aio._rsock sock1 = Aio._rsock sock
           /\ s1 = (Coro_suspend 0 c PNone s).2
           /\ Aio._task sock1 = Some (Aio.Task_recv bufsize)
           /\ Aio._coro sock1 = Some c
           /\ Aio._interest sock1 = _Readable
       end.
Proof.
  intros Hcf Hcur Hn. unfold Aio.async_recv. rewrite Hcf.
  destruct (recv bufsize (Aio._rsock sock)) as [[buf|kind msg|] rs] eqn:E.
  - destruct buf as [|b buf].
    + pose proof (recv_empty_keeps _ _ _ E) as ->.
      unfold Aio.arm. rewrite Hcur. eexists _, _, None.
      split; [reflexivity|]. by cbn.
    + apply recv_front in E as (Hfront & Hle & _ & _ & _).
      eexists _, _, (Some (b :: buf)). split; [reflexivity|]. by cbn.
  - apply recv_raises in E as (_ & ? & _). lia.
  - exfalso. revert E. unfold recv.
    destruct (bufsize <? 0); [discriminate|].
    destruct (rx (Aio._rsock sock)) as [|[|b seg] rest]; try discriminate.
    by destruct (len (b :: seg) <=? bufsize).
Qed.

Lemma async_recv_ssl_direct_witness :
  exists sock1 s1,
    Aio.async_recv 2
      {| Aio._rsock := {| rx := [[x68; x69; x21]]; tx := []; accepts := [] |};
         Aio._certfile := true; Aio._result := None; Aio._task := None;
         Aio._coro := None; Aio._interest := 0 |} running_example
    = (Return (Some [x68; x69]), sock1, s1).
Proof.
  destruct (async_recv_ssl_direct 2 running_example 1
              {| Aio._rsock := {| rx := [[x68; x69; x21]]; tx := [];
                                  accepts := [] |};
                 Aio._certfile := true; Aio._result := None;
                 Aio._task := None; Aio._coro := None; Aio._interest := 0 |})
    as (sock1 & s1 & r & E & _); [reflexivity | reflexivity | lia |].
  exists sock1, s1. rewrite E. vm_compute in E. by injection E as <- _ _.
Defined.

(** ** The notifier's socket timeouts *)

Section list_insert.
Context {A : Type}.
Implicit Types (l : list A) (x y : A).

Lemma list_insert_O x l : Notifier.list_insert 0 x l = x :: l.
Proof. unfold Notifier.list_insert. by rewrite take_0, drop_0. Qed.

Lemma list_insert_S (i : nat) x y l :
  Notifier.list_insert (S i) x (y :: l) = y :: Notifier.list_insert i x l.
Proof. reflexivity. Qed.

Lemma length_list_insert (i : nat) x l :
  length (Notifier.list_insert i x l) = S (length l).
Proof.
  unfold Notifier.list_insert.
  rewrite length_app, length_take. cbn [length]. rewrite length_drop. lia.
Qed.

Lemma list_insert_lookup (i : nat) x l :
  (i <= length l)%nat -> Notifier.list_insert i x l !! i = Some x.
Proof.
  revert l. induction i as [|i IH]; intros l Hi.
  - by rewrite list_insert_O.
  - destruct l as [|y l]; [simpl in Hi; lia|].
    rewrite list_insert_S. simpl. apply IH. simpl in Hi. lia.
Qed.

Lemma delete_list_insert (i : nat) x l :
  (i <= length l)%nat -> delete i (Notifier.list_insert i x l) = l.
Proof.
  revert l. induction i as [|i IH]; intros l Hi.
  - by rewrite list_insert_O.
  - destruct l as [|y l]; [simpl in Hi; lia|].
    rewrite list_insert_S. simpl. f_equal. apply IH. simpl in Hi. lia.
Qed.

Lemma list_insert_lookup_shift (i j : nat) x y l :
  l !! j = Some y -> Notifier.list_insert i x l !! Notifier.shifted i j = Some y.
Proof.
  revert i j. induction l as [|z l IH]; intros i j Hj; [done|].
  destruct i as [|i].
  - rewrite list_insert_O. unfold Notifier.shifted.
    destruct (decide (j < 0)%nat); [lia | done].
  - rewrite list_insert_S. destruct j as [|j].
    + unfold Notifier.shifted. destruct (decide (0 < S i)%nat); [done | lia].
    + simpl in Hj. specialize (IH i j Hj). unfold Notifier.shifted in *.
      destruct (decide (j < i)%nat), (decide (S j < S i)%nat);
        try lia; exact IH.
Qed.

Lemma Forall_list_insert (P : A -> Prop) (i : nat) x l :
  P x -> Forall P l -> Forall P (Notifier.list_insert i x l).
Proof.
  intros Hx Hl. unfold Notifier.list_insert.
  apply Forall_app. split; [by apply Forall_take|].
  constructor; [done | by apply Forall_drop].
Qed.

End list_insert.

Lemma bisect_left_le (a : list Z) (x : Z) :
  (Notifier.bisect_left a x <= length a)%nat.
Proof.
  induction a as [|y a IH]; simpl; [lia|]. destruct (y <? x); lia.
Qed.

Lemma bisect_left_below (a : list Z) (x : Z) :
  forall (j : nat) (y : Z),
    a !! j = Some y -> (j < Notifier.bisect_left a x)%nat -> y < x.
Proof.
  induction a as [|z a IH]; intros j y Hj Hlt; [done|].
  simpl in Hlt. destruct (Z.ltb_spec z x) as [Hz|Hz]; [|lia].
  destruct j as [|j]; simpl in Hj; [by injection Hj as <-|].
  apply (IH j); [done | lia].
Qed.

Lemma bisect_left_at (a : list Z) (x y : Z) :
  a !! Notifier.bisect_left a x = Some y -> x <= y.
Proof.
  induction a as [|z a IH]; [done|]. simpl.
  destruct (Z.ltb_spec z x) as [Hz|Hz]; simpl; [done|].
  intros [= <-]. lia.
Qed.

Lemma bisect_left_insert (a : list Z) (x : Z) :
  Notifier.bisect_left
    (Notifier.list_insert (Notifier.bisect_left a x) x a) x
  = Notifier.bisect_left a x.
Proof.
  induction a as [|y a IH]; cbn [Notifier.bisect_left].
  - rewrite list_insert_O. simpl. by rewrite Z.ltb_irrefl.
  - destruct (y <? x) eqn:E.
    + rewrite list_insert_S. simpl. by rewrite E, IH.
    + rewrite list_insert_O. simpl. by rewrite Z.ltb_irrefl.
Qed.

Lemma sorted_list_insert (a : list Z) (x : Z) :
  StronglySorted Z.le a ->
  StronglySorted Z.le (Notifier.list_insert (Notifier.bisect_left a x) x a).
Proof.
  induction 1 as [|y a Hs IH Hall]; cbn [Notifier.bisect_left].
  - rewrite list_insert_O. repeat constructor.
  - destruct (Z.ltb_spec y x) as [Hy|Hy].
    + rewrite list_insert_S. constructor; [done|].
      apply Forall_list_insert; [lia | done].
    + rewrite list_insert_O. constructor; [by constructor|].
      constructor; [done|]. eapply Forall_impl; [exact Hall|].
      intros z Hz. simpl in Hz. lia.
Qed.

Lemma sorted_lookup_le (l : list Z) :
  StronglySorted Z.le l ->
  forall (k j : nat) (y z : Z),
    l !! k = Some y -> l !! j = Some z -> (k <= j)%nat -> y <= z.
Proof.
  induction 1 as [|a l Hs IH Hall]; intros k j y z Hk Hj Hle; [done|].
  destruct k as [|k], j as [|j]; simpl in *; try lia.
  - injection Hk as <-. injection Hj as <-. lia.
  - injection Hk as <-. by eapply (proj1 (Forall_lookup _ _) Hall).
  - eapply IH; [done.. | lia].
Qed.

Lemma sorted_delete (l : list Z) (k : nat) :
  StronglySorted Z.le l -> StronglySorted Z.le (delete k l).
Proof.
  intros Hs. revert k.
  induction Hs as [|a l Hs IH Hall]; intros k; [destruct k; constructor|].
  destruct k as [|k]; simpl; [done|].
  constructor; [apply IH|]. by apply Forall_delete.
Qed.

(** On an ascending list, from the insertion point of [id] up to any
    index holding [id], all deadlines are [id]. *)
Lemma bisect_left_run (ts : list Z) (id : Z) (j : nat) :
  StronglySorted Z.le ts -> ts !! j = Some id ->
  (Notifier.bisect_left ts id <= j)%nat
  /\ forall k, (Notifier.bisect_left ts id <= k <= j)%nat -> ts !! k = Some id.
Proof.
  intros Hs Hj.
  assert (Hij : (Notifier.bisect_left ts id <= j)%nat).
  { destruct (decide (Notifier.bisect_left ts id <= j)%nat) as [|Hn]; [done|].
    assert (id < id); [|lia].
    apply (bisect_left_below ts id j id Hj). lia. }
  split; [done|]. intros k [Hik Hkj].
  assert (Hlen : (j < length ts)%nat) by (by eapply lookup_lt_Some).
  destruct (lookup_lt_is_Some_2 ts k) as [y Hy]; [lia|].
  destruct (lookup_lt_is_Some_2 ts (Notifier.bisect_left ts id)) as [w Hw];
    [lia|].
  pose proof (bisect_left_at ts id w Hw).
  pose proof (sorted_lookup_le ts Hs _ _ _ _ Hw Hy Hik).
  pose proof (sorted_lookup_le ts Hs _ _ _ _ Hy Hj Hkj).
  rewrite Hy. f_equal. lia.
Qed.

Lemma del_scan_finds (ts fs : list Z) (fd id : Z) (j : nat) :
  fs !! j = Some fd ->
  (j < length ts)%nat ->
  forall (d i count : nat),
    j = (i + d)%nat ->
    (forall k, (i <= k <= j)%nat -> ts !! k = Some id) ->
    (d < count)%nat ->
    exists k,
      Notifier.del_scan count i fd id ts fs = Some (Some k)
      /\ (i <= k <= j)%nat /\ fs !! k = Some fd /\ ts !! k = Some id.
Proof.
  intros Hj Hlen. induction d as [|d IH]; intros i count Hji Hrun Hcount;
    (destruct count as [|count]; [lia|]); simpl.
  - assert (i = j) as -> by lia. rewrite Hj.
    destruct (decide (fd = fd)); [|done].
    exists j. repeat split; [lia | lia | done | apply Hrun; lia].
  - destruct (fs !! i) as [f|] eqn:Ef.
    + destruct (decide (f = fd)) as [->|Hne].
      * exists i. repeat split; [lia | lia | done | apply Hrun; lia].
      * rewrite (Hrun i) by lia.
        destruct (decide (id <> id)); [done|].
        destruct (IH (S i) count) as (k & E & Hk & Hfk & Htk);
          [lia | intros k Hk; apply Hrun; lia | lia |].
        exists k. repeat split; [done | lia | lia | done | done].
    + exfalso. apply lookup_ge_None in Ef.
      apply lookup_lt_Some in Hj. lia.
Qed.

Lemma del_timeout_ok (N : Notifier.AsyncPoller) (fd : Z) :
  Notifier.timers_ok N ->
  exists N',
    Notifier._del_timeout fd N = Some N'
    /\ Notifier.timers_ok N'
    /\ forall sk,
         Notifier.sockets N !! fd = Some sk ->
         Notifier.truthy (Notifier._timeout_id sk) = true ->
         Notifier.sockets N'
         = Notifier.set_timeout_id fd sk None (Notifier.sockets N)
         /\ S (length (Notifier._timeouts N'))
            = length (Notifier._timeouts N).
Proof.
  intros Hok. pose proof Hok as (Hal & Hso & Hli).
  unfold Notifier._del_timeout.
  destruct (Notifier.sockets N !! fd) as [sk|] eqn:Es;
    [|by exists N].
  destruct (Notifier.truthy (Notifier._timeout_id sk)) eqn:Etr;
    [|exists N; split; [done|]; split; [done|];
      intros sk0 [= <-]; by rewrite Etr].
  destruct (Notifier._timeout_id sk) as [tid|] eqn:Etid; [|done].
  change (default 0 (Some tid)) with tid.
  destruct (Hli fd sk tid Es Etid) as (j & Htj & Hfj).
  destruct (bisect_left_run _ _ _ Hso Htj) as [Hij Hrun].
  pose proof (lookup_lt_Some _ _ _ Htj) as Hlen.
  destruct (del_scan_finds (Notifier._timeouts N) (Notifier._timeout_fds N)
              fd tid j Hfj Hlen
              (j - Notifier.bisect_left (Notifier._timeouts N) tid)
              (Notifier.bisect_left (Notifier._timeouts N) tid)
              (length (Notifier._timeouts N)
               - Notifier.bisect_left (Notifier._timeouts N) tid))
    as (k & E & Hk & Hfk & Htk); [lia | done | lia |].
  rewrite E. eexists. split; [reflexivity|].
  assert (Hkt : (k < length (Notifier._timeouts N))%nat)
    by (by eapply lookup_lt_Some).
  split; [split; [|split]|].
  - unfold Notifier.aligned in *. cbn.
    rewrite !length_delete by (by eexists). by rewrite Hal.
  - cbn. by apply sorted_delete.
  - intros fd' sk' tid' Hl Hid. cbn in Hl |- *.
    unfold Notifier.set_timeout_id in Hl.
    destruct (decide (fd' = fd)) as [->|Hne].
    + rewrite lookup_insert_eq in Hl. by injection Hl as <-.
    + rewrite lookup_insert_ne in Hl by done.
      destruct (Hli fd' sk' tid' Hl Hid) as (j' & Ht' & Hf').
      assert (j' <> k) by (intros ->; congruence).
      destruct (decide (j' < k)%nat).
      * exists j'. by rewrite !list_lookup_delete_lt.
      * exists (j' - 1)%nat. rewrite !list_lookup_delete_ge by lia.
        by replace (S (j' - 1)) with j' by lia.
  - intros sk0 [= <-] _. split; [done|]. cbn.
    rewrite length_delete by (by eexists). lia.
Qed.

Lemma throw_coro_other (o : option Z) (kind : exc_kind) (payload : pyval)
      (s : AsynCoro) (c : Z) :
  o <> Some c -> _coros (throw_coro o kind payload s) !! c = _coros s !! c.
Proof.
  intros Hne. destruct o as [c0|]; [|done]. cbn.
  unfold Coro_throw, _throw.
  destruct (_coros s !! c0) as [coro|] eqn:E; [|done].
  destruct (decide _); [|done]. cbn.
  rewrite coros_interrupt_notifier. cbn.
  rewrite lookup_insert_ne by congruence.
  by destruct (decide (_state coro = Suspended)).
Qed.

Lemma throw_coro_waiting (kind : exc_kind) (payload : pyval) (s : AsynCoro)
      (c : Z) :
  Notifier.waiting c s ->
  exists coro,
    _coros (throw_coro (Some c) kind payload s) !! c = Some coro
    /\ _state coro = Scheduled
    /\ _exception coro = Some (kind, payload).
Proof.
  intros (coro & Hl & Hst). cbn. unfold Coro_throw, _throw. rewrite Hl.
  destruct (decide _) as [_|Hn];
    [|destruct (_state coro); try done; exfalso; apply Hn; auto].
  cbn. rewrite coros_interrupt_notifier. cbn.
  rewrite lookup_insert_eq. by eexists.
Qed.

Lemma throw_coro_keeps_waiting (o : option Z) (kind : exc_kind)
      (payload : pyval) (s : AsynCoro) (c : Z) :
  Notifier.waiting c s -> Notifier.waiting c (throw_coro o kind payload s).
Proof.
  intros Hw. destruct (decide (o = Some c)) as [->|Hne].
  - destruct (throw_coro_waiting kind payload s c Hw) as (coro & Hl & Hst & _).
    exists coro. split; [done|]. by rewrite Hst.
  - unfold Notifier.waiting. by rewrite throw_coro_other.
Qed.

Lemma throw_coro_keeps_timed_out (o : option Z) (s : AsynCoro) (c : Z) :
  Notifier.timed_out_in c s ->
  Notifier.timed_out_in c
    (throw_coro o socket_timeout (PExc socket_timeout "timed out") s).
Proof.
  intros Ht. destruct (decide (o = Some c)) as [->|Hne].
  - apply throw_coro_waiting. destruct Ht as (coro & Hl & Hst & _).
    exists coro. split; [done|]. by rewrite Hst.
  - unfold Notifier.timed_out_in. by rewrite throw_coro_other.
Qed.

Lemma timer_eta (sk : Notifier.timer) (id : option Z) :
  Notifier._timeout_id sk = id ->
  {| Notifier._timeout := Notifier._timeout sk; Notifier._timeout_id := id;
     Notifier._coro := Notifier._coro sk |} = sk.
Proof. intros <-. by destruct sk. Qed.

(** The loop at the end of [poll]. *)
Lemma expire_spec (now : Z) (ts : list Z) :
  forall (fs : list Z) (socks : gmap Z Notifier.timer) (s : AsynCoro),
    Notifier.timers_ok
      {| Notifier.sockets := socks; Notifier._timeouts := ts;
         Notifier._timeout_fds := fs |} ->
    exists N' s',
      Notifier.expire now ts fs socks s = Some (N', s')
      /\ Notifier.timers_ok N'
      /\ Forall (fun t => now < t) (Notifier._timeouts N')
      /\ (forall fd sk,
            socks !! fd = Some sk ->
            Notifier.sockets N' !! fd
            = Some {| Notifier._timeout := Notifier._timeout sk;
                      Notifier._timeout_id :=
                        Notifier.unexpired now (Notifier._timeout_id sk);
                      Notifier._coro := Notifier._coro sk |})
      /\ (forall fd sk id c,
            socks !! fd = Some sk -> Notifier._timeout_id sk = Some id ->
            id <= now -> Notifier._coro sk = Some c ->
            Notifier.waiting c s -> Notifier.timed_out_in c s')
      /\ (forall c, Notifier.timed_out_in c s -> Notifier.timed_out_in c s')
      /\ ((forall fd sk id,
             socks !! fd = Some sk -> Notifier._timeout_id sk = Some id ->
             now < id) ->
          Notifier.sockets N' = socks /\ s' = s).
Proof.
  induction ts as [|t ts IH]; intros fs socks s Hok;
    pose proof Hok as (Hal & Hso & Hli);
    unfold Notifier.aligned in Hal; cbn in Hal, Hso.
  - eexists _, _. split; [reflexivity|]. split; [done|].
    split; [constructor|]. cbn [Notifier.sockets].
    assert (Hnone : forall fd sk,
               socks !! fd = Some sk -> Notifier._timeout_id sk = None).
    { intros fd sk Hl. destruct (Notifier._timeout_id sk) as [id|] eqn:E;
        [|done].
      by destruct (Hli fd sk id Hl E) as (i & Hi & _). }
    split.
    { intros fd sk Hl. rewrite Hl. f_equal. symmetry.
      rewrite (Hnone fd sk Hl). by apply timer_eta, (Hnone fd). }
    split.
    { intros fd sk id c Hl Hid. by rewrite (Hnone fd sk Hl) in Hid. }
    done.
  - apply StronglySorted_inv in Hso as [Hso Hall].
    cbn [Notifier.expire].
    destruct (Z.leb_spec t now) as [Hle|Hgt].
    + destruct fs as [|f fs]; [done|]. injection Hal as Hal.
      assert (Hnow : Notifier.unexpired now (Some t) = None)
        by (cbn; by destruct (Z.leb_spec t now); [|lia]).
      destruct (socks !! f) as [sk0|] eqn:Ef;
        [destruct (decide (Notifier._timeout_id sk0 = Some t)) as [Eid|Hstale]|].
      * (* the entry is the socket's: it times out *)
        destruct (IH fs (Notifier.set_timeout_id f sk0 None socks)
                     (Notifier._timed_out sk0 s))
          as (N' & s' & E & Hok' & Hall' & Hsock & Hthrown & Hkeep & _).
        { split; [done|]. split; [done|].
          intros fd sk id Hl Hid. cbn in Hl |- *.
          unfold Notifier.set_timeout_id in Hl.
          destruct (decide (fd = f)) as [->|Hne].
          - rewrite lookup_insert_eq in Hl. by injection Hl as <-.
          - rewrite lookup_insert_ne in Hl by done.
            destruct (Hli fd sk id Hl Hid) as ([|i] & Hi & Hfi); cbn in *.
            + congruence.
            + by exists i. }
        exists N', s'. split; [exact E|]. split; [done|]. split; [done|].
        split.
        { intros fd sk Hl. destruct (decide (fd = f)) as [->|Hne].
          - assert (sk = sk0) as -> by congruence.
            rewrite (Hsock f _ (lookup_insert_eq _ _ _)). cbn.
            by rewrite Eid, Hnow.
          - apply Hsock. unfold Notifier.set_timeout_id.
            by rewrite lookup_insert_ne. }
        split.
        { intros fd sk id c Hl Hid Hdue Hc Hw.
          destruct (decide (fd = f)) as [->|Hne].
          - assert (sk = sk0) as -> by congruence.
            apply Hkeep. unfold Notifier._timed_out. rewrite Hc.
            by apply throw_coro_waiting.
          - eapply (Hthrown fd sk id c); try done.
            + unfold Notifier.set_timeout_id. by rewrite lookup_insert_ne.
            + by apply throw_coro_keeps_waiting. }
        split.
        { intros c Hc. apply Hkeep. by apply throw_coro_keeps_timed_out. }
        intros Hfuture. specialize (Hfuture f sk0 t Ef Eid). lia.
      * (* the entry is stale *)
        destruct (IH fs socks s)
          as (N' & s' & E & Hok' & Hall' & Hsock & Hthrown & Hkeep & Hsame).
        { split; [done|]. split; [done|].
          intros fd sk id Hl Hid.
          destruct (Hli fd sk id Hl Hid) as ([|i] & Hi & Hfi); cbn in *.
          - congruence.
          - by exists i. }
        by exists N', s'.
      * destruct (IH fs socks s)
          as (N' & s' & E & Hok' & Hall' & Hsock & Hthrown & Hkeep & Hsame).
        { split; [done|]. split; [done|].
          intros fd sk id Hl Hid.
          destruct (Hli fd sk id Hl Hid) as ([|i] & Hi & Hfi); cbn in *.
          - congruence.
          - by exists i. }
        by exists N', s'.
    + eexists _, _. split; [reflexivity|]. split; [done|].
      assert (Hfut : Forall (fun t' => now < t') (t :: ts)).
      { constructor; [lia|]. eapply Forall_impl; [exact Hall|].
        intros z Hz. simpl in Hz. lia. }
      split; [done|]. cbn [Notifier.sockets].
      assert (Hlater : forall fd sk id,
                 socks !! fd = Some sk -> Notifier._timeout_id sk = Some id ->
                 now < id).
      { intros fd sk id Hl Hid.
        destruct (Hli fd sk id Hl Hid) as (i & Hi & _). cbn in Hi.
        by apply (proj1 (Forall_lookup _ _) Hfut i id). }
      split.
      { intros fd sk Hl. rewrite Hl. f_equal. symmetry. apply timer_eta.
        destruct (Notifier._timeout_id sk) as [id|] eqn:E; [|done].
        pose proof (Hlater fd sk id Hl E). cbn.
        by destruct (Z.leb_spec id now); [lia|]. }
      split.
      { intros fd sk id c Hl Hid Hdue.
        pose proof (Hlater fd sk id Hl Hid). lia. }
      done.
Qed.

Lemma timers_ok_example : Notifier.timers_ok timers_example.
Proof.
  split; [reflexivity|]. split; [repeat constructor|].
  intros fd sk id Hl Hid. unfold timers_example in Hl. cbn in Hl.
  apply lookup_singleton_Some in Hl as [<- <-]. cbn in Hid.
  injection Hid as <-. by exists 0%nat.
Qed.

Lemma timers_ok_idle_example : Notifier.timers_ok idle_timers_example.
Proof.
  split; [reflexivity|]. split; [constructor|].
  intros fd sk id Hl Hid. unfold idle_timers_example in Hl. cbn in Hl.
  apply lookup_singleton_Some in Hl as [<- <-]. by cbn in Hid.
Qed.

(** X22. The notifier's two timeout lists stay in step: if
    [_timeouts] and [_timeout_fds] have the same length, the deadlines
    ascend, and every socket's [_timeout_id] stands in [_timeouts] at an
    index where [_timeout_fds] holds that socket, then the same is true
    after [_add_timeout] and after [_del_timeout]; on such lists
    [_del_timeout] raises no [IndexError], and for a socket with a
    [_timeout_id] it always finds the entry, removes exactly one and
    clears the [_timeout_id]. *)
Theorem notifier_timers_invariant (N : Notifier.AsyncPoller) (fd now : Z) :
  Notifier.timers_ok N ->
  Notifier.timers_ok (Notifier._add_timeout fd now N)
  /\ exists N',
       Notifier._del_timeout fd N = Some N'
       /\ Notifier.timers_ok N'
       /\ forall sk,
            Notifier.sockets N !! fd = Some sk ->
            Notifier.truthy (Notifier._timeout_id sk) = true ->
            (exists sk',
               Notifier.sockets N' !! fd = Some sk'
               /\ Notifier._timeout_id sk' = None
               /\ Notifier._timeout sk' = Notifier._timeout sk
               /\ Notifier._coro sk' = Notifier._coro sk)
            /\ S (length (Notifier._timeouts N'))
               = length (Notifier._timeouts N).
Proof.
  intros Hok. split.
  { pose proof Hok as (Hal & Hso & Hli). unfold Notifier._add_timeout.
    destruct (Notifier.sockets N !! fd) as [sk|] eqn:Es; [|done].
    destruct (Notifier.truthy (Notifier._timeout sk)).
    - set (timeout := now + default 0 (Notifier._timeout sk)).
      set (i := Notifier.bisect_left (Notifier._timeouts N) timeout).
      assert (Hi : (i <= length (Notifier._timeouts N))%nat)
        by apply bisect_left_le.
      split; [|split].
      + unfold Notifier.aligned in *. cbn. by rewrite !length_list_insert, Hal.
      + cbn. by apply sorted_list_insert.
      + intros fd' sk' id' Hl Hid. cbn in Hl |- *.
        unfold Notifier.set_timeout_id in Hl.
        destruct (decide (fd' = fd)) as [->|Hne].
        * rewrite lookup_insert_eq in Hl. injection Hl as <-. cbn in Hid.
          injection Hid as <-. exists i.
          split; apply list_insert_lookup; [done|].
          unfold Notifier.aligned in Hal. by rewrite <- Hal.
        * rewrite lookup_insert_ne in Hl by done.
          destruct (Hli fd' sk' id' Hl Hid) as (j & Ht & Hf).
          exists (Notifier.shifted i j). split; by apply list_insert_lookup_shift.
    - split; [done|]. split; [done|].
      intros fd' sk' id' Hl Hid. cbn in Hl |- *.
      unfold Notifier.set_timeout_id in Hl.
      destruct (decide (fd' = fd)) as [->|Hne].
      + rewrite lookup_insert_eq in Hl. by injection Hl as <-.
      + rewrite lookup_insert_ne in Hl by done. by eapply Hli. }
  destruct (del_timeout_ok N fd Hok) as (N' & E & Hok' & Hfd).
  exists N'. split; [exact E|]. split; [exact Hok'|].
  intros sk Hl Htr. destruct (Hfd sk Hl Htr) as [Hs Hlen].
  split; [|exact Hlen]. rewrite Hs. unfold Notifier.set_timeout_id.
  rewrite lookup_insert_eq. by eexists.
Qed.

Lemma notifier_timers_invariant_witness :
  Notifier.timers_ok (Notifier._add_timeout 7 6000 timers_example).
Proof.
  apply (notifier_timers_invariant timers_example 7 6000).
  apply timers_ok_example.
Defined.

(** X23. Arming and disarming a socket's timeout is a round trip: on
    lists that are in step, for a socket with a positive [_timeout] and no
    [_timeout_id], [_add_timeout] followed by [_del_timeout] gives back
    the notifier as it was, also when other sockets have the very same
    deadline. *)
Theorem add_del_timeout_round_trip (N : Notifier.AsyncPoller) (fd now t : Z)
        (sk : Notifier.timer) :
  Notifier.timers_ok N ->
  Notifier.sockets N !! fd = Some sk ->
  Notifier._timeout sk = Some t -> 0 < t -> 0 <= now ->
  Notifier._timeout_id sk = None ->
  Notifier._del_timeout fd (Notifier._add_timeout fd now N) = Some N.
Proof.
  intros (Hal & _ & _) Hl Ht Hpos Hnow Hid.
  unfold Notifier.aligned in Hal.
  unfold Notifier._add_timeout. rewrite Hl, Ht.
  cbn [Notifier.truthy default from_option Datatypes.id].
  destruct (Z.eqb_spec t 0) as [|_]; [lia|]. cbn [negb].
  set (i := Notifier.bisect_left (Notifier._timeouts N) (now + t)).
  assert (Hi : (i <= length (Notifier._timeouts N))%nat)
    by apply bisect_left_le.
  unfold Notifier._del_timeout. cbn [Notifier.sockets Notifier._timeouts
                                     Notifier._timeout_fds].
  unfold Notifier.set_timeout_id at 1. rewrite lookup_insert_eq.
  cbn [Notifier._timeout_id Notifier.truthy default from_option Datatypes.id].
  destruct (Z.eqb_spec (now + t) 0) as [|_]; [lia|]. cbn [negb].
  subst i. rewrite bisect_left_insert.
  set (i := Notifier.bisect_left (Notifier._timeouts N) (now + t)) in *.
  rewrite length_list_insert.
  replace (S (length (Notifier._timeouts N)) - i)%nat
    with (S (length (Notifier._timeouts N) - i)) by lia.
  cbn [Notifier.del_scan].
  rewrite list_insert_lookup by (by rewrite <- Hal).
  destruct (decide (fd = fd)); [|done].
  rewrite !delete_list_insert by (try rewrite <- Hal; done).
  f_equal. destruct N as [socks ts fs]. cbn in *. f_equal.
  unfold Notifier.set_timeout_id. cbn. rewrite insert_insert_eq.
  apply insert_id. rewrite Hl. f_equal. symmetry. by apply timer_eta.
Qed.

Lemma add_del_timeout_round_trip_witness :
  Notifier._del_timeout 7 (Notifier._add_timeout 7 4000 idle_timers_example)
  = Some idle_timers_example.
Proof.
  apply (add_del_timeout_round_trip idle_timers_example 7 4000 5000
           {| Notifier._timeout := Some 5000; Notifier._timeout_id := None;
              Notifier._coro := Some 1 |});
    [apply timers_ok_idle_example | reflexivity | reflexivity | lia | lia
    | reflexivity].
Defined.

(** X24. A [poll] that does not wait, because it was asked not to
    ([poll(0)], which the scheduler calls in every turn) or because the
    earliest deadline is less than 1 ms away, serves every timeout that
    is due when the poller returns: no [IndexError] is raised, all the
    deadlines left are in the future and the lists still in step; every
    socket keeps its [_timeout] and its [_coro], its [_timeout_id] is
    cleared exactly if it was due; [socket.timeout] is pending in every
    coroutine that waited on a due socket and was not running, and in
    every coroutine in which it was pending before; and if no socket is
    due, neither a socket nor the scheduler changes. *)
Theorem poll_expires_due (timeout : option Z) (now now' : Z)
        (N : Notifier.AsyncPoller) (s : AsynCoro) :
  Notifier.timers_ok N ->
  timeout = Some 0
  \/ ((exists t0 rest, Notifier._timeouts N = t0 :: rest /\ t0 - now < 1000)
      /\ forall t, timeout = Some t -> 0 <= t) ->
  exists N' s',
    Notifier.poll timeout now now' N s = Some (N', s')
    /\ Notifier.timers_ok N'
    /\ Forall (fun t => now' < t) (Notifier._timeouts N')
    /\ (forall fd sk,
          Notifier.sockets N !! fd = Some sk ->
          Notifier.sockets N' !! fd
          = Some {| Notifier._timeout := Notifier._timeout sk;
                    Notifier._timeout_id :=
                      Notifier.unexpired now' (Notifier._timeout_id sk);
                    Notifier._coro := Notifier._coro sk |})
    /\ (forall fd sk id c,
          Notifier.sockets N !! fd = Some sk ->
          Notifier._timeout_id sk = Some id ->
          id <= now' -> Notifier._coro sk = Some c ->
          Notifier.waiting c s -> Notifier.timed_out_in c s')
    /\ (forall c, Notifier.timed_out_in c s -> Notifier.timed_out_in c s')
    /\ ((forall fd sk id,
           Notifier.sockets N !! fd = Some sk ->
           Notifier._timeout_id sk = Some id -> now' < id) ->
        Notifier.sockets N' = Notifier.sockets N /\ s' = s).
Proof.
  intros Hok Hzero.
  assert (Ht : Notifier.poll_timeout timeout now N = Some 0).
  { unfold Notifier.poll_timeout.
    destruct (decide (timeout = Some 0)) as [|Hne]; [done|].
    destruct Hzero as [|[(t0 & rest & Ets & Hnear) Hpos]]; [done|].
    rewrite Ets. destruct (Z.ltb_spec (t0 - now) 1000) as [_|]; [|lia].
    destruct timeout as [t|]; [|done].
    specialize (Hpos t eq_refl). f_equal. lia. }
  unfold Notifier.poll. rewrite Ht.
  destruct (decide (Some 0 = Some 0)); [|done].
  destruct N as [socks ts fs]. cbn [Notifier.sockets Notifier._timeouts
                                    Notifier._timeout_fds].
  exact (expire_spec now' ts fs socks s Hok).
Qed.

Lemma poll_expires_due_witness :
  exists N' s',
    Notifier.poll (Some 0) 9400 9500 timers_example suspended_example
    = Some (N', s')
    /\ Forall (fun t => 9500 < t) (Notifier._timeouts N').
Proof.
  destruct (poll_expires_due (Some 0) 9400 9500 timers_example
              suspended_example)
    as (N' & s' & E & _ & Hall & _);
    [apply timers_ok_example | by left |].
  by exists N', s'.
Defined.

(** X25. A [poll] that waits serves no timeout: when the earliest
    deadline is at least 1 ms away (or there is none) and the call is not
    [poll(0)], the poller is asked to return no later than that deadline
    and no later than the caller's timeout, and after it the notifier and
    the scheduler are as before, however late the poller returned; it is
    the next [poll(0)] that serves what has fallen due. *)
Theorem poll_waiting_defers (timeout : option Z) (now : Z)
        (N : Notifier.AsyncPoller) (s : AsynCoro) :
  Notifier.timers_ok N ->
  timeout <> Some 0 ->
  (forall t0 rest, Notifier._timeouts N = t0 :: rest -> 1000 <= t0 - now) ->
  Notifier.poll_timeout timeout now N <> Some 0
  /\ (forall t0 rest,
        Notifier._timeouts N = t0 :: rest ->
        exists d,
          Notifier.poll_timeout timeout now N = Some d
          /\ d <= t0 - now
          /\ (timeout = None -> d = t0 - now)
          /\ (forall t, timeout = Some t -> d <= t))
  /\ (Notifier._timeouts N = [] ->
      Notifier.poll_timeout timeout now N = timeout)
  /\ (forall now', Notifier.poll timeout now now' N s = Some (N, s))
  /\ forall now1 now2,
       exists N' s',
         Notifier.poll (Some 0) now1 now2 N s = Some (N', s')
         /\ Notifier.timers_ok N'
         /\ Forall (fun t => now2 < t) (Notifier._timeouts N').
Proof.
  intros Hok Hne Hfar.
  assert (Hnz : Notifier.poll_timeout timeout now N <> Some 0).
  { unfold Notifier.poll_timeout.
    destruct (decide (timeout = Some 0)); [done|].
    destruct (Notifier._timeouts N) as [|t0 rest] eqn:Ets.
    - by destruct timeout.
    - specialize (Hfar t0 rest eq_refl).
      destruct (Z.ltb_spec (t0 - now) 1000); [lia|].
      destruct timeout as [t|]; intros [= E]; [|lia].
      apply Hne. f_equal. lia. }
  split; [exact Hnz|]. split.
  { intros t0 rest Ets. specialize (Hfar t0 rest Ets).
    unfold Notifier.poll_timeout.
    destruct (decide (timeout = Some 0)); [done|]. rewrite Ets.
    destruct (Z.ltb_spec (t0 - now) 1000); [lia|].
    destruct timeout as [t|].
    - exists (Z.min t (t0 - now)). repeat split; [lia | done |].
      intros ? [= <-]. lia.
    - exists (t0 - now). repeat split; [lia | done]. }
  split.
  { intros Ets. unfold Notifier.poll_timeout.
    destruct (decide (timeout = Some 0)); [done|]. rewrite Ets.
    by destruct timeout. }
  split.
  { intros now'. unfold Notifier.poll.
    by destruct (decide (Notifier.poll_timeout timeout now N = Some 0)). }
  intros now1 now2. unfold Notifier.poll, Notifier.poll_timeout.
  destruct (decide (Some 0 = Some 0)); [|done].
  destruct (decide (Some 0 = Some 0)); [|done].
  destruct N as [socks ts fs]. cbn [Notifier.sockets Notifier._timeouts
                                    Notifier._timeout_fds].
  destruct (expire_spec now2 ts fs socks s Hok)
    as (N' & s' & E & Hok' & Hall & _).
  by exists N', s'.
Qed.

Lemma poll_waiting_defers_witness :
  Notifier.poll None 0 20000 timers_example suspended_example
  = Some (timers_example, suspended_example).
Proof.
  destruct (poll_waiting_defers None 0 timers_example suspended_example)
    as (_ & _ & _ & Hsame & _);
    [apply timers_ok_example | discriminate
    | intros t0 rest [= <- <-]; lia |].
  apply Hsame.
Defined.

(** ** [async_recv_msg] and [async_send_msg] under the scheduler *)

(** [end_step] is the end of [run_coro]. *)
Lemma run_coro_end_step (act : activity) (cid : Z) (th : thread)
      (pending : option (exc_kind * pyval)) (s : AsynCoro) :
  died th = None ->
  begin_step cid (run_calls (foreign act) (sched th)) = Some (pending, s) ->
  run_coro act cid th
  = Msg.end_step cid pending (response act) (run_calls (calls act) s)
                 (retval th).
Proof.
  intros Hd Hb. unfold run_coro, Msg.end_step. rewrite Hd, Hb.
  by destruct (try_block pending (response act)).
Qed.

Lemma frame_begin_step (c : Z) (g : nat) (cs : list (nat * pyval))
      (v : pyval) (e : option (exc_kind * pyval)) (s : AsynCoro) :
  Msg.frame c Scheduled g cs v e s ->
  exists s',
    begin_step c s = Some (e, s')
    /\ Msg.frame c Running g cs v None s'
    /\ _cur_coro s' = Some c.
Proof.
  intros (coro & Hl & Hst & Hg & Hcs & Hv & He).
  rewrite (begin_step_eq c coro s Hl Hst), He.
  eexists. split; [reflexivity|]. split; [|done].
  eexists. cbn. rewrite lookup_insert_eq. by repeat split.
Qed.

Lemma frame_suspend (c : Z) (g : nat) (cs : list (nat * pyval))
      (v : pyval) (e : option (exc_kind * pyval)) (s : AsynCoro) :
  Msg.frame c Running g cs v e s ->
  Msg.frame c Suspended g cs v e (Coro_suspend 0 c PNone s).2.
Proof.
  intros (coro & Hl & Hst & Hg & Hcs & Hv & He).
  unfold Coro_suspend, _suspend. rewrite Hl. cbn.
  destruct (decide (_state coro = Running)); [|done]. cbn.
  eexists. cbn. rewrite lookup_insert_eq. split; [reflexivity|].
  by repeat split.
Qed.

Lemma frame_resume (c : Z) (g : nat) (cs : list (nat * pyval))
      (v v' : pyval) (e : option (exc_kind * pyval)) (s : AsynCoro) :
  Msg.frame c Suspended g cs v e s ->
  Msg.frame c Scheduled g cs v' e (Coro_resume c v' s).2.
Proof.
  intros (coro & Hl & Hst & Hg & Hcs & Hv & He).
  unfold Coro_resume. rewrite Hl.
  rewrite (resume_unscheduled_eq c v' coro s Hl) by (by rewrite Hst).
  cbn. eexists. cbn. rewrite lookup_insert_eq. split; [reflexivity|].
  by repeat split.
Qed.

Lemma frame_throw (c : Z) (g : nat) (cs : list (nat * pyval))
      (v : pyval) (e : option (exc_kind * pyval)) (kind : exc_kind)
      (payload : pyval) (s : AsynCoro) :
  Msg.frame c Suspended g cs v e s ->
  Msg.frame c Scheduled g cs v (Some (kind, payload))
            (Coro_throw c kind payload s).2.
Proof.
  intros (coro & Hl & Hst & Hg & Hcs & Hv & He).
  unfold Coro_throw, _throw. rewrite Hl.
  destruct (decide _) as [_|Hn]; [|exfalso; apply Hn; auto].
  cbn. eexists. rewrite coros_interrupt_notifier. cbn.
  rewrite lookup_insert_eq. split; [reflexivity|]. by repeat split.
Qed.

(** The [else:] clause on a value that is no generator. *)
Lemma frame_step_returned (c : Z) (st : coro_state) (g : nat)
      (cs : list (nat * pyval)) (v rv : pyval)
      (e : option (exc_kind * pyval)) (s : AsynCoro) :
  Msg.frame c st g cs v e s ->
  (forall g', rv <> PGenerator g') ->
  exists s',
    step_returned c (Some rv) s = (s', None)
    /\ Msg.frame c (if decide (st = Running) then Scheduled else st) g cs
                 (if decide (st = Running) then rv else v) e s'.
Proof.
  intros (coro & Hl & Hst & Hg & Hcs & Hv & He) Hrv.
  unfold step_returned. cbn [_coros set_cur_coro]. rewrite Hl, Hst.
  destruct (decide (st = Running)) as [->|Hne].
  - destruct rv; try (eexists; split; [reflexivity|]; eexists; cbn;
      rewrite lookup_insert_eq; by repeat split).
    by specialize (Hrv g0).
  - destruct rv; try (eexists; split; [reflexivity|]; eexists; cbn;
      rewrite lookup_insert_eq; by repeat split).
    by specialize (Hrv g0).
Qed.

(** The [except:] clause in a called generator: back to the caller. *)
Lemma frame_step_raised (c : Z) (st : coro_state) (g g0 : nat) (v0 : pyval)
      (cs : list (nat * pyval)) (v : pyval)
      (e : option (exc_kind * pyval)) (kind : exc_kind) (payload : pyval)
      (s : AsynCoro) :
  Msg.frame c st g (cs ++ [(g0, v0)]) v e s ->
  Msg.frame c Scheduled g0 cs
            (if decide (kind = StopIteration) then v else v0)
            (if decide (kind = StopIteration) then None
             else Some (kind, payload))
            (step_raised c kind payload s).
Proof.
  intros (coro & Hl & Hst & Hg & Hcs & Hv & He).
  unfold step_raised. cbn [_coros set_cur_coro]. rewrite Hl, Hcs.
  rewrite reverse_app, reverse_singleton. cbn [app].
  eexists. cbn. rewrite lookup_insert_eq. split; [reflexivity|]. cbn.
  rewrite reverse_involutive.
  destruct (decide (kind = StopIteration)); by repeat split.
Qed.

Lemma recv_keeps_nonempty (n : Z) (sk sk' : rsock) (r : outcome bytes) :
  recv n sk = (r, sk') ->
  Forall nonempty (rx sk) ->
  Forall nonempty (rx sk') /\ (length (rx sk') <= length (rx sk))%nat.
Proof.
  unfold recv. destruct (Z.ltb_spec n 0) as [|Hn]; [by intros [= _ <-]|].
  destruct (rx sk) as [|[|b seg] rest] eqn:E.
  - intros [= _ <-]. by rewrite E.
  - intros [= _ <-]. by rewrite E.
  - intros Hr Hall. apply Forall_cons in Hall as [_ Hall].
    destruct (Z.leb_spec (len (b :: seg)) n) as [Hle|Hgt];
      injection Hr as _ <-; cbn [rx].
    + split; [done | simpl; lia].
    + split; [|done]. constructor; [|done].
      unfold nonempty. intros Hd. apply (f_equal length) in Hd.
      rewrite length_drop in Hd. unfold len in Hgt.
      cbn [length] in Hd, Hgt. lia.
Qed.

Lemma poll_readable_keeps_nonempty (events : nat) :
  forall (sock sock' : AsynCoroSocket) (s s' : AsynCoro),
    poll_readable events sock s = (sock', s') ->
    Forall nonempty (rx (_rsock sock)) ->
    Forall nonempty (rx (_rsock sock'))
    /\ (length (rx (_rsock sock')) <= length (rx (_rsock sock)))%nat.
Proof.
  induction events as [|events IH]; intros sock sock' s s' E Hall.
  { injection E as <- <-. done. }
  cbn [poll_readable] in E.
  destruct (_task sock) as [[pending]|] eqn:Et;
    [|injection E as <- <-; done].
  unfold readable in E. rewrite Et in E. unfold _recvall in E.
  destruct (recv pending (_rsock sock)) as [r rs] eqn:Er.
  destruct (recv_keeps_nonempty _ _ _ _ Er Hall) as [Hall' Hlen'].
  assert (Hstep : forall sock1 s1,
             _rsock sock1 = rs \/ sock1 = sock ->
             poll_readable events sock1 s1 = (sock', s') ->
             Forall nonempty (rx (_rsock sock'))
             /\ (length (rx (_rsock sock')) <= length (rx (_rsock sock)))%nat).
  { intros sock1 s1 Hrs E1.
    destruct (IH sock1 sock' s1 s' E1) as [H1 H2].
    - by destruct Hrs as [->| ->].
    - split; [done|]. destruct Hrs as [Hrs| ->]; [|done].
      rewrite Hrs in H2. lia. }
  destruct r as [[|b buf]|kind msg|];
    [| destruct (_result sock) as [chunks|];
       [destruct (_ =? 0)|] | |];
    (eapply Hstep; [|exact E]; auto).
Qed.

Lemma pack_header (n : Z) (hdr : bytes) :
  struct_pack_L n = Return hdr ->
  length hdr = 4%nat /\ struct_unpack_L hdr = Return n /\ 0 <= n < 2 ^ 32.
Proof.
  intros E. unfold struct_pack_L in E.
  destruct ((0 <=? n) && (n <? 2 ^ 32)) eqn:Hr; [|discriminate].
  apply andb_true_iff in Hr as [H0%Z.leb_le H1%Z.ltb_lt].
  destruct (struct_unpack_pack n) as (hdr' & E' & Hlen & Hun); [lia|].
  unfold struct_pack_L in E'.
  assert ((0 <=? n) && (n <? 2 ^ 32) = true) as Hr'
    by (apply andb_true_iff; split; [apply Z.leb_le | apply Z.ltb_lt]; lia).
  rewrite Hr' in E'. assert (hdr' = hdr) as -> by congruence.
  repeat split; done || lia.
Qed.

(** A step that calls [recvall(n)] on a socket without SSL: the task is
    armed, [None] is yielded and the coroutine is left suspended. *)
Lemma step_recv_arms (c : Z) (g : nat) (cs : list (nat * pyval)) (v : pyval)
      (n : Z) (p next : Msg.recv_pc) (sock : AsynCoroSocket) (th : thread) :
  died th = None ->
  Msg.frame c Scheduled g cs v None (sched th) ->
  _certfile sock = false ->
  (forall s, Msg.recv_resume p (Msg.Send v) sock s
             = Msg.yield_recvall n next sock s) ->
  exists th',
    Msg.step_recv_msg c (p, sock, th)
    = (next,
       {| _rsock := _rsock sock; _certfile := false; _result := Some [];
          _task := Some (Task_recvall n); _coro := Some c;
          _interest := _Readable |}, th')
    /\ died th' = None
    /\ Msg.frame c Suspended g cs v None (sched th').
Proof.
  intros Hd Hf Hcf Hres. unfold Msg.step_recv_msg. rewrite Hd.
  destruct (frame_begin_step _ _ _ _ _ _ Hf) as (sb & -> & Hfb & Hcur).
  assert (Hin : Msg.input_of None c sb = Msg.Send v).
  { destruct Hfb as (coro & Hl & _ & _ & _ & Hv & _).
    unfold Msg.input_of. by rewrite Hl, Hv. }
  rewrite Hin, Hres. unfold Msg.yield_recvall, async_recvall.
  rewrite Hcf, Hcur.
  apply frame_suspend in Hfb.
  destruct (frame_step_returned c Suspended g cs v PNone None _ Hfb)
    as (s' & Es & Hf'); [done|].
  unfold Msg.end_step. cbn [try_block]. rewrite Es.
  eexists. split; [reflexivity|]. split; [done|]. exact Hf'.
Qed.

(** The notifier's events bring the [n] bytes the task waits for. *)
Lemma events_recv_delivers (c : Z) (g : nat) (cs : list (nat * pyval))
      (v : pyval) (e : option (exc_kind * pyval)) (n : Z) (p : Msg.recv_pc)
      (segs : list bytes) (t : bytes) (w : list nat) (cf : bool) (i : Z)
      (events : nat) (th : thread) :
  Msg.frame c Suspended g cs v e (sched th) ->
  Forall nonempty segs ->
  0 < n <= len (concat segs) ->
  (length segs <= events)%nat ->
  exists rest th',
    Msg.events_recv events
      (p, {| _rsock := {| rx := segs; tx := t; accepts := w |};
             _certfile := cf; _result := Some [];
             _task := Some (Task_recvall n); _coro := Some c;
             _interest := i |}, th)
    = (p, {| _rsock := {| rx := rest; tx := t; accepts := w |};
             _certfile := cf; _result := None; _task := None;
             _coro := None; _interest := 0 |}, th')
    /\ concat rest = drop (Z.to_nat n) (concat segs)
    /\ Forall nonempty rest /\ (length rest <= length segs)%nat
    /\ died th' = died th
    /\ Msg.frame c Scheduled g cs (PStr (take (Z.to_nat n) (concat segs))) e
                 (sched th').
Proof.
  intros Hf Hne Hn Hev. unfold Msg.events_recv.
  destruct (poll_readable_enough segs n [] events t w cf i c (sched th)
              Hne Hn Hev) as (rest & E & Hrest).
  destruct (poll_readable_keeps_nonempty _ _ _ _ _ E Hne) as [Hne' Hlen'].
  rewrite E. eexists rest, _. split; [reflexivity|].
  split; [done|]. split; [done|]. split; [done|]. split; [done|].
  cbn [Msg.with_sched sched concat app].
  by apply (frame_resume c g cs v).
Qed.

(** The peer closes before the [n] bytes are there. *)
Lemma events_recv_closed (c : Z) (g : nat) (cs : list (nat * pyval))
      (v : pyval) (e : option (exc_kind * pyval)) (n : Z) (p : Msg.recv_pc)
      (segs : list bytes) (t : bytes) (w : list nat) (cf : bool) (i : Z)
      (events : nat) (th : thread) :
  Msg.frame c Suspended g cs v e (sched th) ->
  Forall nonempty segs ->
  len (concat segs) < n ->
  (length segs < events)%nat ->
  exists th',
    Msg.events_recv events
      (p, {| _rsock := {| rx := segs; tx := t; accepts := w |};
             _certfile := cf; _result := Some [];
             _task := Some (Task_recvall n); _coro := Some c;
             _interest := i |}, th)
    = (p, {| _rsock := {| rx := []; tx := t; accepts := w |};
             _certfile := cf; _result := None; _task := None;
             _coro := None; _interest := 0 |}, th')
    /\ died th' = died th
    /\ Msg.frame c Scheduled g cs v
                 (Some (socket_error, PExc socket_error "recv error"))
                 (sched th').
Proof.
  intros Hf Hne Hn Hev. unfold Msg.events_recv.
  rewrite (poll_readable_short segs n [] events t w cf i c (sched th) Hne)
    by (pose proof (len_nonneg (concat segs)); lia || done).
  eexists. split; [reflexivity|]. split; [done|].
  cbn [Msg.with_sched sched]. by apply (frame_throw c g cs v e).
Qed.

(** The step at [yield data]. *)
Lemma step_recv_yields_data (c : Z) (g : nat) (cs : list (nat * pyval))
      (data : bytes) (n : Z) (sock : AsynCoroSocket) (th : thread) :
  died th = None ->
  Msg.frame c Scheduled g cs (PStr data) None (sched th) ->
  n <= len data ->
  exists th',
    Msg.step_recv_msg c (Msg.RecvPayload n, sock, th)
    = (Msg.RecvData, sock, th')
    /\ died th' = None
    /\ Msg.frame c Scheduled g cs (PStr data) None (sched th').
Proof.
  intros Hd Hf Hn. unfold Msg.step_recv_msg. rewrite Hd.
  destruct (frame_begin_step _ _ _ _ _ _ Hf) as (sb & -> & Hfb & Hcur).
  assert (Hin : Msg.input_of None c sb = Msg.Send (PStr data)).
  { destruct Hfb as (coro & Hl & _ & _ & _ & Hv & _).
    unfold Msg.input_of. by rewrite Hl, Hv. }
  rewrite Hin. cbn [Msg.recv_resume].
  destruct (Z.ltb_spec (len data) n) as [|_]; [lia|].
  destruct (frame_step_returned c Running g cs (PStr data) (PStr data) None
              _ Hfb) as (s' & Es & Hf'); [done|].
  unfold Msg.end_step. cbn [try_block]. rewrite Es.
  eexists. split; [reflexivity|]. split; [done|].
  by destruct (decide (Running = Running)).
Qed.

(** The step after the last [yield]: the generator ends and the caller
    gets the value. *)
Lemma step_recv_ends (c : Z) (g g0 : nat) (v0 : pyval)
      (cs : list (nat * pyval)) (v : pyval) (sock : AsynCoroSocket)
      (th : thread) :
  died th = None ->
  Msg.frame c Scheduled g (cs ++ [(g0, v0)]) v None (sched th) ->
  exists th',
    Msg.step_recv_msg c (Msg.RecvData, sock, th)
    = (Msg.RecvFinished, sock, th')
    /\ died th' = None
    /\ Msg.frame c Scheduled g0 cs v None (sched th').
Proof.
  intros Hd Hf. unfold Msg.step_recv_msg. rewrite Hd.
  destruct (frame_begin_step _ _ _ _ _ _ Hf) as (sb & -> & Hfb & Hcur).
  assert (Hin : exists x, Msg.input_of None c sb = Msg.Send x)
    by (by eexists).
  destruct Hin as [x ->]. cbn [Msg.recv_resume].
  unfold Msg.end_step. cbn [try_block].
  eexists. split; [reflexivity|]. split; [done|].
  apply (frame_step_raised c Running g g0 v0 cs v None StopIteration PNone)
    in Hfb.
  by destruct (decide (StopIteration = StopIteration)).
Qed.

(** The step in which [socket.error] is thrown into the generator at
    one of its [yield]s: it goes on to the caller. *)
Lemma step_recv_thrown (c : Z) (g g0 : nat) (v0 : pyval)
      (cs : list (nat * pyval)) (v payload : pyval) (p : Msg.recv_pc)
      (sock : AsynCoroSocket) (th : thread) :
  died th = None ->
  Msg.frame c Scheduled g (cs ++ [(g0, v0)]) v
            (Some (socket_error, payload)) (sched th) ->
  exists th',
    Msg.step_recv_msg c (p, sock, th) = (Msg.RecvFinished, sock, th')
    /\ died th' = None
    /\ Msg.frame c Scheduled g0 cs v0 (Some (socket_error, payload))
                 (sched th').
Proof.
  intros Hd Hf. unfold Msg.step_recv_msg. rewrite Hd.
  destruct (frame_begin_step _ _ _ _ _ _ Hf) as (sb & -> & Hfb & Hcur).
  cbn [Msg.input_of Msg.recv_resume].
  unfold Msg.end_step. cbn [try_block].
  eexists. split; [reflexivity|]. split; [done|].
  apply (frame_step_raised c Running g g0 v0 cs v None socket_error payload)
    in Hfb.
  by destruct (decide (socket_error = StopIteration)).
Qed.

(** X26. [async_recv_msg], called as a sub-generator by the coroutine
    [c] on a socket without SSL whose stream starts with the header of a
    non-empty payload and the payload, however the peer cut it: the first
    step arms [recvall(4)] and suspends [c]; the notifier's events read
    the header and resume [c]; the second step decodes the length and
    arms [recvall(n)]; the events read the payload; the third step yields
    it and the fourth ends the generator.  Then [c] is ready in the
    calling generator with the payload as the value of its [yield],
    nothing pending, and exactly header and payload are off the stream. *)
Theorem async_recv_msg_delivers (c : Z) (g g0 : nat) (v0 : pyval)
        (cs : list (nat * pyval)) (payload more hdr : bytes)
        (segs : list bytes) (t : bytes) (w : list nat) (events : nat)
        (sock : AsynCoroSocket) (th : thread) :
  died th = None ->
  Msg.frame c Scheduled g (cs ++ [(g0, v0)]) PNone None (sched th) ->
  _certfile sock = false ->
  _rsock sock = {| rx := segs; tx := t; accepts := w |} ->
  struct_pack_L (len payload) = Return hdr ->
  payload <> [] ->
  Forall nonempty segs ->
  concat segs = hdr ++ payload ++ more ->
  (length segs <= events)%nat ->
  exists rest th',
    Msg.step_recv_msg c
      (Msg.step_recv_msg c
         (Msg.events_recv events
            (Msg.step_recv_msg c
               (Msg.events_recv events
                  (Msg.step_recv_msg c (Msg.RecvNotStarted, sock, th))))))
    = (Msg.RecvFinished,
       {| _rsock := {| rx := rest; tx := t; accepts := w |};
          _certfile := false; _result := None; _task := None;
          _coro := None; _interest := 0 |}, th')
    /\ concat rest = more
    /\ died th' = None
    /\ Msg.frame c Scheduled g0 cs (PStr payload) None (sched th').
Proof.
  intros Hd Hf Hcf Hrs Hpack Hpay Hne Hcat Hev.
  destruct (pack_header _ _ Hpack) as (Hlen & Hun & Hrange).
  assert (Hpos : 0 < len payload)
    by (destruct payload; [done | unfold len; simpl; lia]).
  (* the header *)
  destruct (step_recv_arms c g _ PNone 4 Msg.RecvNotStarted Msg.RecvHeader
              sock th Hd Hf Hcf) as (th1 & E1 & Hd1 & Hf1); [done|].
  rewrite E1, Hrs. clear E1.
  destruct (events_recv_delivers c g _ PNone None 4 Msg.RecvHeader segs t w
              false _Readable events th1 Hf1 Hne)
    as (rest1 & th2 & E2 & Hrest1 & Hne1 & Hlen1 & Hd2 & Hf2);
    [rewrite Hcat, !len_app; unfold len; lia | done |].
  rewrite E2. clear E2.
  assert (Htake : take (Z.to_nat 4) (concat segs) = hdr).
  { rewrite Hcat. change (Z.to_nat 4) with 4%nat. rewrite <- Hlen.
    by rewrite take_app_length. }
  rewrite Htake in Hf2.
  assert (Hcat1 : concat rest1 = payload ++ more).
  { rewrite Hrest1, Hcat. change (Z.to_nat 4) with 4%nat. rewrite <- Hlen.
    by rewrite drop_app_length. }
  (* the payload *)
  rewrite Hd1 in Hd2.
  destruct (step_recv_arms c g _ (PStr hdr) (len payload) Msg.RecvHeader
              (Msg.RecvPayload (len payload))
              {| _rsock := {| rx := rest1; tx := t; accepts := w |};
                 _certfile := false; _result := None; _task := None;
                 _coro := None; _interest := 0 |} th2 Hd2 Hf2 eq_refl)
    as (th3 & E3 & Hd3 & Hf3).
  { intros s. cbn [Msg.recv_resume]. unfold struct_calcsize_L.
    destruct (Z.ltb_spec (len hdr) 4) as [Hlt|_];
      [unfold len in Hlt; lia|].
    unfold Msg.after_header. rewrite Hun.
    by destruct (Z.gtb_spec (len payload) 0); [|lia]. }
  rewrite E3. cbn [_rsock]. clear E3.
  destruct (events_recv_delivers c g _ (PStr hdr) None (len payload)
              (Msg.RecvPayload (len payload)) rest1 t w false _Readable
              events th3 Hf3 Hne1)
    as (rest2 & th4 & E4 & Hrest2 & Hne2 & Hlen2 & Hd4 & Hf4);
    [rewrite Hcat1, len_app; pose proof (len_nonneg more); lia | lia |].
  rewrite E4. clear E4.
  assert (Hn : Z.to_nat (len payload) = length payload)
    by (unfold len; lia).
  rewrite Hcat1, Hn, take_app_length in Hf4.
  rewrite Hcat1, Hn, drop_app_length in Hrest2.
  (* the result *)
  rewrite Hd3 in Hd4.
  destruct (step_recv_yields_data c g _ payload (len payload)
              {| _rsock := {| rx := rest2; tx := t; accepts := w |};
                 _certfile := false; _result := None; _task := None;
                 _coro := None; _interest := 0 |} th4 Hd4 Hf4)
    as (th5 & E5 & Hd5 & Hf5); [lia|].
  rewrite E5. clear E5.
  destruct (step_recv_ends c g g0 v0 cs (PStr payload)
              {| _rsock := {| rx := rest2; tx := t; accepts := w |};
                 _certfile := false; _result := None; _task := None;
                 _coro := None; _interest := 0 |} th5 Hd5 Hf5)
    as (th6 & E6 & Hd6 & Hf6).
  rewrite E6. by exists rest2, th6.
Qed.

Lemma frame_calling_example :
  Msg.frame 1 Scheduled 5 ([] ++ [(0%nat, PGenerator 5)]) PNone None
            calling_example.
Proof.
  eexists. split; [apply lookup_singleton_Some; split; reflexivity|].
  by repeat split.
Qed.

Lemma async_recv_msg_delivers_witness :
  exists rest th',
    Msg.step_recv_msg 1
      (Msg.step_recv_msg 1
         (Msg.events_recv 2
            (Msg.step_recv_msg 1
               (Msg.events_recv 2
                  (Msg.step_recv_msg 1
                     (Msg.RecvNotStarted,
                      {| _rsock := {| rx := [[x00; x00; x00; x02; x68]; [x69]];
                                      tx := []; accepts := [] |};
                         _certfile := false; _result := None; _task := None;
                         _coro := None; _interest := 0 |},
                      {| sched := calling_example; retval := None;
                         died := None |}))))))
    = (Msg.RecvFinished,
       {| _rsock := {| rx := rest; tx := []; accepts := [] |};
          _certfile := false; _result := None; _task := None;
          _coro := None; _interest := 0 |}, th')
    /\ Msg.frame 1 Scheduled 0 [] (PStr [x68; x69]) None (sched th').
Proof.
  pose proof (async_recv_msg_delivers 1 5 0 (PGenerator 5) [] [x68; x69] []
                [x00; x00; x00; x02] [[x00; x00; x00; x02; x68]; [x69]] [] []
                2
                {| _rsock := {| rx := [[x00; x00; x00; x02; x68]; [x69]];
                                tx := []; accepts := [] |};
                   _certfile := false; _result := None; _task := None;
                   _coro := None; _interest := 0 |}
                {| sched := calling_example; retval := None; died := None |}
                eq_refl frame_calling_example eq_refl eq_refl eq_refl) as H.
  assert (H1 : [x68; x69] <> @nil byte) by discriminate.
  assert (H2 : Forall nonempty [[x00; x00; x00; x02; x68]; [x69]])
    by (by repeat constructor).
  assert (H3 : (length [[x00; x00; x00; x02; x68]; [x69]] <= 2)%nat)
    by (simpl; lia).
  destruct (H H1 H2 eq_refl H3) as (rest & th' & E & _ & _ & Hf).
  exists rest, th'. split; [exact E | exact Hf].
Defined.

(** X27. A disconnect never makes [async_recv_msg] hand [None] to its
    caller: when the peer closes before the header is complete, or after
    a header that announces more than it then sends, [recvall]'s task
    throws [socket.error] into the coroutine, the next step throws it
    into the generator at its [yield], and the coroutine is back in the
    calling generator with [socket.error] pending and the value saved at
    the call; the two tests [len(data) < n] of the generator are not
    reached. *)
Theorem async_recv_msg_disconnect (c : Z) (g g0 : nat) (v0 : pyval)
        (cs : list (nat * pyval)) (segs : list bytes) (t : bytes)
        (w : list nat) (events : nat) (sock : AsynCoroSocket) (th : thread) :
  died th = None ->
  Msg.frame c Scheduled g (cs ++ [(g0, v0)]) PNone None (sched th) ->
  _certfile sock = false ->
  _rsock sock = {| rx := segs; tx := t; accepts := w |} ->
  Forall nonempty segs ->
  (length segs < events)%nat ->
  let closed :=
    {| _rsock := {| rx := []; tx := t; accepts := w |};
       _certfile := false; _result := None; _task := None;
       _coro := None; _interest := 0 |} in
  let failed th' :=
    died th' = None
    /\ Msg.frame c Scheduled g0 cs v0
                 (Some (socket_error, PExc socket_error "recv error"))
                 (sched th') in
  (len (concat segs) < 4 ->
   exists th',
     Msg.step_recv_msg c
       (Msg.events_recv events
          (Msg.step_recv_msg c (Msg.RecvNotStarted, sock, th)))
     = (Msg.RecvFinished, closed, th')
     /\ failed th')
  /\ (forall hdr part n,
        concat segs = hdr ++ part ->
        struct_pack_L n = Return hdr ->
        len part < n ->
        exists th',
          Msg.step_recv_msg c
            (Msg.events_recv events
               (Msg.step_recv_msg c
                  (Msg.events_recv events
                     (Msg.step_recv_msg c (Msg.RecvNotStarted, sock, th)))))
          = (Msg.RecvFinished, closed, th')
          /\ failed th').
Proof.
  intros Hd Hf Hcf Hrs Hne Hev. cbv zeta.
  set (closed := {| _rsock := {| rx := []; tx := t; accepts := w |};
                    _certfile := false; _result := None; _task := None;
                    _coro := None; _interest := 0 |}).
  destruct (step_recv_arms c g _ PNone 4 Msg.RecvNotStarted Msg.RecvHeader
              sock th Hd Hf Hcf) as (th1 & E1 & Hd1 & Hf1); [done|].
  rewrite E1, Hrs. clear E1. split.
  - intros Hshort.
    destruct (events_recv_closed c g _ PNone None 4 Msg.RecvHeader segs t w
                false _Readable events th1 Hf1 Hne Hshort Hev)
      as (th2 & E2 & Hd2 & Hf2).
    rewrite E2. clear E2. rewrite Hd1 in Hd2.
    destruct (step_recv_thrown c g g0 v0 cs PNone
                (PExc socket_error "recv error") Msg.RecvHeader closed th2
                Hd2 Hf2) as (th3 & E3 & Hd3 & Hf3).
    exists th3. subst closed. by rewrite E3.
  - intros hdr part n Hcat Hpack Hpart.
    destruct (pack_header _ _ Hpack) as (Hlen & Hun & Hrange).
    pose proof (len_nonneg part) as Hp0.
    destruct (events_recv_delivers c g _ PNone None 4 Msg.RecvHeader segs t w
                false _Readable events th1 Hf1 Hne)
      as (rest1 & th2 & E2 & Hrest1 & Hne1 & Hlen1 & Hd2 & Hf2);
      [rewrite Hcat, len_app; unfold len in *; lia | lia |].
    rewrite E2. clear E2.
    assert (Htake : take (Z.to_nat 4) (concat segs) = hdr).
    { rewrite Hcat. change (Z.to_nat 4) with 4%nat. rewrite <- Hlen.
      by rewrite take_app_length. }
    rewrite Htake in Hf2.
    assert (Hcat1 : concat rest1 = part).
    { rewrite Hrest1, Hcat. change (Z.to_nat 4) with 4%nat. rewrite <- Hlen.
      by rewrite drop_app_length. }
    rewrite Hd1 in Hd2.
    destruct (step_recv_arms c g _ (PStr hdr) n Msg.RecvHeader
                (Msg.RecvPayload n)
                {| _rsock := {| rx := rest1; tx := t; accepts := w |};
                   _certfile := false; _result := None; _task := None;
                   _coro := None; _interest := 0 |} th2 Hd2 Hf2 eq_refl)
      as (th3 & E3 & Hd3 & Hf3).
    { intros s. cbn [Msg.recv_resume]. unfold struct_calcsize_L.
      destruct (Z.ltb_spec (len hdr) 4) as [Hlt|_];
        [unfold len in Hlt; lia|].
      unfold Msg.after_header. rewrite Hun.
      by destruct (Z.gtb_spec n 0); [|lia]. }
    rewrite E3. cbn [_rsock]. clear E3.
    destruct (events_recv_closed c g _ (PStr hdr) None n (Msg.RecvPayload n)
                rest1 t w false _Readable events th3 Hf3 Hne1)
      as (th4 & E4 & Hd4 & Hf4); [by rewrite Hcat1 | lia |].
    rewrite E4. clear E4. rewrite Hd3 in Hd4.
    destruct (step_recv_thrown c g g0 v0 cs (PStr hdr)
                (PExc socket_error "recv error") (Msg.RecvPayload n) closed
                th4 Hd4 Hf4) as (th5 & E5 & Hd5 & Hf5).
    exists th5. subst closed. by rewrite E5.
Qed.

Lemma async_recv_msg_disconnect_witness :
  exists th',
    Msg.step_recv_msg 1
      (Msg.events_recv 2
         (Msg.step_recv_msg 1
            (Msg.RecvNotStarted,
             {| _rsock := {| rx := [[x00; x00]]; tx := []; accepts := [] |};
                _certfile := false; _result := None; _task := None;
                _coro := None; _interest := 0 |},
             {| sched := calling_example; retval := None; died := None |})))
    = (Msg.RecvFinished,
       {| _rsock := {| rx := []; tx := []; accepts := [] |};
          _certfile := false; _result := None; _task := None;
          _coro := None; _interest := 0 |}, th')
    /\ Msg.frame 1 Scheduled 0 [] (PGenerator 5)
                 (Some (socket_error, PExc socket_error "recv error"))
                 (sched th').
Proof.
  assert (H2 : Forall nonempty [[x00; x00]]) by (by repeat constructor).
  assert (H3 : (length [[x00; x00]] < 2)%nat) by (simpl; lia).
  pose proof (async_recv_msg_disconnect 1 5 0 (PGenerator 5) [] [[x00; x00]]
                [] [] 2
                {| _rsock := {| rx := [[x00; x00]]; tx := []; accepts := [] |};
                   _certfile := false; _result := None; _task := None;
                   _coro := None; _interest := 0 |}
                {| sched := calling_example; retval := None; died := None |}
                eq_refl frame_calling_example eq_refl eq_refl H2 H3)
    as [Hshort _].
  destruct (Hshort eq_refl) as (th' & E & _ & Hf).
  exists th'. split; [exact E | exact Hf].
Defined.

(** X28. [async_send_msg], called as a sub-generator by the coroutine
    [c]: the first step packs the length, arms [sendall] for header and
    data and suspends [c]; with one writable event more than the kernel's
    partial writes, exactly the header followed by the data is on the
    wire and [c] is resumed with 0; the second step ends the generator,
    and [c] is ready in the calling generator with 0 as the value of its
    [yield].  This holds for the empty string as well, whose message is
    the header alone. *)
Theorem async_send_msg_delivers (c : Z) (g g0 : nat) (v0 : pyval)
        (cs : list (nat * pyval)) (data hdr : bytes) (r : list bytes)
        (t : bytes) (w : list nat) (events : nat)
        (sock : Aio.AsynCoroSocket) (th : thread) :
  died th = None ->
  Msg.frame c Scheduled g (cs ++ [(g0, v0)]) PNone None (sched th) ->
  Aio._rsock sock = {| rx := r; tx := t; accepts := w |} ->
  struct_pack_L (len data) = Return hdr ->
  (length w < events)%nat ->
  exists w' th',
    Msg.step_send_msg data c
      (Msg.events_send events
         (Msg.step_send_msg data c (Msg.SendNotStarted, sock, th)))
    = (Msg.SendFinished,
       {| Aio._rsock := {| rx := r; tx := t ++ hdr ++ data; accepts := w' |};
          Aio._certfile := Aio._certfile sock; Aio._result := None;
          Aio._task := None; Aio._coro := None; Aio._interest := 0 |}, th')
    /\ died th' = None
    /\ Msg.frame c Scheduled g0 cs (PInt 0) None (sched th').
Proof.
  intros Hd Hf Hrs Hpack Hev.
  destruct (pack_header _ _ Hpack) as (Hlen & _ & _).
  assert (Hmsg : hdr ++ data <> []) by (by destruct hdr).
  (* the first step *)
  unfold Msg.step_send_msg at 2. rewrite Hd.
  destruct (frame_begin_step _ _ _ _ _ _ Hf) as (sb & -> & Hfb & Hcur).
  assert (Hin : Msg.input_of None c sb = Msg.Send PNone).
  { destruct Hfb as (coro & Hl & _ & _ & _ & Hv & _).
    unfold Msg.input_of. by rewrite Hl, Hv. }
  rewrite Hin. cbn [Msg.send_resume]. rewrite Hpack.
  unfold Aio.async_sendall, Aio.arm. rewrite Hcur, Hrs.
  apply frame_suspend in Hfb.
  destruct (frame_step_returned c Suspended g _ PNone PNone None _ Hfb)
    as (s1 & Es & Hf1); [done|].
  unfold Msg.end_step. cbn [try_block]. rewrite Es.
  destruct (decide (Suspended = Running)) as [|_]; [done|].
  (* the writable events *)
  unfold Msg.events_send. cbn [sched].
  destruct (aio_poll_sendall w (hdr ++ data) events r t (Aio._certfile sock)
              Aio._Writable c s1 Hmsg Hev) as (w' & ->).
  apply (frame_resume c g _ PNone (PInt 0)) in Hf1.
  (* the second step *)
  unfold Msg.step_send_msg, Msg.with_sched. cbn [died sched retval].
  destruct (frame_begin_step _ _ _ _ _ _ Hf1) as (sb2 & -> & Hfb2 & _).
  assert (Hin2 : exists x, Msg.input_of None c sb2 = Msg.Send x)
    by (by eexists).
  destruct Hin2 as [x ->]. cbn [Msg.send_resume].
  unfold Msg.end_step. cbn [try_block].
  exists w'. eexists. split; [reflexivity|]. split; [done|].
  apply (frame_step_raised c Running g g0 v0 cs (PInt 0) None StopIteration
           PNone) in Hfb2.
  by destruct (decide (StopIteration = StopIteration)).
Qed.

Lemma async_send_msg_delivers_witness :
  exists w' th',
    Msg.step_send_msg [x68; x69] 1
      (Msg.events_send 2
         (Msg.step_send_msg [x68; x69] 1
            (Msg.SendNotStarted,
             {| Aio._rsock := {| rx := []; tx := []; accepts := [3%nat] |};
                Aio._certfile := false; Aio._result := None;
                Aio._task := None; Aio._coro := None; Aio._interest := 0 |},
             {| sched := calling_example; retval := None; died := None |})))
    = (Msg.SendFinished,
       {| Aio._rsock := {| rx := [];
                           tx := [] ++ [x00; x00; x00; x02] ++ [x68; x69];
                           accepts := w' |};
          Aio._certfile := false; Aio._result := None;
          Aio._task := None; Aio._coro := None; Aio._interest := 0 |}, th')
    /\ Msg.frame 1 Scheduled 0 [] (PInt 0) None (sched th').
Proof.
  assert (H3 : (length [3%nat] < 2)%nat) by (simpl; lia).
  destruct (async_send_msg_delivers 1 5 0 (PGenerator 5) [] [x68; x69]
              [x00; x00; x00; x02] [] [] [3%nat] 2
              {| Aio._rsock := {| rx := []; tx := []; accepts := [3%nat] |};
                 Aio._certfile := false; Aio._result := None;
                 Aio._task := None; Aio._coro := None; Aio._interest := 0 |}
              {| sched := calling_example; retval := None; died := None |}
              eq_refl frame_calling_example eq_refl eq_refl H3)
    as (w' & th' & E & _ & Hf).
  exists w', th'. split; [exact E | exact Hf].
Defined.

(** ** [_SelectNotifier] *)

Lemma mark_lookup (event : Z) (l : list Z) :
  forall (events : gmap Z Z) (fid : Z),
    Select.mark event l events !! fid
    = if decide (fid ∈ l) then Some event else events !! fid.
Proof.
  unfold Select.mark. induction l as [|k l IH]; intros events fid; simpl.
  - destruct (decide (fid ∈ [])) as [H|_]; [|done]. by apply elem_of_nil in H.
  - rewrite IH. destruct (decide (fid ∈ l)) as [Hin|Hnin].
    + rewrite decide_True; [done | by right].
    + destruct (decide (fid = k)) as [->|Hne].
      * rewrite lookup_insert_eq, decide_True; [done | by left].
      * rewrite lookup_insert_ne by done.
        rewrite decide_False; [done|].
        intros [?|?]%elem_of_cons; done.
Qed.

(** X29. The [select] poller keeps a descriptor under one event only:
    after [modify(fid, event)] the descriptor is in the read set exactly
    for [_Readable], in the write set exactly for [_Writable], in the
    error set exactly for another mask with the error bit, and every
    other descriptor is where it was; [modify] and [unregister] keep the
    three sets pairwise disjoint, and [unregister] removes the descriptor
    from all three.  [poll] reports one event for each descriptor that
    [select] returned, an error before a write and a write before a
    read. *)
Theorem select_notifier_exclusive (N : Select.SelectNotifier)
        (fid event : Z) :
  Select.exclusive N ->
  let N' := Select.modify fid event N in
  (fid ∈ Select.rset N' <-> event = Select._Readable)
  /\ (fid ∈ Select.wset N' <-> event = Select._Writable)
  /\ (fid ∈ Select.xset N'
      <-> event <> Select._Readable /\ event <> Select._Writable
          /\ Z.land event Select._Error <> 0)
  /\ (forall fid', fid' <> fid ->
        (fid' ∈ Select.rset N' <-> fid' ∈ Select.rset N)
        /\ (fid' ∈ Select.wset N' <-> fid' ∈ Select.wset N)
        /\ (fid' ∈ Select.xset N' <-> fid' ∈ Select.xset N))
  /\ Select.exclusive N'
  /\ Select.exclusive (Select.unregister fid N)
  /\ fid ∉ Select.rset (Select.unregister fid N)
     ∪ Select.wset (Select.unregister fid N)
     ∪ Select.xset (Select.unregister fid N)
  /\ forall rlist wlist xlist fid',
       Select.poll rlist wlist xlist !! fid'
       = if decide (fid' ∈ xlist) then Some Select._Error
         else if decide (fid' ∈ wlist) then Some Select._Writable
         else if decide (fid' ∈ rlist) then Some Select._Readable
         else None.
Proof.
  intros (Hrw & Hrx & Hwx) N'. subst N'.
  unfold Select.modify, Select.register, Select.unregister,
    Select.exclusive, Select._Readable, Select._Writable, Select._Error.
  assert (Hland0 : Z.land 0 4 = 0) by reflexivity.
  split; [|split; [|split; [|split; [|split; [|split; [|split]]]]]].
  - destruct (decide (event = 0)) as [->|H0]; cbn; [set_solver|].
    destruct (decide (event = 1)) as [->|H1]; cbn; [set_solver|].
    destruct (decide (event = 2)) as [->|H2]; cbn; [set_solver|].
    destruct (decide (Z.land event 4 = 0)); cbn; set_solver.
  - destruct (decide (event = 0)) as [->|H0]; cbn; [set_solver|].
    destruct (decide (event = 1)) as [->|H1]; cbn; [set_solver|].
    destruct (decide (event = 2)) as [->|H2]; cbn; [set_solver|].
    destruct (decide (Z.land event 4 = 0)); cbn; set_solver.
  - destruct (decide (event = 0)) as [->|H0]; cbn.
    { split; [set_solver|]. intros (_ & _ & H). by rewrite Hland0 in H. }
    destruct (decide (event = 1)) as [->|H1]; cbn; [set_solver|].
    destruct (decide (event = 2)) as [->|H2]; cbn; [set_solver|].
    destruct (decide (Z.land event 4 = 0)) as [Hl|Hl]; cbn.
    + split; [set_solver|]. intros (_ & _ & H). done.
    + split; [done|]. set_solver.
  - intros fid' Hne.
    destruct (decide (event = 0)) as [->|H0]; cbn; [set_solver|].
    destruct (decide (event = 1)) as [->|H1]; cbn; [set_solver|].
    destruct (decide (event = 2)) as [->|H2]; cbn; [set_solver|].
    destruct (decide (Z.land event 4 = 0)); cbn; set_solver.
  - destruct (decide (event = 0)) as [->|H0]; cbn; [set_solver|].
    destruct (decide (event = 1)) as [->|H1]; cbn; [set_solver|].
    destruct (decide (event = 2)) as [->|H2]; cbn; [set_solver|].
    destruct (decide (Z.land event 4 = 0)); cbn; set_solver.
  - cbn. set_solver.
  - cbn. set_solver.
  - intros rlist wlist xlist fid'. unfold Select.poll.
    rewrite !mark_lookup.
    unfold Select._Readable, Select._Writable, Select._Error.
    by rewrite lookup_empty.
Qed.

Lemma select_notifier_exclusive_witness :
  7 ∈ Select.wset (Select.modify 7 2 (Select.modify 7 1 Select.init))
  <-> 2 = Select._Writable.
Proof.
  assert (H0 : Select.exclusive Select.init)
    by (unfold Select.exclusive, Select.init; cbn; set_solver).
  destruct (select_notifier_exclusive Select.init 7 1 H0)
    as (_ & _ & _ & _ & H1 & _).
  destruct (select_notifier_exclusive (Select.modify 7 1 Select.init) 7 2 H1)
    as (_ & Hw & _).
  exact Hw.
Defined.
